(** * Football tournament scheduler: the scoring and bracket core of server.js

    A shallow embedding of the server-side tournament logic
    (generateSchedule, createInitialScoreboard, applyMatchResult,
    updateMatchResult, generatePlayoff, updateKnockout) and the properties
    the specification states about it.

    Modelling conventions.
    - JavaScript numbers that hold scores and counters are integers of [Z].
      A JavaScript number is a double: it holds an integer exactly only up
      to 2^53 in magnitude, and beyond that the code computes with rounded
      values, Infinity and NaN.  The embedding describes the code where its
      numbers are exact; [exact_ledger] states this range for a ledger, and
      the statements about recorded scores and totals carry it as a
      hypothesis.
    - A string is a sequence of code units below 256; text with other code
      units (among them the white space characters above U+00FF that
      parseInt also skips) is not represented.
    - A JavaScript object used as a dictionary keyed by team name is an
      association list of its own properties in property order (array-index
      keys first, in ascending numeric order, then the other keys in
      insertion order), see [obj_set].  An assignment to the key __proto__
      of an object that has no own property of that name goes to the setter
      of Object.prototype and creates no property; [obj_set] leaves the
      object as it is.
    - The two JSON files of a tournament (schedule.json, scoreboard.json) are
      a [Store] of two finite maps keyed by tournament id; a save followed by
      a load returns what was saved, and disk failures are outside the model.
    - A field that is mutated through an object reference
      (homeTeam.played += 1) is an update of the record stored under that
      key, so two references to the same record alias as they do in the
      source. *)

From Stdlib Require Import ZArith Lia Ascii String.
From stdpp Require Import base option list strings gmap pretty sorting.

Open Scope Z_scope.

(** ** JavaScript values and helpers *)

(** Truthiness of a string-or-null value: null, undefined and the empty
    string are falsy. *)
Definition truthy (v : option string) : bool :=
  match v with
  | Some s => negb (bool_decide (s = ""%string))
  | None => false
  end.

Definition str_truthy (s : string) : bool := negb (bool_decide (s = ""%string)).

(** StrWhiteSpaceChar, on 8-bit code units: TAB, LF, VT, FF, CR, SP, NBSP. *)
Definition is_ws (c : ascii) : bool :=
  let n := N_of_ascii c in
  bool_decide (n = 9 ∨ n = 10 ∨ n = 11 ∨ n = 12 ∨ n = 13 ∨ n = 32 ∨ n = 160)%N.

Fixpoint skip_ws (s : string) : string :=
  match s with
  | String c s' => if is_ws c then skip_ws s' else s
  | EmptyString => s
  end.

Definition digit_val (c : ascii) : option Z :=
  let n := N_of_ascii c in
  if bool_decide (48 ≤ n ≤ 57)%N then Some (Z.of_N n - 48) else None.

(** The value of the longest prefix of decimal digits; [acc] is [None] until
    a first digit has been read. *)
Fixpoint parse_digits (acc : option Z) (s : string) : option Z :=
  match s with
  | String c s' =>
      match digit_val c with
      | Some d => parse_digits (Some (10 * default 0 acc + d)) s'
      | None => acc
      end
  | EmptyString => acc
  end.

(** [parseInt(v, 10)] on the string image of [v] (parseInt applies ToString
    to its argument first, so the number 3.7 is seen as the text "3.7").
    [None] is NaN.  The value is the integer that the digits denote; it is
    the number parseInt returns when its magnitude is at most 2^53 (see
    [max_exact]), and a rounded double or Infinity otherwise. *)
Definition parseInt (s : string) : option Z :=
  match skip_ws s with
  | String "-" r => Z.opp <$> parse_digits None r
  | String "+" r => parse_digits None r
  | r => parse_digits None r
  end.

(** ** Objects as dictionaries *)

Section Obj.
Context {V : Type}.

Fixpoint obj_get (k : string) (o : list (string * V)) : option V :=
  match o with
  | [] => None
  | (k', v) :: o' => if decide (k = k') then Some v else obj_get k o'
  end.

(** [Object.keys(o)] *)
Definition obj_keys (o : list (string * V)) : list string := o.*1.

(** In-place change of the value stored under an existing key. *)
Fixpoint obj_modify (k : string) (f : V → V) (o : list (string * V))
    : list (string * V) :=
  match o with
  | [] => []
  | (k', v) :: o' =>
      if decide (k = k') then (k', f v) :: o' else (k', v) :: obj_modify k f o'
  end.

(** An array index is the canonical decimal form of an integer below
    2^32 - 1. *)
Definition array_index (k : string) : option N :=
  match parse_digits None k with
  | Some z =>
      let n := Z.to_N z in
      if bool_decide (pretty n = k ∧ (n < 4294967295)%N) then Some n else None
  | None => None
  end.

Definition key_before (k k' : string) : bool :=
  match array_index k, array_index k' with
  | Some a, Some b => bool_decide (a < b)%N
  | Some _, None => true
  | None, _ => false
  end.

(** Creation of a property that the object does not have yet. *)
Fixpoint obj_insert_new (k : string) (v : V) (o : list (string * V))
    : list (string * V) :=
  match o with
  | [] => [(k, v)]
  | (k', v') :: o' =>
      if key_before k k' then (k, v) :: o else (k', v') :: obj_insert_new k v o'
  end.

(** The one key that Object.prototype defines with a setter. *)
Definition proto_key : string := "__proto__".

(** [o[k] = v] on a plain object: an own property is overwritten, a new one
    is created, except that [o["__proto__"] = v] without an own property of
    that name runs the inherited setter (which changes the prototype or does
    nothing) and leaves the own properties as they are. *)
Definition obj_set (k : string) (v : V) (o : list (string * V))
    : list (string * V) :=
  match obj_get k o with
  | Some _ => obj_modify k (λ _, v) o
  | None => if decide (k = proto_key) then o else obj_insert_new k v o
  end.
End Obj.

(** [Array.from(new Set(l))]: the elements of [l] without repetition, each
    at its first occurrence. *)
Fixpoint set_from (seen : list string) (l : list string) : list string :=
  match l with
  | [] => []
  | x :: l' =>
      if bool_decide (x ∈ seen) then set_from seen l'
      else x :: set_from (x :: seen) l'
  end.

(** ** Data model *)

Record TeamRecord := mkTeamRecord {
  played : Z;
  wins : Z;
  draws : Z;
  losses : Z;
  goalsFor : Z;
  goalsAgainst : Z;
  goalDifference : Z;
  points : Z;
  logo : option string
}.

Record MatchResult := mkMatchResult {
  r_id : string;
  r_home : string;
  r_away : string;
  r_homeScore : Z;
  r_awayScore : Z
}.

(** A fixture of the schedule; [home] and [away] are entries of the
    participants array and so may be null. *)
Record Fixture := mkFixture {
  f_id : string;
  f_home : option string;
  f_away : option string
}.

Record KnockoutMatch := mkKnockoutMatch {
  k_id : string;
  k_home : option string;
  k_away : option string;
  k_homeScore : option Z;
  k_awayScore : option Z;
  k_winner : option string
}.

(** [semiFinals] is the two-element array that generatePlayoff builds. *)
Record Knockout := mkKnockout {
  semiFinals : KnockoutMatch * KnockoutMatch;
  final : KnockoutMatch
}.

(** The content of scoreboard.json.  [results] is [None] when the property
    is absent. *)
Record Data := mkData {
  scoreboard : list (string * TeamRecord);
  results : option (list MatchResult);
  knockout : option Knockout
}.

Record Store := mkStore {
  scheduleFiles : gmap string (list (list Fixture));
  scoreboardFiles : gmap string Data
}.

Definition loadSchedule (fs : Store) (id : string) : option (list (list Fixture)) :=
  scheduleFiles fs !! id.

Definition loadScoreboard (fs : Store) (id : string) : option Data :=
  scoreboardFiles fs !! id.

Definition saveSchedule (id : string) (s : list (list Fixture)) (fs : Store) : Store :=
  mkStore (<[id := s]> (scheduleFiles fs)) (scoreboardFiles fs).

Definition saveScoreboard (id : string) (d : Data) (fs : Store) : Store :=
  mkStore (scheduleFiles fs) (<[id := d]> (scoreboardFiles fs)).

(** The reply of an operation: [{error}] or a payload. *)
Inductive Reply (A : Type) : Type :=
  | Err (msg : string)
  | Ok (x : A).
Arguments Err {A} msg.
Arguments Ok {A} x.

(** ** Standings engine *)

Definition zeroRecord (lg : option string) : TeamRecord :=
  mkTeamRecord 0 0 0 0 0 0 0 0 lg.

(** Field assignments of a team record: [t.field = f(t.field)]. *)
Definition upd_played (f : Z → Z) (t : TeamRecord) : TeamRecord :=
  mkTeamRecord (f (played t)) (wins t) (draws t) (losses t) (goalsFor t)
    (goalsAgainst t) (goalDifference t) (points t) (logo t).
Definition upd_wins (f : Z → Z) (t : TeamRecord) : TeamRecord :=
  mkTeamRecord (played t) (f (wins t)) (draws t) (losses t) (goalsFor t)
    (goalsAgainst t) (goalDifference t) (points t) (logo t).
Definition upd_draws (f : Z → Z) (t : TeamRecord) : TeamRecord :=
  mkTeamRecord (played t) (wins t) (f (draws t)) (losses t) (goalsFor t)
    (goalsAgainst t) (goalDifference t) (points t) (logo t).
Definition upd_losses (f : Z → Z) (t : TeamRecord) : TeamRecord :=
  mkTeamRecord (played t) (wins t) (draws t) (f (losses t)) (goalsFor t)
    (goalsAgainst t) (goalDifference t) (points t) (logo t).
Definition upd_goalsFor (f : Z → Z) (t : TeamRecord) : TeamRecord :=
  mkTeamRecord (played t) (wins t) (draws t) (losses t) (f (goalsFor t))
    (goalsAgainst t) (goalDifference t) (points t) (logo t).
Definition upd_goalsAgainst (f : Z → Z) (t : TeamRecord) : TeamRecord :=
  mkTeamRecord (played t) (wins t) (draws t) (losses t) (goalsFor t)
    (f (goalsAgainst t)) (goalDifference t) (points t) (logo t).
Definition upd_points (f : Z → Z) (t : TeamRecord) : TeamRecord :=
  mkTeamRecord (played t) (wins t) (draws t) (losses t) (goalsFor t)
    (goalsAgainst t) (goalDifference t) (f (points t)) (logo t).
(** [t.goalDifference = t.goalsFor - t.goalsAgainst] *)
Definition set_goalDifference (t : TeamRecord) : TeamRecord :=
  mkTeamRecord (played t) (wins t) (draws t) (losses t) (goalsFor t)
    (goalsAgainst t) (goalsFor t - goalsAgainst t) (points t) (logo t).

(** A sequence of statements [scoreboard[k].field = ...], run in order. *)
Definition run_updates (us : list (string * (TeamRecord → TeamRecord)))
    (sb : list (string * TeamRecord)) : list (string * TeamRecord) :=
  fold_left (λ acc u, obj_modify u.1 u.2 acc) us sb.

(** [if (!data.scoreboard[team]) data.scoreboard[team] = {...}].  The
    recompute calls it for teams that createInitialScoreboard has gone
    through; for the key __proto__ the read returns the prototype that the
    earlier assignment has set and the own properties stay as they are. *)
Definition ensureTeam (team : string) (sb : list (string * TeamRecord))
    : list (string * TeamRecord) :=
  match obj_get team sb with
  | Some _ => sb
  | None => obj_set team (zeroRecord None) sb
  end.

(** The sums and comparisons are those of the integers; they are the ones
    of the code as long as the scores and the totals stay within
    [max_exact]. *)
Definition applyMatchResult (sb : list (string * TeamRecord))
    (home away : string) (homeScore awayScore : Z) : list (string * TeamRecord) :=
  let sb := ensureTeam home sb in
  let sb := ensureTeam away sb in
  let sb := run_updates
    [ (home, upd_played (λ x, x + 1));
      (away, upd_played (λ x, x + 1));
      (home, upd_goalsFor (λ x, x + homeScore));
      (home, upd_goalsAgainst (λ x, x + awayScore));
      (away, upd_goalsFor (λ x, x + awayScore));
      (away, upd_goalsAgainst (λ x, x + homeScore));
      (home, set_goalDifference);
      (away, set_goalDifference) ] sb in
  if bool_decide (homeScore > awayScore) then
    run_updates
      [ (home, upd_wins (λ x, x + 1));
        (away, upd_losses (λ x, x + 1));
        (home, upd_points (λ x, x + 3)) ] sb
  else if bool_decide (homeScore < awayScore) then
    run_updates
      [ (away, upd_wins (λ x, x + 1));
        (home, upd_losses (λ x, x + 1));
        (away, upd_points (λ x, x + 3)) ] sb
  else
    run_updates
      [ (home, upd_draws (λ x, x + 1));
        (away, upd_draws (λ x, x + 1));
        (home, upd_points (λ x, x + 1));
        (away, upd_points (λ x, x + 1)) ] sb.

(** [logos[team] || null], as it reads back from the JSON file: a string
    or null. *)
Definition logo_or_null (logos : list (string * string)) (team : string)
    : option string :=
  match obj_get team logos with
  | Some l => if str_truthy l then Some l else None
  | None => None
  end.

Definition createInitialScoreboard (teams : list string)
    (logos : list (string * string)) : list (string * TeamRecord) :=
  fold_left (λ sb team, obj_set team (zeroRecord (logo_or_null logos team)) sb)
    teams [].

(** ** Result ledger *)

Record Payload := mkPayload {
  p_id : option string;
  p_home : string;
  p_away : string;
  p_homeScore : string;
  p_awayScore : string
}.

(** [findIndex] followed by [splice(index, 1)]: the first element that
    satisfies [P] is removed. *)
Fixpoint remove_first {A} (P : A → bool) (l : list A) : list A :=
  match l with
  | [] => []
  | x :: l' => if P x then l' else x :: remove_first P l'
  end.

(** The logos of the existing scoreboard that are truthy. *)
Definition preserved_logos (sb : list (string * TeamRecord))
    : list (string * string) :=
  fold_left (λ logos t,
      match obj_get t sb with
      | Some rec =>
          match logo rec with
          | Some l => if str_truthy l then obj_set t l logos else logos
          | None => logos
          end
      | None => logos
      end) (obj_keys sb) [].

Definition recompute (sb : list (string * TeamRecord)) (rs : list MatchResult)
    : list (string * TeamRecord) :=
  let existingTeams := obj_keys sb in
  let teams :=
    set_from [] (existingTeams ++ flat_map (λ r, [r_home r; r_away r]) rs) in
  let logos := preserved_logos sb in
  let newScoreboard := createInitialScoreboard teams logos in
  fold_left (λ acc r,
      applyMatchResult acc (r_home r) (r_away r) (r_homeScore r) (r_awayScore r))
    rs newScoreboard.

Definition match_id (p : Payload) : string :=
  if truthy (p_id p) then default ""%string (p_id p)
  else (p_home p +:+ "-" +:+ p_away p)%string.

Definition updateMatchResult (fs : Store) (tournamentId : string) (p : Payload)
    : Reply Data * Store :=
  match loadScoreboard fs tournamentId with
  | None => (Err "No scoreboard found. Generate a schedule first.", fs)
  | Some data =>
      if negb (str_truthy (p_home p)) || negb (str_truthy (p_away p))
         || bool_decide (p_home p = p_away p)
      then (Err "Invalid teams.", fs)
      else
        match parseInt (p_homeScore p), parseInt (p_awayScore p) with
        | Some hScore, Some aScore =>
            if bool_decide (hScore < 0) || bool_decide (aScore < 0)
            then (Err "Scores must be non‑negative integers.", fs)
            else
              let matchId := match_id p in
              let kept :=
                match results data with
                | Some rs => remove_first (λ r, bool_decide (r_id r = matchId)) rs
                | None => []
                end in
              let rs :=
                kept ++ [mkMatchResult matchId (p_home p) (p_away p) hScore aScore] in
              let data' :=
                mkData (recompute (scoreboard data) rs) (Some rs) (knockout data) in
              (Ok data', saveScoreboard tournamentId data' fs)
        | _, _ => (Err "Scores must be non‑negative integers.", fs)
        end
  end.

(** ** Schedule generator *)

(** [participants = teams.slice()], with a null appended when the count is
    odd. *)
Definition pad (teams : list string) : list (option string) :=
  let participants := Some <$> teams in
  if bool_decide (length participants `mod` 2 = 1)%nat
  then participants ++ [None] else participants.

(** The template string [`r${r}-m${i}`]. *)
Definition fixture_id (r i : nat) : string :=
  ("r" +:+ pretty r +:+ "-m" +:+ pretty i)%string.

(** [a[i]], where an index out of range reads undefined (falsy, as null). *)
Definition js_nth (a : list (option string)) (i : nat) : option string :=
  default None (a !! i).

(** The inner loop [for (i = 0; i < n / 2; i++)].  The division is the one of
    JavaScript numbers, so the loop runs while [2 * i < n], that is for
    [(n + 1) / 2] values of [i]. *)
Definition round_matches (n r : nat) (participants : list (option string))
    : list Fixture :=
  flat_map (λ i,
      let home := js_nth participants i in
      let away := js_nth participants (n - 1 - i) in
      if truthy home && truthy away then [mkFixture (fixture_id r i) home away]
      else [])
    (seq 0 ((n + 1) / 2)).

(** [const last = participants.pop(); participants.splice(1, 0, last);] *)
Definition rotate (participants : list (option string)) : list (option string) :=
  let last := default None (last participants) in
  let rest := removelast participants in
  take 1 rest ++ last :: drop 1 rest.

(** The outer loop, with [k] rounds still to produce and [r] the index of the
    next one. *)
Fixpoint rounds_from (k n r : nat) (participants : list (option string))
    : list (list Fixture) :=
  match k with
  | O => []
  | S k' =>
      round_matches n r participants :: rounds_from k' n (S r) (rotate participants)
  end.

Definition generateSchedule (teams : list string) : list (list Fixture) :=
  let participants := pad teams in
  let n := length participants in
  rounds_from (n - 1) n 0 participants.

(** The files written when a tournament is created (request handler, POST
    /tournaments), for an id and a list of trimmed non-empty team names. *)
Definition createTournament (id : string) (teamNames : list string)
    (logoMap : list (string * string)) (fs : Store) : Store :=
  let schedule := generateSchedule teamNames in
  let fs := saveSchedule id schedule fs in
  let scoreboard := createInitialScoreboard teamNames logoMap in
  saveScoreboard id (mkData scoreboard (Some []) None) fs.

(** ** Knockout bracket engine *)

(** [Array.prototype.sort(cmp)], a stable sort: an element moves behind a
    later one only when the comparator is positive.  For a consistent
    comparator the result of a stable sort does not depend on the algorithm;
    it is computed here by insertion. *)
Fixpoint sort_insert {A} (cmp : A → A → Z) (x : A) (l : list A) : list A :=
  match l with
  | [] => [x]
  | y :: l' => if bool_decide (cmp x y > 0) then y :: sort_insert cmp x l' else x :: l
  end.

Definition js_sort {A} (cmp : A → A → Z) (l : list A) : list A :=
  foldr (sort_insert cmp) [] l.

Section Knockout.
(** [a.localeCompare(b)] of the host: negative, zero or positive. *)
Variable localeCompare : string → string → Z.

(** The comparator of the standings, on entries [{team, ...record}]. *)
Definition standings_cmp (a b : string * TeamRecord) : Z :=
  if bool_decide (points b.2 ≠ points a.2) then points b.2 - points a.2
  else if bool_decide (goalDifference b.2 ≠ goalDifference a.2)
    then goalDifference b.2 - goalDifference a.2
  else if bool_decide (goalsFor b.2 ≠ goalsFor a.2) then goalsFor b.2 - goalsFor a.2
  else localeCompare a.1 b.1.

(** [teams.map((t) => ({ team: t, ...data.scoreboard[t] }))], sorted. *)
Definition ranked (sb : list (string * TeamRecord)) : list (string * TeamRecord) :=
  let teams := obj_keys sb in
  let standings := omap (λ t, pair t <$> obj_get t sb) teams in
  js_sort standings_cmp standings.

Definition emptyMatch (id : string) (home away : option string) : KnockoutMatch :=
  mkKnockoutMatch id home away None None None.

Definition generatePlayoff (fs : Store) (tournamentId : string)
    : Reply Knockout * Store :=
  match loadSchedule fs tournamentId, loadScoreboard fs tournamentId with
  | Some schedule, Some data =>
      match knockout data with
      | Some ko => (Ok ko, fs)
      | None =>
          let totalMatches := fold_left (λ acc round, acc + length round)%nat schedule 0%nat in
          if match results data with
             | Some rs => bool_decide (length rs < totalMatches)%nat
             | None => true
             end
          then (Err "Group stage is not yet complete.", fs)
          else
            let teams := obj_keys (scoreboard data) in
            if bool_decide (length teams < 4)%nat
            then (Err "At least four teams are required for semi finals.", fs)
            else
              let top4 := (take 4 (ranked (scoreboard data))).*1 in
              let ko :=
                mkKnockout
                  (emptyMatch "sf1" (top4 !! 0%nat) (top4 !! 3%nat),
                   emptyMatch "sf2" (top4 !! 1%nat) (top4 !! 2%nat))
                  (emptyMatch "final" None None) in
              (Ok ko,
               saveScoreboard tournamentId
                 (mkData (scoreboard data) (results data) (Some ko)) fs)
      end
  | _, _ => (Err "No tournament data found.", fs)
  end.
End Knockout.

Record KnockoutPayload := mkKnockoutPayload {
  kp_id : option string;
  kp_homeScore : string;
  kp_awayScore : string
}.

(** The assignments to [match.homeScore], [match.awayScore], [match.winner]. *)
Definition record_result (h a : Z) (m : KnockoutMatch) : KnockoutMatch :=
  mkKnockoutMatch (k_id m) (k_home m) (k_away m) (Some h) (Some a)
    (if bool_decide (h > a) then k_home m
     else if bool_decide (h < a) then k_away m
     else k_home m).

Definition starts_with_sf (id : string) : bool :=
  match id with
  | String "s" (String "f" _) => true
  | _ => false
  end.

(** The block guarded by [id.startsWith('sf')]. *)
Definition populate_final (ko : Knockout) : Knockout :=
  let decided :=
    truthy (k_winner (semiFinals ko).1) && truthy (k_winner (semiFinals ko).2) in
  if decided && negb (truthy (k_home (final ko))) && negb (truthy (k_away (final ko)))
  then
    mkKnockout (semiFinals ko)
      (mkKnockoutMatch (k_id (final ko)) (k_winner (semiFinals ko).1)
         (k_winner (semiFinals ko).2) (k_homeScore (final ko))
         (k_awayScore (final ko)) (k_winner (final ko)))
  else ko.

Definition updateKnockout (fs : Store) (tournamentId : string)
    (p : KnockoutPayload) : Reply Knockout * Store :=
  match loadScoreboard fs tournamentId with
  | Some data =>
      match knockout data with
      | Some ko =>
          match truthy (kp_id p), kp_id p,
                parseInt (kp_homeScore p), parseInt (kp_awayScore p) with
          | true, Some id, Some h, Some a =>
              if bool_decide (h < 0) || bool_decide (a < 0)
              then (Err "Invalid knockout update payload.", fs)
              else
                let found :=
                  if bool_decide (id = "final"%string)
                  then Some (mkKnockout (semiFinals ko) (record_result h a (final ko)))
                  else if bool_decide (k_id (semiFinals ko).1 = id)
                  then Some (mkKnockout
                         (record_result h a (semiFinals ko).1, (semiFinals ko).2)
                         (final ko))
                  else if bool_decide (k_id (semiFinals ko).2 = id)
                  then Some (mkKnockout
                         ((semiFinals ko).1, record_result h a (semiFinals ko).2)
                         (final ko))
                  else None in
                match found with
                | None => (Err "Match not found in knockout bracket.", fs)
                | Some ko1 =>
                    let ko2 := if starts_with_sf id then populate_final ko1 else ko1 in
                    (Ok ko2,
                     saveScoreboard tournamentId
                       (mkData (scoreboard data) (results data) (Some ko2)) fs)
                end
          | _, _, _, _ => (Err "Invalid knockout update payload.", fs)
          end
      | None => (Err "No knockout bracket found.", fs)
      end
  | None => (Err "No knockout bracket found.", fs)
  end.

(** ** The record invariant of the standings *)

Definition record_ok (t : TeamRecord) : Prop :=
  points t = 3 * wins t + draws t
  ∧ goalDifference t = goalsFor t - goalsAgainst t
  ∧ played t = wins t + draws t + losses t.

Definition standings_ok (sb : list (string * TeamRecord)) : Prop :=
  ∀ team rec, obj_get team sb = Some rec → record_ok rec.

(** What a sequence of field assignments does to the record of one team. *)
Definition updates_on (t : string) (us : list (string * (TeamRecord → TeamRecord)))
    (rec : TeamRecord) : TeamRecord :=
  fold_left (λ acc u, if decide (t = u.1) then u.2 acc else acc) us rec.

(** ** The standings as the specification words them

    A fold of the ledger for one team: each result the team takes part in
    adds one match played, the goals scored and conceded, 3 points and a win
    to the strictly higher scorer, 1 point and a draw to both on equal
    scores, a loss to the strictly lower scorer, and the goal difference is
    recomputed. *)

Definition tally_side (gf ga : Z) (t : TeamRecord) : TeamRecord :=
  mkTeamRecord
    (played t + 1)
    (wins t + (if bool_decide (gf > ga) then 1 else 0))
    (draws t + (if bool_decide (gf = ga) then 1 else 0))
    (losses t + (if bool_decide (gf < ga) then 1 else 0))
    (goalsFor t + gf)
    (goalsAgainst t + ga)
    (goalsFor t + gf - (goalsAgainst t + ga))
    (points t + (if bool_decide (gf > ga) then 3
                 else if bool_decide (gf = ga) then 1 else 0))
    (logo t).

Definition tally_step (team : string) (r : MatchResult) (t : TeamRecord)
    : TeamRecord :=
  let t := if decide (team = r_home r)
           then tally_side (r_homeScore r) (r_awayScore r) t else t in
  if decide (team = r_away r)
  then tally_side (r_awayScore r) (r_homeScore r) t else t.

Definition team_tally (team : string) (rs : list MatchResult) (lg : option string)
    : TeamRecord :=
  fold_left (λ acc r, tally_step team r acc) rs (zeroRecord lg).

Definition tally_from (t : string) (rs : list MatchResult) (r0 : TeamRecord)
    : TeamRecord :=
  fold_left (λ acc r, tally_step t r acc) rs r0.

Definition apply_all (rs : list MatchResult) (sb : list (string * TeamRecord))
    : list (string * TeamRecord) :=
  fold_left (λ acc r,
      applyMatchResult acc (r_home r) (r_away r) (r_homeScore r) (r_awayScore r))
    rs sb.

(** The ledger holds at most one result per id. *)
Definition ledger_ok (d : Data) : Prop :=
  match results d with
  | Some rs => NoDup (r_id <$> rs)
  | None => True
  end.

(** The largest magnitude up to which every integer is a JavaScript number
    (2^53), and the largest length of a JavaScript array (2^32 - 1). *)
Definition max_exact : Z := 9007199254740992.
Definition max_length : Z := 4294967295.

(** All goals of a ledger, by magnitude. *)
Definition goal_volume (rs : list MatchResult) : Z :=
  foldr (λ r acc, Z.abs (r_homeScore r) + Z.abs (r_awayScore r) + acc) 0 rs.

(** A ledger on which the standings arithmetic of the code is exact: every
    sum of scores that a recompute forms stays within [max_exact], and so do
    the counters, which are bounded by the length of the array. *)
Definition exact_ledger (rs : list MatchResult) : Prop :=
  goal_volume rs ≤ max_exact ∧ Z.of_nat (length rs) ≤ max_length.

(** ** Notions used to state the properties of the schedule *)

(** The slots of a round whose two participants are both truthy. *)
Definition live_slots (n : nat) (p : list (option string)) : list nat :=
  filter (λ i, truthy (js_nth p i) && truthy (js_nth p (n - 1 - i)) = true)
    (seq 0 ((n + 1) / 2)).

(** The participants array at the start of round [r]: the padded team list
    after [r] rotations. *)
Definition circle (teams : list string) (r : nat) : list (option string) :=
  Nat.iter r rotate (pad teams).

(** The position, in the padded team list, of the participant that stands at
    position [j] of the circle in round [r], for [m + 1] participants:
    position 0 never moves, the others move one place along the positions
    1..m in every round. *)
Definition orig_index (m r j : nat) : nat :=
  if decide (j = 0)%nat then 0%nat
  else if decide (r < j)%nat then (j - r)%nat else (j + m - r)%nat.

(** The loop indices [i] below [n / 2] at which neither [P[i]] nor
    [P[n - 1 - i]] is the bye. *)
Definition bye_free_slots (P : list (option string)) (n : nat) : list nat :=
  filter (λ i, js_nth P i ≠ None ∧ js_nth P (n - 1 - i) ≠ None) (seq 0 (n / 2)).

(** The match indices of every round run 0, 1, 2, ... without a gap. *)
Definition ids_contiguous (schedule : list (list Fixture)) : Prop :=
  ∀ r round, schedule !! r = Some round →
    f_id <$> round = fixture_id r <$> seq 0 (length round).

(** A string without the character [-]. *)
Fixpoint no_dash (s : string) : Prop :=
  match s with
  | EmptyString => True
  | String c s' => c ≠ "-"%char ∧ no_dash s'
  end.

(** ** The ranking order as the specification words it

    More points first, then the better goal difference, then more goals
    scored, then the team name in ascending order of the host comparison. *)
Definition ranks_before (localeCompare : string → string → Z)
    (a b : string * TeamRecord) : Prop :=
  points a.2 > points b.2
  ∨ (points a.2 = points b.2
     ∧ (goalDifference a.2 > goalDifference b.2
        ∨ (goalDifference a.2 = goalDifference b.2
           ∧ (goalsFor a.2 > goalsFor b.2
              ∨ (goalsFor a.2 = goalsFor b.2
                 ∧ localeCompare a.1 b.1 ≤ 0))))).

(** ** Notions used to state the properties of the bracket *)

(** A value that is null or a non-empty name. *)
Definition named (v : option string) : Prop := v ≠ Some ""%string.

(** A bracket as generatePlayoff builds it from non-empty team names and as
    updateKnockout keeps it: the semi-finals are sf1 and sf2, the final is
    final, and every team slot and winner is null or a non-empty name. *)
Definition bracket_ok (ko : Knockout) : Prop :=
  k_id (semiFinals ko).1 = "sf1"%string
  ∧ k_id (semiFinals ko).2 = "sf2"%string
  ∧ k_id (final ko) = "final"%string
  ∧ (named (k_home (semiFinals ko).1) ∧ named (k_winner (semiFinals ko).1))
  ∧ named (k_away (semiFinals ko).1)
  ∧ (named (k_home (semiFinals ko).2) ∧ named (k_winner (semiFinals ko).2))
  ∧ named (k_away (semiFinals ko).2)
  ∧ named (k_home (final ko))
  ∧ named (k_away (final ko)).


(** A team that has no standings entry and appears in no recorded result. *)
Definition unknown_team (team : string) (data : Data) : Prop :=
  obj_get team (scoreboard data) = None
  ∧ ∀ rs, results data = Some rs →
      team ∉ flat_map (λ r, [r_home r; r_away r]) rs.

(** ** Sample tournaments used to exercise the statements *)

(** A host comparison for the examples: the order of the code units. *)
Definition codeUnitCompare (a b : string) : Z :=
  match String.compare a b with
  | Lt => -1
  | Eq => 0
  | Gt => 1
  end.

Definition emptyStore : Store := mkStore ∅ ∅.

Definition cup4 : Store :=
  createTournament "cup" ["Ajax"; "Bayern"; "Celtic"; "Dynamo"]%string [] emptyStore.

Definition submit (id home away hs as_ : string) : Payload :=
  mkPayload (Some id) home away hs as_.

Definition upsert_all (tid : string) (ps : list Payload) (fs : Store) : Store :=
  fold_left (λ acc p, (updateMatchResult acc tid p).2) ps fs.

(** The six fixtures of [cup4], played so that Ajax has 9 points, Bayern 6,
    Celtic 3 and Dynamo 0. *)
Definition cup4_results : list Payload :=
  [ submit "r0-m0" "Ajax" "Dynamo" "1" "0";
    submit "r0-m1" "Bayern" "Celtic" "1" "0";
    submit "r1-m0" "Ajax" "Celtic" "1" "0";
    submit "r1-m1" "Dynamo" "Bayern" "0" "1";
    submit "r2-m0" "Ajax" "Bayern" "1" "0";
    submit "r2-m1" "Celtic" "Dynamo" "1" "0" ].

Definition cup4_played : Store := upsert_all "cup" cup4_results cup4.

(** One more result, for a match that is not on the schedule. *)
Definition cup4_surplus : Store :=
  upsert_all "cup" [submit "friendly" "Xerez" "Yeovil" "5" "5"] cup4_played.

Definition cup4_seeded : Store :=
  (generatePlayoff codeUnitCompare cup4_played "cup").2.




(** [cup4] with five of its six fixtures played. *)
Definition cup4_five : Store := upsert_all "cup" (take 5 cup4_results) cup4.

Definition cup4_five_data : Data :=
  default (mkData [] None None) (loadScoreboard cup4_five "cup").

(** ** Further notions: score texts, sequences of knockout results *)

(** A text that is empty or begins with a character that is not a decimal
    digit: where parseInt stops reading. *)
Definition no_digit_head (s : string) : Prop :=
  match s with
  | EmptyString => True
  | String c _ => digit_val c = None
  end.

Definition knockout_all (tid : string) (ps : list KnockoutPayload) (fs : Store)
    : Store :=
  fold_left (λ acc p, (updateKnockout acc tid p).2) ps fs.

(** A bracket whose semi-finals are still the seeded pairings t1-t4 and t2-t3
    and in which every winner and finalist comes from the pairing it belongs
    to. *)
Definition seeded_from (t1 t2 t3 t4 : string) (ko : Knockout) : Prop :=
  let sf1 := (semiFinals ko).1 in
  let sf2 := (semiFinals ko).2 in
  k_id sf1 = "sf1"%string ∧ k_id sf2 = "sf2"%string
  ∧ k_id (final ko) = "final"%string
  ∧ k_home sf1 = Some t1 ∧ k_away sf1 = Some t4
  ∧ k_home sf2 = Some t2 ∧ k_away sf2 = Some t3
  ∧ (k_winner sf1 = None ∨ k_winner sf1 = Some t1 ∨ k_winner sf1 = Some t4)
  ∧ (k_winner sf2 = None ∨ k_winner sf2 = Some t2 ∨ k_winner sf2 = Some t3)
  ∧ ((k_home (final ko) = None ∧ k_away (final ko) = None
      ∧ k_winner (final ko) = None)
     ∨ ((k_home (final ko) = Some t1 ∨ k_home (final ko) = Some t4)
        ∧ (k_away (final ko) = Some t2 ∨ k_away (final ko) = Some t3)
        ∧ (k_winner (final ko) = None
           ∨ k_winner (final ko) = k_home (final ko)
           ∨ k_winner (final ko) = k_away (final ko)))).

(** A second tournament beside [cup4_played], to exercise statements about
    two tournaments. *)
Definition two_cups : Store :=
  createTournament "derby" ["Everton"; "Fulham"]%string [] cup4_played.

(** ** Further notions: the recomputed standings *)

(** The logo that a recompute carries over for a team: the logo of its old
    record when that is a non-empty string, null otherwise. *)
Definition carried_logo (sb : list (string * TeamRecord)) (team : string)
    : option string :=
  match obj_get team sb with
  | Some rec =>
      match logo rec with
      | Some l => if str_truthy l then Some l else None
      | None => None
      end
  | None => None
  end.

(** A tournament created with a logo for Ajax only. *)
Definition cup_logos : Store :=
  createTournament "cup" ["Ajax"; "Bayern"]%string
    [("Ajax", "/uploads/cup/ajax.png")]%string emptyStore.

Definition cup_logos_data : Data :=
  default (mkData [] None None) (loadScoreboard cup_logos "cup").

(** ** Further notions: column totals of the table and of the ledger *)

(** The total of one column over the rows of the scoreboard. *)
Definition table_sum (F : TeamRecord → Z) (sb : list (string * TeamRecord)) : Z :=
  foldr (λ e acc, F e.2 + acc) 0 sb.

(** The total of one quantity over the results of the ledger. *)
Definition ledger_sum (c : MatchResult → Z) (rs : list MatchResult) : Z :=
  foldr (λ r acc, c r + acc) 0 rs.

Definition sum_over (g : string → Z) (ks : list string) : Z :=
  foldr (λ k acc, g k + acc) 0 ks.

Definition scores_nonneg (rs : list MatchResult) : Prop :=
  Forall (λ r, 0 ≤ r_homeScore r ∧ 0 ≤ r_awayScore r) rs.

(** ** Further notions: the circle of the round-robin *)

(** The two sides of a fixture are the teams [a] and [b], in either order. *)
Definition pairs (f : Fixture) (a b : option string) : Prop :=
  (f_home f = a ∧ f_away f = b) ∨ (f_home f = b ∧ f_away f = a).

Definition five_teams : list string :=
  ["Ajax"; "Bayern"; "Celtic"; "Dynamo"; "Everton"]%string.

(** ** Further notions: reporting the group stage *)

(** The result form filled in for a fixture of the schedule: its id and its
    two teams, with the scores written in decimal. *)
Definition fixture_payload (hs as_ : Fixture → N) (f : Fixture) : Payload :=
  mkPayload (Some (f_id f)) (default ""%string (f_home f))
    (default ""%string (f_away f)) (pretty (hs f)) (pretty (as_ f)).

(** The forms for all fixtures of the schedule, round by round. *)
Definition group_stage (teams : list string) (hs as_ : Fixture → N) : list Payload :=
  fixture_payload hs as_ <$> concat (generateSchedule teams).

(** What the group stage leaves in the store of a tournament while results
    for the fixtures [reported] have come in. *)
Definition stage_state (tid : string) (teams : list string)
    (reported : list Fixture) (fs : Store) : Prop :=
  loadSchedule fs tid = Some (generateSchedule teams)
  ∧ ∃ sb rs,
      loadScoreboard fs tid = Some (mkData sb (Some rs) None)
      ∧ r_id <$> rs = f_id <$> reported
      ∧ (∀ r, r ∈ rs → r_home r ∈ teams ∧ r_away r ∈ teams)
      ∧ NoDup (obj_keys sb)
      ∧ ∀ t, t ∈ obj_keys sb ↔ t ∈ teams.

(** ** Tournament identifiers *)

(** [/[a-z0-9]/] on one character. *)
Definition is_slug_char (c : ascii) : bool :=
  let n := N_of_ascii c in
  ((48 <=? n) && (n <=? 57) || (97 <=? n) && (n <=? 122))%N.

Definition is_hyphen (c : ascii) : bool := bool_decide (c = "-"%char).

(** [.replace(/[^a-z0-9]+/g, '-')]: every maximal run of other characters
    becomes one hyphen.  [in_run] tells that the hyphen of the current run has
    been written. *)
Fixpoint replace_runs (in_run : bool) (s : string) : string :=
  match s with
  | EmptyString => EmptyString
  | String c s' =>
      if is_slug_char c then String c (replace_runs false s')
      else if in_run then replace_runs true s'
      else String "-" (replace_runs true s')
  end.

(** [.replace(/^-+|-+$/g, '')]: the hyphens at the start and the hyphens at
    the end are removed. *)
Fixpoint strip_leading (s : string) : string :=
  match s with
  | EmptyString => EmptyString
  | String c s' => if is_hyphen c then strip_leading s' else s
  end.

Fixpoint strip_trailing (s : string) : string :=
  match s with
  | EmptyString => EmptyString
  | String c s' =>
      let r := strip_trailing s' in
      if is_hyphen c && bool_decide (r = EmptyString) then EmptyString
      else String c r
  end.

Section Slug.
(** [String.prototype.toLowerCase] and [String.prototype.trim] of the host. *)
Variables toLowerCase trim : string → string.

Definition slugify (str : string) : string :=
  strip_trailing (strip_leading (replace_runs false (trim (toLowerCase str)))).

(** [`${slug}-${ts}`], for the text [ts] of [Date.now().toString(36)]. *)
Definition generateTournamentId (name ts : string) : string :=
  (slugify name +:+ "-" +:+ ts)%string.
End Slug.

(** Shape of a text: only [a-z0-9-]; no hyphen twice in a row; no hyphen
    first; no hyphen last. *)
Fixpoint slug_chars (s : string) : bool :=
  match s with
  | EmptyString => true
  | String c s' => (is_slug_char c || is_hyphen c) && slug_chars s'
  end.

Definition head_hyphen (s : string) : bool :=
  match s with
  | EmptyString => false
  | String c _ => is_hyphen c
  end.

Fixpoint no_double_hyphen (s : string) : bool :=
  match s with
  | EmptyString => true
  | String c s' => negb (is_hyphen c && head_hyphen s') && no_double_hyphen s'
  end.

Fixpoint last_hyphen (s : string) : bool :=
  match s with
  | EmptyString => false
  | String c EmptyString => is_hyphen c
  | String _ s' => last_hyphen s'
  end.

(** Stand-ins for the host functions on plain ASCII text: upper-case letters
    to lower case, and blanks removed at both ends. *)
Definition lower_ascii (c : ascii) : ascii :=
  let n := N_of_ascii c in
  if ((65 <=? n) && (n <=? 90))%N then ascii_of_N (n + 32) else c.

Fixpoint lower_text (s : string) : string :=
  match s with
  | EmptyString => EmptyString
  | String c s' => String (lower_ascii c) (lower_text s')
  end.

Fixpoint trim_start (s : string) : string :=
  match s with
  | EmptyString => EmptyString
  | String c s' => if bool_decide (c = " "%char) then trim_start s' else s
  end.

Fixpoint trim_end (s : string) : string :=
  match s with
  | EmptyString => EmptyString
  | String c s' =>
      let r := trim_end s' in
      if bool_decide (c = " "%char) && bool_decide (r = EmptyString)
      then EmptyString else String c r
  end.

Definition trim_text (s : string) : string := trim_end (trim_start s).

(** ** The page script: what the browser shows *)

(** [computeMatchCount(schedule)] *)
Definition computeMatchCount (schedule : option (list (list Fixture))) : nat :=
  match schedule with
  | None => 0%nat
  | Some rounds => fold_left (λ count round, (count + length round)%nat) rounds 0%nat
  end.

(** What [updatePlayoffSection] leaves on the page: nothing, the stored
    bracket, or the button that asks the server for a bracket. *)
Inductive PlayoffView : Type :=
  | Hidden
  | ShowBracket (ko : Knockout)
  | OfferGenerate.

(** [updatePlayoffSection()], as a function of the three page variables it
    reads. *)
Definition updatePlayoffSection (scheduleData : option (list (list Fixture)))
    (scoreboardData : option Data) (matchCount : nat) : PlayoffView :=
  match scheduleData, scoreboardData with
  | Some _, Some d =>
      match knockout d with
      | Some ko => ShowBracket ko
      | None =>
          let completed :=
            match results d with
            | Some rs => bool_decide (length rs = matchCount)
            | None => false
            end in
          let enoughTeams := bool_decide (4 ≤ length (obj_keys (scoreboard d)))%nat in
          if completed && enoughTeams then OfferGenerate else Hidden
      end
  | _, _ => Hidden
  end.

(** [s.replace(/c/g, rep)] for a single character [c]. *)
Fixpoint replace_char (c : ascii) (rep : string) (s : string) : string :=
  match s with
  | EmptyString => EmptyString
  | String x s' =>
      if decide (x = c) then (rep +:+ replace_char c rep s')%string
      else String x (replace_char c rep s')
  end.

(** The double quote character. *)
Definition dquote : ascii := "034"%char.

Definition escapeHtml (unsafe : string) : string :=
  replace_char "'" "&#039;"
    (replace_char dquote "&quot;"
       (replace_char ">" "&gt;"
          (replace_char "<" "&lt;"
             (replace_char "&" "&amp;" unsafe)))).

(** The entity written for one character. *)
Definition escape_char (x : ascii) : string :=
  if decide (x = "&"%char) then "&amp;"%string
  else if decide (x = "<"%char) then "&lt;"%string
  else if decide (x = ">"%char) then "&gt;"%string
  else if decide (x = dquote) then "&quot;"%string
  else if decide (x = "'"%char) then "&#039;"%string
  else String x EmptyString.

Definition html_special (c : ascii) : bool :=
  bool_decide (c = "<"%char) || bool_decide (c = ">"%char)
  || bool_decide (c = dquote) || bool_decide (c = "'"%char).

Fixpoint html_safe (s : string) : bool :=
  match s with
  | EmptyString => true
  | String c s' => negb (html_special c) && html_safe s'
  end.

(** No team of the ledger is named __proto__. *)
Definition plain_teams (rs : list MatchResult) : Prop :=
  Forall (λ r, r_home r ≠ proto_key ∧ r_away r ≠ proto_key) rs.

(** The ledger that the forms of [group_stage] leave when all are accepted. *)
Definition stage_ledger (teams : list string) (hs as_ : Fixture → N)
    : list MatchResult :=
  (λ f, mkMatchResult (f_id f) (default ""%string (f_home f))
          (default ""%string (f_away f)) (Z.of_N (hs f)) (Z.of_N (as_ f)))
    <$> concat (generateSchedule teams).
(** ** Lookup lemmas for objects *)

Section ObjFacts.
Context {V : Type}.
Implicit Types (o : list (string * V)) (k t : string).

Lemma obj_get_modify t k (f : V → V) o :
  obj_get t (obj_modify k f o)
  = if decide (t = k) then f <$> obj_get t o else obj_get t o.
Proof.
  induction o as [|[k' v] o IH]; simpl.
  - by destruct (decide (t = k)).
  - destruct (decide (k = k')) as [->|Hk]; simpl.
    + destruct (decide (t = k')); by simpl.
    + destruct (decide (t = k')) as [->|Ht]; simpl.
      * by destruct (decide (k' = k)); [congruence|].
      * apply IH.
Qed.

Lemma obj_get_insert_new_ne t k (v : V) o :
  t ≠ k → obj_get t (obj_insert_new k v o) = obj_get t o.
Proof.
  intros Hne. induction o as [|[k' v'] o IH]; simpl.
  - by destruct (decide (t = k)).
  - destruct (key_before k k'); simpl.
    + by destruct (decide (t = k)).
    + destruct (decide (t = k')); [done|apply IH].
Qed.

Lemma obj_get_insert_new_eq k (v : V) o :
  obj_get k o = None → obj_get k (obj_insert_new k v o) = Some v.
Proof.
  induction o as [|[k' v'] o IH]; simpl.
  - by destruct (decide (k = k)).
  - destruct (decide (k = k')) as [->|Hk]; [done|]. intros Hn.
    destruct (key_before k k'); simpl.
    + by destruct (decide (k = k)).
    + destruct (decide (k = k')); [done|by apply IH].
Qed.

Lemma obj_set_proto (v : V) o :
  obj_get proto_key o = None → obj_set proto_key v o = o.
Proof. intros H. unfold obj_set. rewrite H. by rewrite decide_True. Qed.

Lemma obj_get_set t k (v : V) o :
  k ≠ proto_key →
  obj_get t (obj_set k v o) = if decide (t = k) then Some v else obj_get t o.
Proof.
  intros Hk'. unfold obj_set. destruct (obj_get k o) as [w|] eqn:Hk.
  - rewrite obj_get_modify. destruct (decide (t = k)) as [->|]; [|done].
    by rewrite Hk.
  - rewrite decide_False by done. destruct (decide (t = k)) as [->|Hne].
    + by apply obj_get_insert_new_eq.
    + by apply obj_get_insert_new_ne.
Qed.

Lemma obj_get_set_ne t k (v : V) o :
  t ≠ k → obj_get t (obj_set k v o) = obj_get t o.
Proof.
  intros Hne. unfold obj_set. destruct (obj_get k o) as [w|] eqn:Hk.
  - rewrite obj_get_modify. by rewrite decide_False.
  - destruct (decide (k = proto_key)); [done|]. by apply obj_get_insert_new_ne.
Qed.

Lemma obj_get_set_proto t k (v : V) o :
  obj_get proto_key o = None →
  obj_get t (obj_set k v o)
  = if bool_decide (t = k ∧ t ≠ proto_key) then Some v else obj_get t o.
Proof.
  intros Hp. destruct (decide (k = proto_key)) as [->|Hk].
  - rewrite obj_set_proto by done. rewrite bool_decide_false; [done|].
    by intros [-> ?].
  - rewrite obj_get_set by done. destruct (decide (t = k)) as [->|Hne].
    + by rewrite bool_decide_true.
    + rewrite bool_decide_false; [done|]. by intros [? _].
Qed.

Lemma obj_get_Some_keys t o : is_Some (obj_get t o) ↔ t ∈ obj_keys o.
Proof.
  unfold obj_keys. induction o as [|[k' v] o IH]; simpl.
  - split; [by intros [? ?]|by intros ?%elem_of_nil].
  - destruct (decide (t = k')) as [->|Hne].
    + split; [intros _; left|by eauto].
    + rewrite IH. split; [by right|].
      intros [?|?]%elem_of_cons; [done|done].
Qed.
End ObjFacts.

(** ** The standings invariant is kept by the fold *)

Lemma obj_get_run_updates t us sb :
  obj_get t (run_updates us sb) = updates_on t us <$> obj_get t sb.
Proof.
  unfold run_updates, updates_on. revert sb.
  induction us as [|[k f] us IH]; intros sb; simpl.
  - by destruct (obj_get t sb).
  - rewrite IH, obj_get_modify.
    destruct (decide (t = k)); [|done]. by destruct (obj_get t sb).
Qed.

Lemma zeroRecord_ok lg : record_ok (zeroRecord lg).
Proof. by unfold record_ok. Qed.

Lemma ensureTeam_ok team sb : standings_ok sb → standings_ok (ensureTeam team sb).
Proof.
  intros Hsb t rec. unfold ensureTeam.
  destruct (obj_get team sb) eqn:Hg; [apply Hsb|].
  destruct (decide (team = proto_key)) as [->|Hk].
  - rewrite obj_set_proto by done. apply Hsb.
  - rewrite obj_get_set by done. destruct (decide (t = team)).
    + intros [= <-]. apply zeroRecord_ok.
    + apply Hsb.
Qed.

Lemma applyMatchResult_ok sb home away hs as_ :
  standings_ok sb → standings_ok (applyMatchResult sb home away hs as_).
Proof.
  intros Hsb t rec. unfold applyMatchResult.
  pose proof (ensureTeam_ok away _ (ensureTeam_ok home _ Hsb)) as Hsb'.
  set (sb' := ensureTeam away (ensureTeam home sb)) in *.
  repeat case_bool_decide; rewrite !obj_get_run_updates;
    destruct (obj_get t sb') as [r0|] eqn:Hr0; simpl; try done;
    intros [= <-]; specialize (Hsb' _ _ Hr0);
    destruct Hsb' as (Hp & Hg & Hpl); unfold updates_on; simpl;
    destruct (decide (t = home)), (decide (t = away));
    unfold record_ok; simpl; lia.
Qed.

Lemma createInitialScoreboard_ok teams logos :
  standings_ok (createInitialScoreboard teams logos).
Proof.
  unfold createInitialScoreboard.
  cut (∀ sb0, standings_ok sb0 →
    standings_ok (fold_left (λ sb team,
      obj_set team (zeroRecord (logo_or_null logos team)) sb) teams sb0)).
  { intros H. apply H. by intros ? ? ?. }
  induction teams as [|x teams IH]; intros sb0 H0; simpl; [done|].
  apply IH. intros t rec. unfold obj_set.
  destruct (obj_get x sb0) eqn:Hx.
  - rewrite obj_get_modify. destruct (decide (t = x)) as [->|]; [|apply H0].
    rewrite Hx. intros [= <-]. apply zeroRecord_ok.
  - destruct (decide (x = proto_key)); [apply H0|].
    destruct (decide (t = x)) as [->|Hne].
    + rewrite obj_get_insert_new_eq by done. intros [= <-]. apply zeroRecord_ok.
    + rewrite obj_get_insert_new_ne by done. apply H0.
Qed.

Lemma recompute_ok sb rs : standings_ok (recompute sb rs).
Proof.
  unfold recompute.
  generalize (createInitialScoreboard_ok
    (set_from [] (obj_keys sb ++ flat_map (λ r, [r_home r; r_away r]) rs))
    (preserved_logos sb)).
  generalize (createInitialScoreboard
    (set_from [] (obj_keys sb ++ flat_map (λ r, [r_home r; r_away r]) rs))
    (preserved_logos sb)).
  induction rs as [|r rs' IH]; intros sb0 H0; simpl; [done|].
  apply IH. by apply applyMatchResult_ok.
Qed.

Lemma updateMatchResult_Ok fs tid p d' fs' :
  updateMatchResult fs tid p = (Ok d', fs') →
  ∃ d h a,
    loadScoreboard fs tid = Some d
    ∧ str_truthy (p_home p) = true ∧ str_truthy (p_away p) = true
    ∧ p_home p ≠ p_away p
    ∧ parseInt (p_homeScore p) = Some h ∧ parseInt (p_awayScore p) = Some a
    ∧ 0 ≤ h ∧ 0 ≤ a
    ∧ let rs := match results d with
                | Some rs => remove_first (λ r, bool_decide (r_id r = match_id p)) rs
                | None => []
                end ++ [mkMatchResult (match_id p) (p_home p) (p_away p) h a] in
      d' = mkData (recompute (scoreboard d) rs) (Some rs) (knockout d)
      ∧ fs' = saveScoreboard tid d' fs.
Proof.
  unfold updateMatchResult. intros H.
  destruct (loadScoreboard fs tid) as [d|] eqn:Hd; [|done].
  destruct (str_truthy (p_home p)) eqn:Hh; [|done].
  destruct (str_truthy (p_away p)) eqn:Ha; [|done]. simpl in H.
  case_bool_decide as Hne; [done|].
  destruct (parseInt (p_homeScore p)) as [h|] eqn:Hph; [|done].
  destruct (parseInt (p_awayScore p)) as [a|] eqn:Hpa; [|done].
  repeat case_bool_decide; simpl in H; try done.
  injection H as <- <-. exists d, h, a. repeat split; try done; lia.
Qed.

Lemma loadScoreboard_save tid d fs :
  loadScoreboard (saveScoreboard tid d fs) tid = Some d.
Proof. unfold loadScoreboard, saveScoreboard; simpl. apply lookup_insert_eq. Qed.

(** X23.  Whenever updateMatchResult succeeds with a ledger on which the
    arithmetic of the code is exact, the standings it has recomputed are the
    ones stored for the tournament, and every team that has a record in them
    satisfies points = 3*wins + draws,
    goalDifference = goalsFor - goalsAgainst and
    played = wins + draws + losses. *)
Theorem upsert_standings_invariant fs tid p d' fs' :
  updateMatchResult fs tid p = (Ok d', fs') →
  exact_ledger (default [] (results d')) →
  loadScoreboard fs' tid = Some d'
  ∧ ∀ team rec, obj_get team (scoreboard d') = Some rec →
      points rec = 3 * wins rec + draws rec
      ∧ goalDifference rec = goalsFor rec - goalsAgainst rec
      ∧ played rec = wins rec + draws rec + losses rec.
Proof.
  intros (d & h & a & Hd & _ & _ & _ & _ & _ & _ & _ & -> & ->)%updateMatchResult_Ok _.
  split; [apply loadScoreboard_save|].
  intros team rec Hrec. simpl in Hrec. by eapply recompute_ok.
Qed.

Lemma upsert_standings_invariant_witness :
  let r := updateMatchResult cup4 "cup" (submit "r0-m0" "Ajax" "Dynamo" "2" "1") in
  ∃ d', r.1 = Ok d'
  ∧ loadScoreboard r.2 "cup" = Some d'
  ∧ ∀ team rec, obj_get team (scoreboard d') = Some rec →
      points rec = 3 * wins rec + draws rec
      ∧ goalDifference rec = goalsFor rec - goalsAgainst rec
      ∧ played rec = wins rec + draws rec + losses rec.
Proof.
  eexists. split; [vm_compute; reflexivity|].
  eapply (upsert_standings_invariant cup4 "cup"
            (submit "r0-m0" "Ajax" "Dynamo" "2" "1")).
  - vm_compute. reflexivity.
  - unfold exact_ledger. apply (bool_decide_unpack _). vm_compute. exact I.
Defined.

(** ** The recomputed standings are the per-team tally of the ledger *)

Lemma obj_get_ensureTeam t team sb :
  obj_get proto_key sb = None →
  obj_get t (ensureTeam team sb)
  = match obj_get t sb with
    | Some r => Some r
    | None =>
        if bool_decide (t = team ∧ t ≠ proto_key) then Some (zeroRecord None)
        else None
    end.
Proof.
  intros Hp. unfold ensureTeam. destruct (obj_get team sb) as [r|] eqn:Hg.
  - destruct (obj_get t sb) eqn:Ht; [done|].
    rewrite bool_decide_false; [done|]. intros [-> _]. congruence.
  - rewrite obj_get_set_proto by done. case_bool_decide as Hc.
    + destruct Hc as [-> _]. by rewrite Hg.
    + by destruct (obj_get t sb).
Qed.

Lemma ensureTeam_proto team sb :
  obj_get proto_key sb = None → obj_get proto_key (ensureTeam team sb) = None.
Proof.
  intros Hp. rewrite obj_get_ensureTeam, Hp by done.
  rewrite bool_decide_false; [done|]. by intros [_ ?].
Qed.

Lemma obj_get_applyMatchResult t sb home away hs as_ :
  obj_get t (applyMatchResult sb home away hs as_)
  = tally_step t (mkMatchResult "" home away hs as_)
      <$> obj_get t (ensureTeam away (ensureTeam home sb)).
Proof.
  unfold applyMatchResult.
  set (sb' := ensureTeam away (ensureTeam home sb)).
  destruct (bool_decide (hs > as_)) eqn:E1; [|destruct (bool_decide (hs < as_)) eqn:E2].
  all: rewrite !obj_get_run_updates.
  all: destruct (obj_get t sb') as [[]|]; try done.
  all: cbn [fmap option_fmap option_map]; f_equal.
  all: unfold updates_on, tally_step, tally_side.
  all: cbn [fold_left fst snd r_home r_away r_homeScore r_awayScore].
  all: destruct (decide (t = home)), (decide (t = away)).
  all: cbv [upd_played upd_wins upd_draws upd_losses upd_goalsFor
      upd_goalsAgainst upd_points set_goalDifference
      played wins draws losses goalsFor goalsAgainst goalDifference points logo].
  all: repeat case_bool_decide; try lia.
  all: f_equal; lia.
Qed.

Lemma applyMatchResult_proto sb home away hs as_ :
  obj_get proto_key sb = None →
  obj_get proto_key (applyMatchResult sb home away hs as_) = None.
Proof.
  intros Hp. rewrite obj_get_applyMatchResult.
  by rewrite ensureTeam_proto by (by apply ensureTeam_proto).
Qed.

Lemma apply_all_proto rs sb :
  obj_get proto_key sb = None → obj_get proto_key (apply_all rs sb) = None.
Proof.
  revert sb. induction rs as [|r rs IH]; intros sb Hp; simpl; [done|].
  by apply IH, applyMatchResult_proto.
Qed.

Lemma obj_get_apply_all t rs sb r0 :
  obj_get proto_key sb = None →
  obj_get t sb = Some r0 →
  obj_get t (apply_all rs sb) = Some (tally_from t rs r0).
Proof.
  revert sb r0. induction rs as [|r rs IH]; intros sb r0 Hp H0; simpl; [done|].
  apply IH; [by apply applyMatchResult_proto|].
  rewrite obj_get_applyMatchResult.
  rewrite obj_get_ensureTeam by (by apply ensureTeam_proto).
  rewrite obj_get_ensureTeam, H0 by done. simpl. by destruct r.
Qed.

Lemma obj_get_apply_all_None t rs sb :
  obj_get proto_key sb = None →
  obj_get t sb = None →
  t ∉ flat_map (λ r, [r_home r; r_away r]) rs →
  obj_get t (apply_all rs sb) = None.
Proof.
  revert sb. induction rs as [|r rs IH]; intros sb Hp H0 Hnin; simpl in *; [done|].
  apply not_elem_of_cons in Hnin as [Hh Hnin].
  apply not_elem_of_cons in Hnin as [Ha Hnin].
  apply IH; [by apply applyMatchResult_proto| |done].
  rewrite obj_get_applyMatchResult.
  rewrite obj_get_ensureTeam by (by apply ensureTeam_proto).
  rewrite obj_get_ensureTeam, H0 by done.
  rewrite !bool_decide_false; [done| |]; by intros [? _].
Qed.

Lemma elem_of_set_from x seen l :
  x ∈ set_from seen l ↔ x ∈ l ∧ x ∉ seen.
Proof.
  revert seen. induction l as [|y l IH]; intros seen; simpl.
  - split; [by intros ?%elem_of_nil|by intros [?%elem_of_nil _]].
  - case_bool_decide as Hy.
    + rewrite IH, elem_of_cons. split.
      * intros [? ?]. split; [by right|done].
      * intros [[->|?] ?]; [done|by split].
    + rewrite elem_of_cons, IH, not_elem_of_cons, elem_of_cons.
      destruct (decide (x = y)) as [->|Hne].
      * split; [intros _; split; [by left|done]|intros _; by left].
      * split.
        -- intros [?|(? & ? & ?)]; [done|]. split; [by right|done].
        -- intros [[?|?] ?]; [done|]. right. by repeat split.
Qed.

Lemma obj_get_createInitialScoreboard t teams logos :
  obj_get t (createInitialScoreboard teams logos)
  = if bool_decide (t ∈ teams ∧ t ≠ proto_key)
    then Some (zeroRecord (logo_or_null logos t))
    else None.
Proof.
  unfold createInitialScoreboard.
  cut (∀ sb0, obj_get proto_key sb0 = None →
    obj_get t (fold_left (λ sb team,
      obj_set team (zeroRecord (logo_or_null logos team)) sb) teams sb0)
    = if bool_decide (t ∈ teams ∧ t ≠ proto_key)
      then Some (zeroRecord (logo_or_null logos t))
      else obj_get t sb0).
  { intros H. rewrite H by done. by case_bool_decide. }
  induction teams as [|x teams IH]; intros sb0 Hp; simpl.
  - done.
  - rewrite IH.
    2:{ rewrite obj_get_set_proto by done.
        rewrite bool_decide_false; [done|]. by intros [_ ?]. }
    rewrite obj_get_set_proto by done.
    destruct (decide (t = proto_key)) as [->|Hne'].
    { rewrite !bool_decide_false; [done| | |]; by intros [_ ?]. }
    destruct (decide (t = x)) as [->|Hne].
    + rewrite (bool_decide_true (x ∈ x :: teams ∧ _)) by (split; [by left|done]).
      rewrite (bool_decide_true (x = x ∧ _)) by done. by case_bool_decide.
    + rewrite (bool_decide_false (t = x ∧ _)) by (by intros [? _]).
      destruct (decide (t ∈ teams)) as [Hin|Hnin].
      * rewrite !bool_decide_true; [done|split; [by right|done]|done].
      * rewrite !bool_decide_false; [done| |by intros [? _]].
        by intros [[?|?]%elem_of_cons _].
Qed.

Lemma createInitialScoreboard_proto teams logos :
  obj_get proto_key (createInitialScoreboard teams logos) = None.
Proof.
  rewrite obj_get_createInitialScoreboard, bool_decide_false; [done|].
  by intros [_ ?].
Qed.

Lemma obj_get_recompute t sb rs :
  obj_get t (recompute sb rs)
  = if bool_decide
         (t ∈ obj_keys sb ++ flat_map (λ r, [r_home r; r_away r]) rs
          ∧ t ≠ proto_key)
    then Some (team_tally t rs (logo_or_null (preserved_logos sb) t))
    else None.
Proof.
  unfold recompute. fold (apply_all rs).
  pose proof (createInitialScoreboard_proto
    (set_from [] (obj_keys sb ++ flat_map (λ r, [r_home r; r_away r]) rs))
    (preserved_logos sb)) as Hp.
  case_bool_decide as Hin.
  - destruct Hin as [Hin Hne]. apply obj_get_apply_all; [done|].
    rewrite obj_get_createInitialScoreboard.
    rewrite bool_decide_true; [done|]. split; [|done].
    apply elem_of_set_from. split; [done|apply not_elem_of_nil].
  - destruct (decide (t = proto_key)) as [->|Hne].
    { by apply apply_all_proto. }
    apply obj_get_apply_all_None; [done| |].
    + rewrite obj_get_createInitialScoreboard, bool_decide_false; [done|].
      rewrite elem_of_set_from. intros [[? _] _]. apply Hin. by split.
    + intros ?. apply Hin. split; [|done]. apply elem_of_app. by right.
Qed.

(** ** The ledger under upsert *)

Lemma filter_all {A} (P : A → Prop) `{∀ x, Decision (P x)} (l : list A) :
  (∀ x, x ∈ l → P x) → filter P l = l.
Proof.
  induction l as [|x l IH]; intros Hall; [done|].
  rewrite filter_cons_True by (apply Hall; left).
  f_equal. apply IH. intros y Hy. apply Hall. by right.
Qed.

Lemma remove_first_filter (k : string) (rs : list MatchResult) :
  NoDup (r_id <$> rs) →
  remove_first (λ r, bool_decide (r_id r = k)) rs
  = filter (λ r, r_id r ≠ k) rs.
Proof.
  induction rs as [|r rs IH]; simpl; [done|].
  intros [Hnin Hnd]%NoDup_cons. case_bool_decide as Hk.
  - rewrite filter_cons_False by (by intros ?). subst k.
    symmetry. apply filter_all. intros x Hx Heq. apply Hnin.
    rewrite <- Heq. by apply list_elem_of_fmap_2.
  - rewrite filter_cons_True by done. f_equal. by apply IH.
Qed.

Lemma remove_first_length (k : string) (rs : list MatchResult) :
  k ∈ r_id <$> rs →
  S (length (remove_first (λ r, bool_decide (r_id r = k)) rs)) = length rs.
Proof.
  induction rs as [|r rs IH]; simpl; [by intros ?%elem_of_nil|].
  intros Hin. case_bool_decide as Hk; [done|]. simpl. f_equal. apply IH.
  apply elem_of_cons in Hin as [?|?]; [congruence|done].
Qed.

Lemma remove_first_fresh (k : string) (rs : list MatchResult) :
  k ∉ r_id <$> rs →
  remove_first (λ r, bool_decide (r_id r = k)) rs = rs.
Proof.
  induction rs as [|r rs IH]; simpl; [done|].
  intros [Hne Hnin]%not_elem_of_cons. case_bool_decide; [congruence|].
  f_equal. by apply IH.
Qed.

Lemma NoDup_ids_upsert (k : string) (new : MatchResult) (rs : list MatchResult) :
  r_id new = k →
  NoDup (r_id <$> rs) →
  NoDup (r_id <$> (remove_first (λ r, bool_decide (r_id r = k)) rs ++ [new])).
Proof.
  intros Hnew Hnd. rewrite remove_first_filter by done.
  rewrite fmap_app. apply NoDup_app. split; [|split].
  - eapply sublist_NoDup; [exact Hnd|apply fmap_sublist, sublist_filter].
  - intros x (r & -> & Hr)%list_elem_of_fmap. simpl.
    apply list_elem_of_filter in Hr as [Hr _].
    intros ?%list_elem_of_singleton. congruence.
  - simpl. apply NoDup_singleton.
Qed.

(** The ledger invariant holds when a tournament is created and is kept by
    every upsert. *)
Lemma ledger_ok_create id teams logos fs d :
  loadScoreboard (createTournament id teams logos fs) id = Some d → ledger_ok d.
Proof.
  unfold createTournament. rewrite loadScoreboard_save. intros [= <-].
  unfold ledger_ok; simpl. apply NoDup_nil_2.
Qed.

Lemma ledger_ok_upsert fs tid p d d' fs' :
  loadScoreboard fs tid = Some d → ledger_ok d →
  updateMatchResult fs tid p = (Ok d', fs') → ledger_ok d'.
Proof.
  intros Hd Hok
    (d0 & h & a & Hd0 & _ & _ & _ & _ & _ & _ & _ & -> & _)%updateMatchResult_Ok.
  rewrite Hd in Hd0. injection Hd0 as <-.
  unfold ledger_ok in *; simpl. destruct (results d) as [rs|].
  - by apply NoDup_ids_upsert.
  - simpl. apply NoDup_singleton.
Qed.

Lemma updateMatchResult_store fs tid p :
  (updateMatchResult fs tid p).2 = fs
  ∨ ∃ d', updateMatchResult fs tid p = (Ok d', saveScoreboard tid d' fs).
Proof.
  unfold updateMatchResult.
  destruct (loadScoreboard fs tid); [|by left].
  destruct (_ || _); [by left|].
  destruct (parseInt (p_homeScore p)); [|by left].
  destruct (parseInt (p_awayScore p)); [|by left].
  destruct (_ || _); [by left|]. right. by eexists.
Qed.

Lemma ledger_ok_upsert_all tid ps fs d :
  (∀ d0, loadScoreboard fs tid = Some d0 → ledger_ok d0) →
  loadScoreboard (upsert_all tid ps fs) tid = Some d → ledger_ok d.
Proof.
  unfold upsert_all. revert fs. induction ps as [|p ps IH]; intros fs Hfs; simpl.
  - apply Hfs.
  - apply IH. intros d0.
    destruct (updateMatchResult_store fs tid p) as [->|[d' Hup]]; [apply Hfs|].
    rewrite Hup. simpl. rewrite loadScoreboard_save. intros [= <-].
    pose proof Hup as (d1 & _ & _ & Hd1 & _)%updateMatchResult_Ok.
    by apply (ledger_ok_upsert fs tid p d1 d' _ Hd1 (Hfs _ Hd1) Hup).
Qed.

Lemma logo_tally_from t rs r0 : logo (tally_from t rs r0) = logo r0.
Proof.
  revert r0. induction rs as [|r rs IH]; intros r0; simpl; [done|].
  rewrite IH. unfold tally_step.
  destruct (decide (t = r_away r)), (decide (t = r_home r)); by simpl.
Qed.

Lemma logo_team_tally t rs lg : logo (team_tally t rs lg) = lg.
Proof. apply (logo_tally_from t rs (zeroRecord lg)). Qed.

Lemma tally_step_home team r x :
  team = r_home r → team ≠ r_away r →
  tally_step team r x = tally_side (r_homeScore r) (r_awayScore r) x.
Proof.
  intros -> Hne. unfold tally_step.
  destruct (decide (r_home r = r_home r)); [|done].
  by destruct (decide (r_home r = r_away r)).
Qed.

Lemma tally_step_away team r x :
  team = r_away r → team ≠ r_home r →
  tally_step team r x = tally_side (r_awayScore r) (r_homeScore r) x.
Proof.
  intros -> Hne. unfold tally_step.
  destruct (decide (r_away r = r_away r)); [|done].
  by destruct (decide (r_away r = r_home r)).
Qed.

Lemma team_tally_snoc team rs r lg :
  team_tally team (rs ++ [r]) lg = tally_step team r (team_tally team rs lg).
Proof. unfold team_tally. by rewrite fold_left_app. Qed.

(** C2. In a ledger with at most one result per id, submitting a result whose
    id is already present replaces the earlier entry: the new ledger is the
    old one without that entry followed by the submitted result, its length
    is unchanged and it still holds at most one result per id.  The stored
    standings are the tally of the new ledger alone: every record equals the
    tally of its team over the new ledger, every team of the old standings
    and of the new ledger has a record (the key __proto__ apart, which never
    gets one), and the records of the two teams of the resubmitted match are
    the tally of the other results plus the submitted scores.  Stated for
    ledgers on which the arithmetic of the code is exact. *)
Theorem upsert_replaces_same_id fs tid p d rs d' fs' :
  loadScoreboard fs tid = Some d →
  results d = Some rs →
  NoDup (r_id <$> rs) →
  match_id p ∈ r_id <$> rs →
  updateMatchResult fs tid p = (Ok d', fs') →
  exact_ledger (default [] (results d')) →
  ∃ rs' h a,
    let others := filter (λ r, r_id r ≠ match_id p) rs in
    loadScoreboard fs' tid = Some d'
    ∧ results d' = Some rs'
    ∧ parseInt (p_homeScore p) = Some h ∧ parseInt (p_awayScore p) = Some a
    ∧ rs' = others ++ [mkMatchResult (match_id p) (p_home p) (p_away p) h a]
    ∧ length rs' = length rs
    ∧ NoDup (r_id <$> rs')
    ∧ (∀ r, r ∈ rs' → r_id r = match_id p →
         r_homeScore r = h ∧ r_awayScore r = a)
    ∧ (∀ team rec, obj_get team (scoreboard d') = Some rec →
         rec = team_tally team rs' (logo rec))
    ∧ (∀ team, team ≠ proto_key →
         team ∈ obj_keys (scoreboard d)
         ∨ (∃ r, r ∈ rs' ∧ (team = r_home r ∨ team = r_away r)) →
         is_Some (obj_get team (scoreboard d')))
    ∧ (p_home p ≠ proto_key →
         ∃ rec, obj_get (p_home p) (scoreboard d') = Some rec
           ∧ rec = tally_side h a (team_tally (p_home p) others (logo rec)))
    ∧ (p_away p ≠ proto_key →
         ∃ rec, obj_get (p_away p) (scoreboard d') = Some rec
           ∧ rec = tally_side a h (team_tally (p_away p) others (logo rec))).
Proof.
  intros Hd Hrs Hnd Hin
    (d0 & h & a & Hd0 & _ & _ & Hne & Hh & Ha & _ & _ & -> & ->)%updateMatchResult_Ok _.
  rewrite Hd in Hd0. injection Hd0 as <-. rewrite Hrs.
  eexists _, h, a. cbv zeta. split; [apply loadScoreboard_save|].
  split; [reflexivity|]. split; [done|]. split; [done|].
  rewrite <- remove_first_filter by done.
  set (others := remove_first (λ r, bool_decide (r_id r = match_id p)) rs).
  set (new := mkMatchResult (match_id p) (p_home p) (p_away p) h a).
  assert (∀ team, team ≠ proto_key →
            team ∈ obj_keys (scoreboard d)
            ∨ (∃ r, r ∈ others ++ [new] ∧ (team = r_home r ∨ team = r_away r)) →
            obj_get team (recompute (scoreboard d) (others ++ [new]))
            = Some (team_tally team (others ++ [new])
                      (logo_or_null (preserved_logos (scoreboard d)) team)))
    as Hrec.
  { intros team Hp Hor. rewrite obj_get_recompute, bool_decide_true; [done|].
    split; [|done]. apply elem_of_app. destruct Hor as [?|(r & Hr & Ht)]; [by left|].
    right. apply list_elem_of_In, in_flat_map. exists r.
    split; [by apply list_elem_of_In|]. simpl. destruct Ht as [->| ->]; auto. }
  split; [done|]. split; [|split; [|split; [|split; [|split; [|split]]]]].
  - rewrite length_app; simpl. unfold others.
    rewrite <- (remove_first_length (match_id p) rs) by done. lia.
  - by apply NoDup_ids_upsert.
  - intros r [Hr|Hr%list_elem_of_singleton]%elem_of_app Hid.
    + unfold others in Hr. rewrite remove_first_filter in Hr by done.
      by apply list_elem_of_filter in Hr as [? _].
    + by subst r.
  - intros team rec. simpl. rewrite obj_get_recompute.
    case_bool_decide; [|done]. intros [= <-]. by rewrite logo_team_tally.
  - intros team Hp Hor. simpl. rewrite Hrec by done. by eexists.
  - intros Hp. simpl. eexists. split.
    + apply Hrec; [done|]. right. exists new. split; [|by left].
      apply elem_of_app. right. by left.
    + rewrite logo_team_tally, team_tally_snoc.
      by rewrite (tally_step_home _ new).
  - intros Hp. simpl. eexists. split.
    + apply Hrec; [done|]. right. exists new. split; [|by right].
      apply elem_of_app. right. by left.
    + rewrite logo_team_tally, team_tally_snoc.
      rewrite (tally_step_away _ new); [done|done|]. simpl. congruence.
Qed.

Lemma upsert_replaces_same_id_witness :
  let fs := upsert_all "cup"
              [submit "r0-m0" "Ajax" "Dynamo" "2" "1";
               submit "r0-m1" "Bayern" "Celtic" "1" "1"] cup4 in
  let p := submit "r0-m0" "Ajax" "Dynamo" "0" "3" in
  let out := updateMatchResult fs "cup" p in
  ∃ d rs d',
    loadScoreboard fs "cup" = Some d ∧ results d = Some rs
    ∧ out.1 = Ok d'
    ∧ obj_get "Ajax" (scoreboard d) = Some (mkTeamRecord 1 1 0 0 2 1 1 3 None)
    ∧ obj_get "Ajax" (scoreboard d') = Some (mkTeamRecord 1 0 0 1 0 3 (-3) 0 None)
    ∧ ∃ rs' h a,
        loadScoreboard out.2 "cup" = Some d'
        ∧ results d' = Some rs'
        ∧ parseInt (p_homeScore p) = Some h ∧ parseInt (p_awayScore p) = Some a
        ∧ rs' = filter (λ r, r_id r ≠ match_id p) rs
                  ++ [mkMatchResult (match_id p) (p_home p) (p_away p) h a]
        ∧ length rs' = length rs
        ∧ NoDup (r_id <$> rs').
Proof.
  intros fs p out. eexists _, _, _.
  split; [vm_compute; reflexivity|].
  split; [vm_compute; reflexivity|].
  split; [vm_compute; reflexivity|].
  split; [vm_compute; reflexivity|].
  split; [vm_compute; reflexivity|].
  edestruct (upsert_replaces_same_id fs "cup" p)
    as (rs' & h & a & H1 & H2 & H3 & H4 & H5 & H6 & H7 & _).
  - vm_compute; reflexivity.
  - vm_compute; reflexivity.
  - apply (bool_decide_unpack _). vm_compute. exact I.
  - apply (bool_decide_unpack _). vm_compute. exact I.
  - vm_compute; reflexivity.
  - unfold exact_ledger. apply (bool_decide_unpack _). vm_compute. exact I.
  - exists rs', h, a. repeat split; assumption.
Defined.

(** ** The schedule generator *)

Lemma length_pad teams :
  length (pad teams)
  = if bool_decide (length teams `mod` 2 = 1)%nat
    then S (length teams) else length teams.
Proof.
  unfold pad. rewrite length_fmap. case_bool_decide; [|by rewrite length_fmap].
  rewrite length_app, length_fmap. simpl. lia.
Qed.

Lemma length_pad_even teams : (length (pad teams) `mod` 2 = 0)%nat.
Proof.
  rewrite length_pad. pose proof (Nat.mod_upper_bound (length teams) 2).
  case_bool_decide as H1.
  - replace (S (length teams)) with (length teams + 1)%nat by lia.
    rewrite Nat.Div0.add_mod, H1. done.
  - lia.
Qed.

Lemma rotate_snoc (l : list (option string)) x :
  rotate (l ++ [x]) = take 1 l ++ x :: drop 1 l.
Proof. unfold rotate. by rewrite last_snoc, removelast_last. Qed.

Lemma rotate_perm (p : list (option string)) : p ≠ [] → rotate p ≡ₚ p.
Proof.
  intros Hne. destruct (last p) as [x|] eqn:Hl.
  - apply last_Some in Hl as [l ->]. rewrite rotate_snoc.
    rewrite <- Permutation_middle, take_drop. apply Permutation_cons_append.
  - by apply last_None in Hl.
Qed.

Lemma length_rounds_from k n r p : length (rounds_from k n r p) = k.
Proof. revert r p. induction k as [|k IH]; intros r p; simpl; [done|]. by rewrite IH. Qed.

Lemma round_matches_ids n r p :
  f_id <$> round_matches n r p = fixture_id r <$> live_slots n p.
Proof.
  unfold round_matches, live_slots. induction (seq 0 ((n + 1) / 2)) as [|i l IH];
    simpl; [done|].
  rewrite fmap_app, IH, filter_cons.
  destruct (truthy (js_nth p i) && truthy (js_nth p (n - 1 - i))) eqn:E; simpl.
  - done.
  - done.
Qed.

Lemma length_round_matches n r p :
  length (round_matches n r p) = length (live_slots n p).
Proof.
  rewrite <- (length_fmap f_id), round_matches_ids. by rewrite length_fmap.
Qed.

Lemma round_matches_truthy n r p f :
  f ∈ round_matches n r p →
  truthy (f_home f) = true ∧ truthy (f_away f) = true
  ∧ f_home f ∈ p ∧ f_away f ∈ p.
Proof.
  unfold round_matches. intros (i & _ & Hf)%list_elem_of_In%in_flat_map.
  destruct (truthy (js_nth p i)) eqn:E1; [|destruct Hf].
  destruct (truthy (js_nth p (n - 1 - i))) eqn:E2; [|destruct Hf].
  destruct Hf as [<-|[]]. simpl. repeat split; try done.
  - unfold js_nth in *. destruct (p !! i) as [x|] eqn:Hx; [|done].
    simpl. by eapply list_elem_of_lookup_2.
  - unfold js_nth in *. destruct (p !! (n - 1 - i)%nat) as [x|] eqn:Hx; [|done].
    simpl. by eapply list_elem_of_lookup_2.
Qed.

(** Slots when every participant is truthy, and when exactly the one at
    index [j] is falsy. *)
Lemma live_slots_all k (p : list (option string)) :
  length p = (2 * k)%nat →
  (∀ i, (i < 2 * k)%nat → truthy (js_nth p i) = true) →
  live_slots (2 * k) p = seq 0 k.
Proof.
  intros Hlen Hall. unfold live_slots.
  replace ((2 * k + 1) / 2)%nat with k
    by (apply (Nat.div_unique _ 2 k 1); lia).
  apply filter_all. intros i [_ Hi]%elem_of_seq.
  rewrite !Hall by lia. done.
Qed.

Lemma length_filter_ne (i0 s k : nat) :
  (s ≤ i0 < s + k)%nat →
  S (length (filter (λ i, i ≠ i0) (seq s k))) = k.
Proof.
  revert s. induction k as [|k IH]; intros s Hi; simpl; [lia|].
  rewrite filter_cons. destruct (decide (s ≠ i0)) as [Hne|Heq]; simpl.
  - f_equal. apply IH. lia.
  - assert (s = i0) as -> by (destruct (decide (s = i0)); [done|contradiction]).
    f_equal. rewrite filter_all; [by rewrite length_seq|].
    intros x [? ?]%elem_of_seq. lia.
Qed.

Lemma filter_ext_in {A} (P Q : A → Prop) `{∀ x, Decision (P x)}
    `{∀ x, Decision (Q x)} (l : list A) :
  (∀ x, x ∈ l → P x ↔ Q x) → filter P l = filter Q l.
Proof.
  induction l as [|x l IH]; intros Hpq; [done|].
  rewrite !filter_cons.
  assert (filter P l = filter Q l) as -> by (apply IH; intros; apply Hpq; by right).
  destruct (decide (P x)) as [HP|HP], (decide (Q x)) as [HQ|HQ]; try done.
  - exfalso. apply HQ, Hpq; [left|done].
  - exfalso. apply HP, Hpq; [left|done].
Qed.

Lemma live_slots_one k j (p : list (option string)) :
  length p = (2 * k)%nat → (j < 2 * k)%nat →
  (∀ i, (i < 2 * k)%nat → truthy (js_nth p i) = bool_decide (i ≠ j)) →
  S (length (live_slots (2 * k) p)) = k.
Proof.
  intros Hlen Hj Hone. unfold live_slots.
  replace ((2 * k + 1) / 2)%nat with k
    by (apply (Nat.div_unique _ 2 k 1); lia).
  set (i0 := if decide (j < k)%nat then j else (2 * k - 1 - j)%nat).
  rewrite (filter_ext_in _ (λ i, i ≠ i0) (seq 0 k)).
  - apply length_filter_ne. unfold i0. case_decide; lia.
  - intros i [_ Hi]%elem_of_seq. unfold i0. rewrite !Hone by lia.
    repeat case_bool_decide; case_decide; simpl; split; (done || lia).
Qed.

Lemma js_nth_lookup (p : list (option string)) i x :
  p !! i = Some x → js_nth p i = x.
Proof. unfold js_nth. by intros ->. Qed.

Lemma perm_all_truthy (p : list (option string)) teams :
  p ≡ₚ Some <$> teams → Forall (λ t, t ≠ ""%string) teams →
  ∀ i, (i < length p)%nat → truthy (js_nth p i) = true.
Proof.
  intros Hp Hne i Hi.
  destruct (lookup_lt_is_Some_2 p i Hi) as [x Hx].
  rewrite (js_nth_lookup _ _ _ Hx).
  apply list_elem_of_lookup_2 in Hx. rewrite Hp in Hx.
  apply list_elem_of_fmap in Hx as (t & -> & Ht).
  rewrite Forall_forall in Hne. simpl.
  rewrite bool_decide_false; [done|]. by apply Hne.
Qed.

Lemma perm_one_null (p : list (option string)) teams :
  p ≡ₚ (Some <$> teams) ++ [None] → Forall (λ t, t ≠ ""%string) teams →
  ∃ j, (j < length p)%nat
    ∧ ∀ i, (i < length p)%nat → truthy (js_nth p i) = bool_decide (i ≠ j).
Proof.
  intros Hp Hne.
  assert (None ∈ p) as Hin.
  { rewrite Hp. apply elem_of_app. right. by left. }
  apply list_elem_of_lookup in Hin as [j Hj].
  exists j. split; [by eapply lookup_lt_Some|].
  pose proof (take_drop_middle p j None Hj) as Hsplit.
  assert (take j p ++ drop (S j) p ≡ₚ Some <$> teams) as Hrest.
  { apply (Permutation_cons_inv (a := None)).
    rewrite Permutation_middle, Hsplit, Hp. symmetry. apply Permutation_cons_append. }
  assert (Forall (λ x, truthy x = true) (take j p ++ drop (S j) p)) as Hall.
  { rewrite Hrest. apply Forall_fmap. eapply Forall_impl; [exact Hne|].
    intros t Ht. simpl. by rewrite bool_decide_false. }
  apply Forall_app in Hall as [Htake Hdrop].
  intros i Hi. case_bool_decide as Hij.
  - destruct (lookup_lt_is_Some_2 p i Hi) as [x Hx].
    rewrite (js_nth_lookup _ _ _ Hx).
    destruct (decide (i < j)%nat) as [Hlt|Hge].
    + rewrite Forall_lookup in Htake. apply (Htake i).
      by rewrite lookup_take_lt.
    + rewrite Forall_lookup in Hdrop. apply (Hdrop (i - S j)%nat).
      rewrite lookup_drop. by replace (S j + (i - S j))%nat with i by lia.
  - assert (i = j) as -> by (destruct (decide (i = j)); [done|contradiction]).
    by rewrite (js_nth_lookup _ _ _ Hj).
Qed.

Lemma length_concat_rounds_from (Inv : list (option string) → Prop) k n r p c :
  (∀ q, Inv q → Inv (rotate q)) →
  (∀ r' q, Inv q → length (round_matches n r' q) = c) →
  Inv p →
  length (concat (rounds_from k n r p)) = (k * c)%nat.
Proof.
  intros Hrot Hc. revert r p. induction k as [|k IH]; intros r p Hp; simpl; [done|].
  rewrite length_app, Hc, IH by auto. done.
Qed.

Lemma rotate_inv teams q :
  teams ≠ [] → q ≡ₚ pad teams → rotate q ≡ₚ pad teams.
Proof.
  intros Hne Hq. rewrite rotate_perm; [done|].
  intros ->. apply Permutation_nil_l in Hq. unfold pad in Hq.
  destruct teams; [done|]. case_bool_decide; simpl in Hq; done.
Qed.

Lemma generateSchedule_members teams round f :
  teams ≠ [] →
  round ∈ generateSchedule teams → f ∈ round →
  ∃ h a, f_home f = Some h ∧ f_away f = Some a ∧ h ∈ teams ∧ a ∈ teams.
Proof.
  intros Hne. unfold generateSchedule.
  generalize (length (pad teams) - 1)%nat as k.
  generalize (length (pad teams)) as n. generalize 0%nat as r.
  assert (pad teams ≡ₚ pad teams) as Hp by done. revert Hp.
  generalize (pad teams) at 1 3 as p.
  intros p Hp r n k. revert r p Hp.
  induction k as [|k IH]; intros r p Hp; simpl; [by intros ?%elem_of_nil|].
  intros [->|Hin]%elem_of_cons Hf.
  - apply round_matches_truthy in Hf as (Hh & Ha & Hhp & Hap).
    rewrite Hp in Hhp, Hap.
    destruct (f_home f) as [h|]; [|done]. destruct (f_away f) as [a|]; [|done].
    exists h, a. repeat split; try done.
    + unfold pad in Hhp. case_bool_decide.
      * apply elem_of_app in Hhp as [(t & [= ->] & ?)%list_elem_of_fmap|Hx]; [done|].
        by apply list_elem_of_singleton in Hx.
      * by apply list_elem_of_fmap in Hhp as (t & [= ->] & ?).
    + unfold pad in Hap. case_bool_decide.
      * apply elem_of_app in Hap as [(t & [= ->] & ?)%list_elem_of_fmap|Hx]; [done|].
        by apply list_elem_of_singleton in Hx.
      * by apply list_elem_of_fmap in Hap as (t & [= ->] & ?).
  - eapply IH; [|exact Hin|exact Hf]. by apply rotate_inv.
Qed.

(** C3. For a list of at least two non-empty team names, generateSchedule
    produces n - 1 rounds, where n is the number of teams rounded up to an
    even number (the bye included), and m * (m - 1) / 2 fixtures in total for
    m teams, whether m is even or odd; every fixture pairs two teams of the
    list, never the bye placeholder. *)
Theorem generateSchedule_counts teams :
  (2 ≤ length teams)%nat →
  Forall (λ t, t ≠ ""%string) teams →
  let m := length teams in
  let n := if bool_decide (m `mod` 2 = 1)%nat then S m else m in
  length (generateSchedule teams) = (n - 1)%nat
  ∧ length (concat (generateSchedule teams)) = (m * (m - 1) / 2)%nat
  ∧ ∀ round f, round ∈ generateSchedule teams → f ∈ round →
      ∃ h a, f_home f = Some h ∧ f_away f = Some a ∧ h ∈ teams ∧ a ∈ teams.
Proof.
  intros Hlen Hne m n.
  assert (teams ≠ []) as Hnil by (intros ->; simpl in Hlen; lia).
  split; [|split].
  - unfold generateSchedule. rewrite length_rounds_from, length_pad. done.
  - unfold generateSchedule.
    pose proof (length_pad teams) as Hpad.
    pose proof (length_pad_even teams) as Heven.
    fold m in Hpad. fold n in Hpad.
    destruct (Nat.Even_or_Odd (length (pad teams))) as [[k Hk]|[k Hk]];
      [|rewrite Hk in Heven;
        replace (2 * k + 1)%nat with (1 + k * 2)%nat in Heven by lia;
        rewrite Nat.Div0.mod_add in Heven; done].
    rewrite Hk.
    subst n. case_bool_decide as Hodd.
    + (* odd number of teams: one slot of every round holds the bye *)
      rewrite (length_concat_rounds_from
                 (λ q, q ≡ₚ pad teams) _ _ _ _ (k - 1)%nat).
      * assert (m = 2 * k - 1)%nat as -> by lia.
        replace ((2 * k - 1) * (2 * k - 1 - 1))%nat
          with (((2 * k - 1) * (k - 1)) * 2)%nat by lia.
        by rewrite Nat.div_mul.
      * intros q. by apply rotate_inv.
      * intros r' q Hq. rewrite length_round_matches.
        assert (length q = (2 * k)%nat) as Hql
          by (by rewrite (Permutation_length Hq)).
        destruct (perm_one_null q teams) as (j & Hj & Hone); [|done|].
        { rewrite Hq. unfold pad. rewrite length_fmap. by rewrite bool_decide_true. }
        rewrite Hql in Hj, Hone.
        pose proof (live_slots_one k j q Hql Hj Hone). lia.
      * done.
    + (* even number of teams: every slot is a fixture *)
      rewrite (length_concat_rounds_from (λ q, q ≡ₚ pad teams) _ _ _ _ k).
      * assert (m = 2 * k)%nat as -> by lia.
        replace (2 * k * (2 * k - 1))%nat with (((2 * k - 1) * k) * 2)%nat by lia.
        by rewrite Nat.div_mul.
      * intros q. by apply rotate_inv.
      * intros r' q Hq. rewrite length_round_matches.
        assert (length q = (2 * k)%nat) as Hql
          by (by rewrite (Permutation_length Hq)).
        rewrite live_slots_all; [by rewrite length_seq|done|].
        intros i Hi. apply (perm_all_truthy q teams); [|done|lia].
        rewrite Hq. unfold pad. rewrite length_fmap. by rewrite bool_decide_false.
      * done.
  - intros round f. by apply generateSchedule_members.
Qed.

Lemma generateSchedule_counts_witness :
  let teams := ["Ajax"; "Bayern"; "Celtic"]%string in
  length (generateSchedule teams) = 3%nat
  ∧ length (concat (generateSchedule teams)) = 3%nat
  ∧ ∀ round f, round ∈ generateSchedule teams → f ∈ round →
      ∃ h a, f_home f = Some h ∧ f_away f = Some a ∧ h ∈ teams ∧ a ∈ teams.
Proof.
  apply (generateSchedule_counts ["Ajax"; "Bayern"; "Celtic"]%string).
  - simpl. lia.
  - repeat constructor; done.
Defined.

(** ** Fixture ids *)

Lemma pretty_N_go_no_dash x s : no_dash s → no_dash (pretty_N_go x s).
Proof.
  revert s. induction (N.lt_wf_0 x) as [x _ IH]; intros s Hs.
  assert (x = 0 ∨ 0 < x)%N as [->|?] by lia.
  - by rewrite pretty_N_go_0.
  - rewrite pretty_N_go_step by done. apply IH.
    { by apply N.div_lt. }
    split; [|done]. unfold pretty_N_char. by repeat case_match.
Qed.

Lemma pretty_nat_no_dash (n : nat) : no_dash (pretty n).
Proof.
  unfold pretty, pretty_nat, pretty, pretty_N. case_decide.
  - by split.
  - by apply pretty_N_go_no_dash.
Qed.

Lemma app_dash_inj s1 s2 t1 t2 :
  no_dash s1 → no_dash s2 →
  (s1 +:+ String "-" t1 = s2 +:+ String "-" t2)%string →
  s1 = s2 ∧ t1 = t2.
Proof.
  revert s2. induction s1 as [|c s1 IH]; intros [|c' s2] H1 H2 Heq; simpl in *.
  - by injection Heq as ->.
  - injection Heq as <- _. by destruct H2.
  - injection Heq as -> _. by destruct H1.
  - injection Heq as -> Heq. destruct H1 as [_ H1], H2 as [_ H2].
    destruct (IH s2 H1 H2 Heq) as [-> ->]. done.
Qed.

Lemma fixture_id_inj r i r' i' :
  fixture_id r i = fixture_id r' i' → r = r' ∧ i = i'.
Proof.
  unfold fixture_id. simpl. intros [= Heq].
  apply app_dash_inj in Heq as [Hr Hi]; try apply pretty_nat_no_dash.
  injection Hi as Hi.
  split; by eapply (inj pretty).
Qed.

Lemma live_slots_sublist n p : live_slots n p `sublist_of` seq 0 ((n + 1) / 2).
Proof. apply sublist_filter. Qed.

Lemma NoDup_round_ids n r p : NoDup (f_id <$> round_matches n r p).
Proof.
  rewrite round_matches_ids. apply NoDup_fmap_2.
  - intros i i' H. by apply fixture_id_inj in H as [_ ?].
  - eapply sublist_NoDup; [apply NoDup_seq|apply live_slots_sublist].
Qed.

Lemma ids_rounds_from_ge k n r p id :
  id ∈ f_id <$> concat (rounds_from k n r p) →
  ∃ r' i, (r ≤ r')%nat ∧ id = fixture_id r' i.
Proof.
  revert r p. induction k as [|k IH]; intros r p; simpl; [by intros ?%elem_of_nil|].
  rewrite fmap_app, elem_of_app. intros [Hin|Hin].
  - rewrite round_matches_ids in Hin.
    apply list_elem_of_fmap in Hin as (i & -> & _). exists r, i. split; [lia|done].
  - apply IH in Hin as (r' & i & Hr & ->). exists r', i. split; [lia|done].
Qed.

Lemma NoDup_rounds_from_ids k n r p :
  NoDup (f_id <$> concat (rounds_from k n r p)).
Proof.
  revert r p. induction k as [|k IH]; intros r p; simpl; [apply NoDup_nil_2|].
  rewrite fmap_app. apply NoDup_app. split; [apply NoDup_round_ids|]. split; [|apply IH].
  intros id Hin Hlater. rewrite round_matches_ids in Hin.
  apply list_elem_of_fmap in Hin as (i & -> & _).
  apply ids_rounds_from_ge in Hlater as (r' & i' & Hr & Heq).
  apply fixture_id_inj in Heq as [-> _]. lia.
Qed.

Lemma rounds_from_lookup k n r p i round :
  rounds_from k n r p !! i = Some round →
  round = round_matches n (r + i) (Nat.iter i rotate p).
Proof.
  revert r p i. induction k as [|k IH]; intros r p i; simpl; [done|].
  destruct i as [|i]; simpl.
  - intros [= <-]. by rewrite Nat.add_0_r.
  - intros H. apply IH in H as ->.
    replace (S r + i)%nat with (r + S i)%nat by lia.
    f_equal. clear. revert p. induction i as [|i IHi]; intros p; simpl; [done|].
    by rewrite IHi.
Qed.

Lemma iter_rotate_perm teams i :
  teams ≠ [] → Nat.iter i rotate (pad teams) ≡ₚ pad teams.
Proof.
  intros Hne. induction i as [|i IH]; simpl; [done|]. by apply rotate_inv.
Qed.

Lemma truthy_circle (P : list (option string)) teams i :
  P ≡ₚ pad teams → Forall (λ t, t ≠ ""%string) teams →
  truthy (js_nth P i) = bool_decide (js_nth P i ≠ None).
Proof.
  intros HP Hne. unfold js_nth.
  destruct (P !! i) as [[t|]|] eqn:Hi; simpl; try done.
  rewrite bool_decide_false; [done|].
  apply list_elem_of_lookup_2 in Hi. rewrite HP in Hi. unfold pad in Hi.
  assert (Some t ∈ Some <$> teams) as Hin.
  { case_bool_decide; [|done].
    apply elem_of_app in Hi as [?|Hi]; [done|].
    by apply list_elem_of_singleton in Hi. }
  apply list_elem_of_fmap in Hin as (t' & [= <-] & Ht').
  rewrite Forall_forall in Hne. by apply Hne.
Qed.

Lemma flat_map_filter {A B} (g : A → list B) (h : A → B) (Q : A → Prop)
    `{∀ x, Decision (Q x)} (l : list A) :
  (∀ x, x ∈ l → g x = if decide (Q x) then [h x] else []) →
  flat_map g l = h <$> filter Q l.
Proof.
  induction l as [|x l IH]; intros Hg; [done|].
  simpl. rewrite filter_cons, (Hg x) by left.
  rewrite IH by (intros y Hy; apply Hg; by right).
  by destruct (decide (Q x)).
Qed.

Lemma filter_ne_seq (j s k : nat) :
  (s ≤ j < s + k)%nat →
  filter (λ i, i ≠ j) (seq s k) = seq s (j - s) ++ seq (S j) (s + k - S j).
Proof.
  revert s. induction k as [|k IH]; intros s Hj; [lia|].
  simpl. rewrite filter_cons. destruct (decide (s ≠ j)) as [Hne|Heq].
  - rewrite IH by lia.
    replace (j - s)%nat with (S (j - S s)) by lia. simpl.
    do 3 f_equal. lia.
  - assert (s = j) as -> by (destruct (decide (s = j)); [done|contradiction]).
    rewrite Nat.sub_diag. simpl.
    replace (j + S k - S j)%nat with k by lia.
    apply filter_all. intros x [? ?]%elem_of_seq. lia.
Qed.

Lemma round_matches_slots n r (P : list (option string)) teams :
  (n `mod` 2 = 0)%nat →
  P ≡ₚ pad teams → Forall (λ t, t ≠ ""%string) teams →
  round_matches n r P
  = (λ i, mkFixture (fixture_id r i) (js_nth P i) (js_nth P (n - 1 - i)))
      <$> bye_free_slots P n.
Proof.
  intros Hn HP Hne. unfold round_matches, bye_free_slots.
  replace ((n + 1) / 2)%nat with (n / 2)%nat.
  2:{ pose proof (Nat.div_mod_eq n 2).
      apply (Nat.div_unique (n + 1) 2 (n / 2) 1); lia. }
  apply flat_map_filter. intros i _.
  rewrite !(truthy_circle P teams) by done.
  destruct (decide (js_nth P i ≠ None)) as [H1|H1],
    (decide (js_nth P (n - 1 - i) ≠ None)) as [H2|H2].
  - rewrite !bool_decide_true by done. by rewrite decide_True.
  - rewrite (bool_decide_false _ H2), andb_false_r.
    rewrite decide_False; [done|]. by intros [_ ?].
  - rewrite (bool_decide_false _ H1).
    rewrite decide_False; [done|]. by intros [? _].
  - rewrite (bool_decide_false _ H1).
    rewrite decide_False; [done|]. by intros [? _].
Qed.

Lemma rotate_cons_snoc (x y : option string) l :
  rotate (x :: l ++ [y]) = x :: y :: l.
Proof.
  change (x :: l ++ [y]) with ((x :: l) ++ [y]). rewrite rotate_snoc.
  done.
Qed.

Lemma iter_rotate_lookup r (p : list (option string)) :
  (2 ≤ length p)%nat → (r ≤ length p - 1)%nat →
  length (Nat.iter r rotate p) = length p
  ∧ ∀ j, (j < length p)%nat →
      Nat.iter r rotate p !! j = p !! orig_index (length p - 1) r j.
Proof.
  intros Hlen. induction r as [|r IH]; intros Hr.
  - split; [done|]. intros j Hj. simpl. f_equal. unfold orig_index.
    repeat case_decide; lia.
  - destruct IH as [HlenP HP]; [lia|]. simpl.
    set (P := Nat.iter r rotate p) in *. clearbody P.
    destruct P as [|x P]; [simpl in HlenP; lia|].
    induction P as [|y l _] using rev_ind; [simpl in HlenP; lia|].
    rewrite rotate_cons_snoc.
    simpl in HlenP. rewrite length_app in HlenP. simpl in HlenP.
    split; [simpl; lia|].
    intros j Hj. destruct j as [|[|j]].
    + replace (orig_index (length p - 1) (S r) 0)
        with (orig_index (length p - 1) r 0) by done.
      rewrite <- HP by lia. done.
    + replace (orig_index (length p - 1) (S r) 1)
        with (orig_index (length p - 1) r (length p - 1))
        by (unfold orig_index; repeat case_decide; lia).
      rewrite <- HP by lia. replace (length p - 1)%nat with (S (length l)) by lia.
      simpl. rewrite lookup_app_r by lia. by rewrite Nat.sub_diag.
    + replace (orig_index (length p - 1) (S r) (S (S j)))
        with (orig_index (length p - 1) r (S j))
        by (unfold orig_index; repeat case_decide; lia).
      rewrite <- HP by lia. simpl. rewrite lookup_app_l by lia. done.
Qed.

(** C4, as the code has it.  The id of a fixture is r{round}-m{slot}: round
    is the 0-based position of its round in the schedule, and slot is the
    loop index i of its pairing, which sets participants[i] (home) against
    participants[n - 1 - i] (away) in the circle of that round (n the
    participant count with the bye).  A round lists its pairings in
    increasing i below n/2 and leaves out those that contain the bye, without
    renumbering the others.  For an even number of non-empty team names no
    pairing is left out, so every round has n/2 fixtures with the match
    indices 0, 1, ..., n/2 - 1; for an odd number every round leaves out
    exactly one loop index, the one whose pairing contains the bye, and has
    the others.  All ids of a schedule are distinct. *)
Theorem fixture_ids_by_slot teams :
  let n := length (pad teams) in
  (Forall (λ t, t ≠ ""%string) teams →
   ∀ r round, generateSchedule teams !! r = Some round →
     let P := circle teams r in
     (∀ j, (j < n)%nat → P !! j = pad teams !! orig_index (n - 1) r j)
     ∧ round
       = (λ i, mkFixture (fixture_id r i) (js_nth P i) (js_nth P (n - 1 - i)))
           <$> bye_free_slots P n
     ∧ ((length teams `mod` 2 = 0)%nat → bye_free_slots P n = seq 0 (n / 2))
     ∧ ((length teams `mod` 2 = 1)%nat →
        ∃ j, (j < n / 2)%nat
          ∧ (js_nth P j = None ∨ js_nth P (n - 1 - j) = None)
          ∧ bye_free_slots P n = seq 0 j ++ seq (S j) (n / 2 - S j)))
  ∧ NoDup (f_id <$> concat (generateSchedule teams)).
Proof.
  intros n. split; [|apply NoDup_rounds_from_ids].
  intros Hne r round Hr P.
  pose proof (lookup_lt_Some _ _ _ Hr) as Hrn.
  unfold generateSchedule in Hrn. rewrite length_rounds_from in Hrn. fold n in Hrn.
  apply rounds_from_lookup in Hr. rewrite Nat.add_0_l in Hr. fold n in Hr.
  change (Nat.iter r rotate (pad teams)) with P in Hr.
  assert (teams ≠ []) as Hnil.
  { intros ->. unfold n in Hrn. simpl in Hrn. lia. }
  pose proof (iter_rotate_perm teams r Hnil) as Hperm.
  change (Nat.iter r rotate (pad teams)) with P in Hperm.
  pose proof (length_pad_even teams) as Heven. fold n in Heven.
  pose proof (Nat.div_mod_eq n 2) as Hdiv. rewrite Heven in Hdiv.
  assert (length P = n) as HlenP by (by rewrite Hperm).
  split; [|split; [|split]].
  - intros j Hj. unfold P, circle.
    destruct (iter_rotate_lookup r (pad teams)) as [_ Hl]; [fold n; lia|fold n; lia|].
    fold n in Hl. by apply Hl.
  - subst round. by apply (round_matches_slots n r P teams).
  - intros Hev. unfold bye_free_slots. apply filter_all.
    intros i [_ Hi]%elem_of_seq.
    assert (pad teams = Some <$> teams) as Hpad.
    { unfold pad. rewrite length_fmap. rewrite bool_decide_false; [done|lia]. }
    assert (∀ j, (j < n)%nat → js_nth P j ≠ None) as Hsome.
    { assert (P ≡ₚ Some <$> teams) as HP' by (by rewrite Hperm, Hpad).
      intros j Hj.
      pose proof (perm_all_truthy P teams HP' Hne j ltac:(lia)) as Ht.
      intros Hnone. by rewrite Hnone in Ht. }
    split; apply Hsome; lia.
  - intros Hodd.
    assert (pad teams = (Some <$> teams) ++ [None]) as Hpad.
    { unfold pad. rewrite length_fmap. by rewrite bool_decide_true. }
    destruct (perm_one_null P teams) as (j0 & Hj0 & Hone); [by rewrite Hperm, Hpad|done|].
    rewrite HlenP in Hj0, Hone.
    assert (∀ i, (i < n)%nat → js_nth P i ≠ None ↔ i ≠ j0) as Hiff.
    { intros i Hi. specialize (Hone i Hi).
      rewrite (truthy_circle P teams) in Hone by done.
      split; intros H.
      - rewrite bool_decide_true in Hone by done.
        symmetry in Hone. by apply bool_decide_eq_true in Hone.
      - rewrite (bool_decide_true (i ≠ j0)) in Hone by done.
        by apply bool_decide_eq_true in Hone. }
    set (j := if decide (j0 < n / 2)%nat then j0 else (n - 1 - j0)%nat).
    exists j. split; [unfold j; case_decide; lia|]. split.
    + assert (js_nth P j0 = None) as Hnone.
      { destruct (decide (js_nth P j0 = None)) as [?|Hn]; [done|].
        by apply Hiff in Hn. }
      unfold j. case_decide; [by left|right].
      by replace (n - 1 - (n - 1 - j0))%nat with j0 by lia.
    + unfold bye_free_slots.
      rewrite (filter_ext_in _ (λ i, i ≠ j) (seq 0 (n / 2))).
      * rewrite filter_ne_seq by (unfold j; case_decide; lia).
        by rewrite Nat.sub_0_r, Nat.add_0_l.
      * intros i [_ Hi]%elem_of_seq. rewrite !Hiff by lia.
        unfold j. case_decide; lia.
Qed.

Lemma fixture_ids_by_slot_witness :
  let teams := ["Ajax"; "Bayern"; "Celtic"]%string in
  ∃ round,
    generateSchedule teams !! 0%nat = Some round
    ∧ circle teams 0 = [Some "Ajax"; Some "Bayern"; Some "Celtic"; None]%string
    ∧ bye_free_slots (circle teams 0) 4 = [1%nat]
    ∧ round
      = (λ i, mkFixture (fixture_id 0 i) (js_nth (circle teams 0) i)
                (js_nth (circle teams 0) (4 - 1 - i)))
          <$> bye_free_slots (circle teams 0) 4.
Proof.
  intros teams. eexists. split; [vm_compute; reflexivity|].
  split; [reflexivity|]. split; [reflexivity|].
  apply (proj1 (fixture_ids_by_slot teams)
           ltac:(apply (bool_decide_unpack _); vm_compute; exact I) 0%nat).
  vm_compute; reflexivity.
Defined.

(** C4 as stated fails for three teams: the first round holds the single
    fixture r0-m1, so its match indices do not start at 0. *)
Lemma fixture_ids_gap_counterexample :
  let teams := ["Ajax"; "Bayern"; "Celtic"]%string in
  (2 ≤ length teams)%nat
  ∧ Forall (λ t, t ≠ ""%string) teams
  ∧ f_id <$> concat (generateSchedule teams) = ["r0-m1"; "r1-m0"; "r2-m0"]%string
  ∧ ¬ ids_contiguous (generateSchedule teams).
Proof.
  split; [simpl; lia|]. split; [repeat constructor; done|].
  split; [vm_compute; reflexivity|].
  intros H. specialize (H 0%nat _ eq_refl). vm_compute in H. discriminate H.
Qed.

(** ** Sorting *)

Section Sort.
Context {A : Type} (cmp : A → A → Z).
Hypothesis cmp_anti : ∀ x y, cmp x y > 0 → cmp y x ≤ 0.
Hypothesis cmp_trans : ∀ x y z, cmp x y ≤ 0 → cmp y z ≤ 0 → cmp x z ≤ 0.

Lemma sort_insert_perm x l : sort_insert cmp x l ≡ₚ x :: l.
Proof.
  induction l as [|y l IH]; simpl; [done|].
  case_bool_decide; [|done]. rewrite IH. apply Permutation_swap.
Qed.

Lemma js_sort_perm l : js_sort cmp l ≡ₚ l.
Proof.
  induction l as [|x l IH]; simpl; [done|].
  by rewrite sort_insert_perm, IH.
Qed.

Lemma sort_insert_sorted x l :
  StronglySorted (λ a b, cmp a b ≤ 0) l →
  StronglySorted (λ a b, cmp a b ≤ 0) (sort_insert cmp x l).
Proof.
  induction l as [|y l IH]; simpl; intros Hs.
  - repeat constructor.
  - apply StronglySorted_inv in Hs as [Hl Hy]. case_bool_decide as Hxy.
    + constructor; [by apply IH|].
      rewrite sort_insert_perm. constructor; [by apply cmp_anti|done].
    + constructor; [by constructor|].
      constructor; [lia|].
      eapply Forall_impl; [exact Hy|]. intros z Hz. simpl in Hz.
      apply (cmp_trans x y z); [lia|done].
Qed.

Lemma js_sort_sorted l : StronglySorted (λ a b, cmp a b ≤ 0) (js_sort cmp l).
Proof.
  induction l as [|x l IH]; simpl; [constructor|]. by apply sort_insert_sorted.
Qed.
End Sort.

(** ** The sample host comparison is a total preorder *)

Lemma string_compare_trans a b c :
  String.compare a b ≠ Gt → String.compare b c ≠ Gt → String.compare a c ≠ Gt.
Proof.
  revert b c. induction a as [|x a IH]; intros [|y b] [|z c]; simpl; try done.
  destruct (Ascii.compare x y) eqn:Exy; [| |done].
  - apply Ascii.compare_eq_iff in Exy as ->.
    destruct (Ascii.compare y z); [apply IH|done|done].
  - intros _. destruct (Ascii.compare y z) eqn:Eyz; [| |done].
    + apply Ascii.compare_eq_iff in Eyz as ->. by rewrite Exy.
    + intros _.
      assert (Ascii.compare x z = Lt) as ->; [|done].
      unfold Ascii.compare in *. rewrite N.compare_lt_iff in *. lia.
Qed.

Lemma codeUnitCompare_anti a b :
  codeUnitCompare a b > 0 → codeUnitCompare b a ≤ 0.
Proof.
  unfold codeUnitCompare. rewrite (String.compare_antisym b a).
  destruct (String.compare a b); simpl; lia.
Qed.

Lemma codeUnitCompare_trans a b c :
  codeUnitCompare a b ≤ 0 → codeUnitCompare b c ≤ 0 → codeUnitCompare a c ≤ 0.
Proof.
  unfold codeUnitCompare. intros Hab Hbc.
  pose proof (string_compare_trans a b c) as Ht.
  destruct (String.compare a b), (String.compare b c), (String.compare a c);
    try lia; exfalso; by apply Ht.
Qed.

(** ** The knockout bracket *)

Lemma standings_cmp_le lc a b :
  standings_cmp lc a b ≤ 0 ↔ ranks_before lc a b.
Proof.
  unfold standings_cmp, ranks_before. repeat case_bool_decide; lia.
Qed.

Lemma standings_cmp_anti lc a b :
  (∀ x y, lc x y > 0 → lc y x ≤ 0) →
  standings_cmp lc a b > 0 → standings_cmp lc b a ≤ 0.
Proof.
  intros Hanti. unfold standings_cmp. repeat case_bool_decide; try lia.
  apply Hanti.
Qed.

Lemma standings_cmp_trans lc a b c :
  (∀ x y z, lc x y ≤ 0 → lc y z ≤ 0 → lc x z ≤ 0) →
  standings_cmp lc a b ≤ 0 → standings_cmp lc b c ≤ 0 → standings_cmp lc a c ≤ 0.
Proof.
  intros Htrans. rewrite !standings_cmp_le. unfold ranks_before.
  intros Hab Hbc.
  destruct Hab as [?|[? [?|[? [?|[? Hab]]]]]];
    destruct Hbc as [?|[? [?|[? [?|[? Hbc]]]]]]; try lia.
  right. split; [lia|]. right. split; [lia|]. right. split; [lia|].
  by eapply Htrans.
Qed.

Lemma StronglySorted_iff {A} (R1 R2 : A → A → Prop) l :
  (∀ x y, R1 x y ↔ R2 x y) → StronglySorted R1 l → StronglySorted R2 l.
Proof.
  intros HR. induction 1 as [|x l Hs IH Hall]; constructor; [done|].
  eapply Forall_impl; [exact Hall|]. intros y. apply HR.
Qed.

Lemma omap_ext_in {A B} (f g : A → option B) (l : list A) :
  (∀ x, x ∈ l → f x = g x) → omap f l = omap g l.
Proof.
  induction l as [|x l IH]; intros Hfg; simpl; [done|].
  rewrite (Hfg x) by left.
  destruct (g x); [f_equal|]; apply IH; intros y Hy; apply Hfg; by right.
Qed.

Lemma standings_of_obj (sb : list (string * TeamRecord)) :
  NoDup (obj_keys sb) →
  omap (λ t, pair t <$> obj_get t sb) (obj_keys sb) = sb.
Proof.
  unfold obj_keys. induction sb as [|[k v] sb IH]; simpl; [done|].
  intros [Hnin Hnd]%NoDup_cons. rewrite decide_True by done. simpl. f_equal.
  rewrite <- IH at 2 by done. apply omap_ext_in. intros t Ht.
  rewrite decide_False; [done|]. by intros ->.
Qed.

Lemma total_matches (schedule : list (list Fixture)) :
  fold_left (λ acc round, (acc + length round)%nat) schedule 0%nat
  = length (concat schedule).
Proof.
  cut (∀ a, fold_left (λ acc round, (acc + length round)%nat) schedule a
            = (a + length (concat schedule))%nat).
  { intros H. by rewrite H. }
  induction schedule as [|round schedule IH]; intros a; simpl; [lia|].
  rewrite IH, length_app. lia.
Qed.

(** C5. When generatePlayoff creates the bracket (no bracket was stored
    before), the standings sorted by the ranking comparator (more points,
    then better goal difference, then more goals scored, then ascending team
    name) begin with four entries e1, e2, e3, e4; semi-final sf1 is e1 (home)
    against e4 (away), sf2 is e2 (home) against e3 (away), no score or winner
    is set, the final has null home and away, and the bracket is stored. *)
Theorem generatePlayoff_seeding lc fs tid data ko fs' :
  (∀ a b, lc a b > 0 → lc b a ≤ 0) →
  (∀ a b c, lc a b ≤ 0 → lc b c ≤ 0 → lc a c ≤ 0) →
  loadScoreboard fs tid = Some data →
  NoDup (obj_keys (scoreboard data)) →
  knockout data = None →
  generatePlayoff lc fs tid = (Ok ko, fs') →
  ∃ e1 e2 e3 e4 rest,
    e1 :: e2 :: e3 :: e4 :: rest ≡ₚ scoreboard data
    ∧ StronglySorted (ranks_before lc) (e1 :: e2 :: e3 :: e4 :: rest)
    ∧ semiFinals ko
      = (mkKnockoutMatch "sf1" (Some e1.1) (Some e4.1) None None None,
         mkKnockoutMatch "sf2" (Some e2.1) (Some e3.1) None None None)
    ∧ final ko = mkKnockoutMatch "final" None None None None None
    ∧ loadScoreboard fs' tid
      = Some (mkData (scoreboard data) (results data) (Some ko)).
Proof.
  intros Hanti Htrans Hd Hnd Hko. unfold generatePlayoff. rewrite Hd, Hko.
  destruct (loadSchedule fs tid) as [schedule|]; [|done].
  destruct (match results data with Some _ => _ | None => _ end); [done|].
  case_bool_decide as Hlen; [done|]. intros [= <- <-].
  unfold ranked. rewrite standings_of_obj by done.
  pose proof (js_sort_perm (standings_cmp lc) (scoreboard data)) as Hperm.
  pose proof (js_sort_sorted (standings_cmp lc)
    (λ x y, standings_cmp_anti lc x y Hanti)
    (λ x y z, standings_cmp_trans lc x y z Htrans) (scoreboard data)) as Hsorted.
  assert (4 ≤ length (js_sort (standings_cmp lc) (scoreboard data)))%nat as Hl.
  { rewrite (Permutation_length Hperm). unfold obj_keys in Hlen.
    rewrite length_fmap in Hlen. lia. }
  destruct (js_sort (standings_cmp lc) (scoreboard data))
    as [|e1 [|e2 [|e3 [|e4 rest]]]]; simpl in Hl; try lia.
  exists e1, e2, e3, e4, rest. split; [done|]. split.
  { eapply StronglySorted_iff; [|exact Hsorted]. intros x y. apply standings_cmp_le. }
  split; [done|]. split; [done|]. apply loadScoreboard_save.
Qed.

(** C7, as the code has it.  With a schedule and a scoreboard stored and no
    bracket yet, generatePlayoff fails when fewer results are recorded than
    the schedule has fixtures (or no result list is stored), fails when the
    standings hold fewer than four teams, and otherwise succeeds and stores
    the bracket; a result count above the fixture count is accepted. *)
Theorem generatePlayoff_eligibility lc fs tid schedule data :
  loadSchedule fs tid = Some schedule →
  loadScoreboard fs tid = Some data →
  knockout data = None →
  let total := length (concat schedule) in
  let complete :=
    match results data with
    | Some rs => (total ≤ length rs)%nat
    | None => False
    end in
  let enough := (4 ≤ length (obj_keys (scoreboard data)))%nat in
  (¬ complete →
     generatePlayoff lc fs tid = (Err "Group stage is not yet complete.", fs))
  ∧ (complete → ¬ enough →
     generatePlayoff lc fs tid
     = (Err "At least four teams are required for semi finals.", fs))
  ∧ (complete → enough →
     ∃ ko, generatePlayoff lc fs tid
           = (Ok ko, saveScoreboard tid
                       (mkData (scoreboard data) (results data) (Some ko)) fs)
       ∧ loadScoreboard
           (saveScoreboard tid
              (mkData (scoreboard data) (results data) (Some ko)) fs) tid
         = Some (mkData (scoreboard data) (results data) (Some ko))).
Proof.
  intros Hs Hd Hko total complete enough.
  unfold generatePlayoff. rewrite Hs, Hd, Hko, total_matches. fold total.
  subst complete enough. destruct (results data) as [rs|].
  - split; [|split].
    + intros Hc. rewrite bool_decide_true by lia. done.
    + intros Hc He. rewrite bool_decide_false by lia.
      rewrite bool_decide_true by lia. done.
    + intros Hc He. rewrite bool_decide_false by lia.
      rewrite bool_decide_false by lia.
      eexists. split; [reflexivity|]. apply loadScoreboard_save.
  - split; [done|]. split; intros [].
Qed.

(** C8. When a bracket is already stored for a tournament that has its
    schedule, generatePlayoff returns that bracket and leaves the store as it
    is, whatever the result count and team count are. *)
Theorem generatePlayoff_idempotent lc fs tid schedule data ko :
  loadSchedule fs tid = Some schedule →
  loadScoreboard fs tid = Some data →
  knockout data = Some ko →
  generatePlayoff lc fs tid = (Ok ko, fs).
Proof.
  intros Hs Hd Hko. unfold generatePlayoff. by rewrite Hs, Hd, Hko.
Qed.

Lemma generatePlayoff_seeding_witness :
  ∃ ko fs',
    generatePlayoff codeUnitCompare cup4_played "cup" = (Ok ko, fs')
    ∧ ko = mkKnockout
             (emptyMatch "sf1" (Some "Ajax") (Some "Dynamo"),
              emptyMatch "sf2" (Some "Bayern") (Some "Celtic"))
             (emptyMatch "final" None None)
    ∧ ∃ data e1 e2 e3 e4 rest,
        e1 :: e2 :: e3 :: e4 :: rest ≡ₚ scoreboard data
        ∧ StronglySorted (ranks_before codeUnitCompare) (e1 :: e2 :: e3 :: e4 :: rest)
        ∧ semiFinals ko
          = (mkKnockoutMatch "sf1" (Some e1.1) (Some e4.1) None None None,
             mkKnockoutMatch "sf2" (Some e2.1) (Some e3.1) None None None)
        ∧ final ko = mkKnockoutMatch "final" None None None None None
        ∧ loadScoreboard fs' "cup"
          = Some (mkData (scoreboard data) (results data) (Some ko)).
Proof.
  eexists _, _. split; [vm_compute; reflexivity|]. split; [reflexivity|].
  eexists.
  eapply (generatePlayoff_seeding codeUnitCompare cup4_played "cup").
  - apply codeUnitCompare_anti.
  - apply codeUnitCompare_trans.
  - vm_compute; reflexivity.
  - apply (bool_decide_unpack _). vm_compute. exact I.
  - reflexivity.
  - vm_compute; reflexivity.
Defined.

Lemma generatePlayoff_eligibility_witness :
  generatePlayoff codeUnitCompare cup4 "cup"
  = (Err "Group stage is not yet complete.", cup4)
  ∧ ∃ ko fs', generatePlayoff codeUnitCompare cup4_played "cup" = (Ok ko, fs')
      ∧ ∃ d, loadScoreboard fs' "cup" = Some d ∧ knockout d = Some ko.
Proof.
  split.
  - eapply (generatePlayoff_eligibility codeUnitCompare cup4 "cup").
    + vm_compute; reflexivity.
    + vm_compute; reflexivity.
    + reflexivity.
    + vm_compute. lia.
  - edestruct (generatePlayoff_eligibility codeUnitCompare cup4_played "cup")
      as (_ & _ & ko & Hgen & Hload).
    + vm_compute; reflexivity.
    + vm_compute; reflexivity.
    + reflexivity.
    + vm_compute. lia.
    + vm_compute. lia.
    + exists ko. eexists. split; [exact Hgen|]. eexists. split; [exact Hload|done].
Defined.

(** C7 as stated fails: with seven results recorded for a schedule of six
    fixtures the result count differs from the fixture count, and
    generatePlayoff still succeeds. *)
Lemma generatePlayoff_surplus_counterexample :
  ∃ schedule data rs ko fs',
    loadSchedule cup4_surplus "cup" = Some schedule
    ∧ loadScoreboard cup4_surplus "cup" = Some data
    ∧ knockout data = None
    ∧ results data = Some rs
    ∧ length (concat schedule) = 6%nat ∧ length rs = 7%nat
    ∧ generatePlayoff codeUnitCompare cup4_surplus "cup" = (Ok ko, fs').
Proof.
  eexists _, _, _, _, _.
  split; [vm_compute; reflexivity|]. split; [vm_compute; reflexivity|].
  split; [reflexivity|]. split; [reflexivity|].
  split; [reflexivity|]. split; [reflexivity|].
  vm_compute; reflexivity.
Qed.

Lemma generatePlayoff_idempotent_witness :
  ∃ ko, generatePlayoff codeUnitCompare cup4_seeded "cup" = (Ok ko, cup4_seeded)
    ∧ (loadScoreboard cup4_seeded "cup" ≫= knockout) = Some ko.
Proof.
  eexists. split.
  - eapply (generatePlayoff_idempotent codeUnitCompare cup4_seeded "cup").
    + vm_compute; reflexivity.
    + vm_compute; reflexivity.
    + reflexivity.
  - vm_compute; reflexivity.
Defined.

(** ** Recording knockout results *)

Lemma named_record_result h a m :
  named (k_home m) → named (k_away m) → named (k_winner (record_result h a m)).
Proof. intros ? ?. unfold record_result; simpl. by repeat case_bool_decide. Qed.






(** C9.  A payload whose home score is the text 3.7 is not rejected:
    parseInt reads the leading 3, the operation succeeds, and the ledger
    records the result with a home score of 3. *)
Theorem upsert_accepts_fractional_score :
  parseInt "3.7" = Some 3
  ∧ ∃ d' fs',
      updateMatchResult cup4 "cup" (submit "r0-m0" "Ajax" "Dynamo" "3.7" "1")
      = (Ok d', fs')
      ∧ results d' = Some [mkMatchResult "r0-m0" "Ajax" "Dynamo" 3 1]
      ∧ loadScoreboard fs' "cup" = Some d'
      ∧ fs' ≠ cup4.
Proof.
  split; [reflexivity|]. eexists _, _.
  split; [vm_compute; reflexivity|]. split; [reflexivity|].
  split; [vm_compute; reflexivity|].
  intros Heq. apply (f_equal (λ fs, results <$> loadScoreboard fs "cup")) in Heq.
  vm_compute in Heq. discriminate Heq.
Qed.

(** ** Results that are not on the schedule *)

Lemma preserved_logos_None t (sb : list (string * TeamRecord)) :
  obj_get t sb = None → obj_get t (preserved_logos sb) = None.
Proof.
  intros Hnone. unfold preserved_logos.
  assert (t ∉ obj_keys sb) as Hnin.
  { intros Hin%obj_get_Some_keys. rewrite Hnone in Hin. by destruct Hin. }
  revert Hnin. generalize (obj_keys sb) as l.
  cut (∀ (l : list string) (acc : list (string * string)),
    obj_get t acc = None → t ∉ l →
    obj_get t (fold_left (λ logos t0,
      match obj_get t0 sb with
      | Some rec =>
          match logo rec with
          | Some l0 => if str_truthy l0 then obj_set t0 l0 logos else logos
          | None => logos
          end
      | None => logos
      end) l acc) = None).
  { intros H l. by apply H. }
  induction l as [|x l IH]; intros acc Hacc Hnin; simpl; [done|].
  apply not_elem_of_cons in Hnin as [Hne Hnin].
  apply IH; [|done].
  destruct (obj_get x sb) as [rec|]; [|done].
  destruct (logo rec) as [l0|]; [|done].
  destruct (str_truthy l0); [|done].
  by rewrite obj_get_set_ne.
Qed.

Lemma tally_from_other t rs r0 :
  t ∉ flat_map (λ r, [r_home r; r_away r]) rs → tally_from t rs r0 = r0.
Proof.
  revert r0. induction rs as [|r rs IH]; intros r0 Hnin; simpl in *; [done|].
  apply not_elem_of_cons in Hnin as [Hh Hnin].
  apply not_elem_of_cons in Hnin as [Ha Hnin].
  rewrite IH by done. unfold tally_step.
  rewrite decide_False by done. by rewrite decide_False.
Qed.

Lemma team_tally_from t rs lg :
  team_tally t rs lg = tally_from t rs (zeroRecord lg).
Proof. done. Qed.

Lemma tally_from_app t rs1 rs2 r0 :
  tally_from t (rs1 ++ rs2) r0 = tally_from t rs2 (tally_from t rs1 r0).
Proof. unfold tally_from. apply fold_left_app. Qed.

Lemma elem_of_remove_first {A} (P : A → bool) (l : list A) x :
  x ∈ remove_first P l → x ∈ l.
Proof.
  induction l as [|y l IH]; simpl; [done|].
  destruct (P y); [by right|].
  intros [->|?]%elem_of_cons; [by left|right; by apply IH].
Qed.

Lemma teams_of_remove_first (P : MatchResult → bool) rs t :
  t ∈ flat_map (λ r, [r_home r; r_away r]) (remove_first P rs) →
  t ∈ flat_map (λ r, [r_home r; r_away r]) rs.
Proof.
  rewrite !list_elem_of_In, !in_flat_map.
  intros (r & Hr & Ht). exists r. split; [|done].
  apply list_elem_of_In. eapply elem_of_remove_first. by apply list_elem_of_In.
Qed.

Lemma updateMatchResult_valid fs tid data p h a :
  loadScoreboard fs tid = Some data →
  p_home p ≠ ""%string → p_away p ≠ ""%string → p_home p ≠ p_away p →
  parseInt (p_homeScore p) = Some h → parseInt (p_awayScore p) = Some a →
  0 ≤ h → 0 ≤ a →
  let rs := match results data with
            | Some rs => remove_first (λ r, bool_decide (r_id r = match_id p)) rs
            | None => []
            end ++ [mkMatchResult (match_id p) (p_home p) (p_away p) h a] in
  let d' := mkData (recompute (scoreboard data) rs) (Some rs) (knockout data) in
  updateMatchResult fs tid p = (Ok d', saveScoreboard tid d' fs).
Proof.
  intros Hd Hh Ha Hne Hph Hpa Hh0 Ha0. unfold updateMatchResult.
  rewrite Hd, Hph, Hpa. unfold str_truthy.
  rewrite (bool_decide_false (p_home p = "")), (bool_decide_false (p_away p = ""))
    by done.
  rewrite (bool_decide_false (p_home p = p_away p)) by done.
  rewrite (bool_decide_false (h < 0)), (bool_decide_false (a < 0)) by lia.
  done.
Qed.

(** C10.  A result whose home team is named __proto__ is accepted and
    appended to the ledger, but the team gets no record: the assignment
    scoreboard[team] = {...} goes to the prototype setter, so the standings
    keep their four teams while the away team's record counts the match. *)
Theorem upsert_proto_team_unrecorded :
  ∃ d' fs',
    updateMatchResult cup4 "cup" (submit "friendly" "__proto__" "Ajax" "1" "0")
    = (Ok d', fs')
    ∧ results d' = Some [mkMatchResult "friendly" "__proto__" "Ajax" 1 0]
    ∧ loadScoreboard fs' "cup" = Some d'
    ∧ obj_get "__proto__" (scoreboard d') = None
    ∧ obj_keys (scoreboard d') = ["Ajax"; "Bayern"; "Celtic"; "Dynamo"]%string
    ∧ obj_get "Ajax" (scoreboard d')
      = Some (mkTeamRecord 1 0 0 1 0 1 (-1) 0 None).
Proof.
  eexists _, _. split; [vm_compute; reflexivity|].
  repeat split; vm_compute; reflexivity.
Qed.

(** X24.  A payload with two distinct non-empty team names and scores that
    parse to non-negative integers succeeds for every tournament that has a
    scoreboard, whatever the schedule files hold: neither the id nor the team
    names are looked up in the schedule.  With an id that is not in the
    ledger the result is appended; a team other than __proto__ that was
    neither in the standings nor in the ledger gets a record that starts from
    zero and counts this one result; and the appended result counts in the
    comparison of generatePlayoff, which succeeds as soon as the ledger is as
    long as the schedule.  Stated for scores in the exact range of the
    numbers of the code. *)
Theorem upsert_ignores_schedule lc fs tid data p h a :
  loadScoreboard fs tid = Some data →
  p_home p ≠ ""%string → p_away p ≠ ""%string → p_home p ≠ p_away p →
  parseInt (p_homeScore p) = Some h → parseInt (p_awayScore p) = Some a →
  0 ≤ h ≤ max_exact → 0 ≤ a ≤ max_exact →
  let new := mkMatchResult (match_id p) (p_home p) (p_away p) h a in
  ∃ d',
    (∀ schedules,
       updateMatchResult (mkStore schedules (scoreboardFiles fs)) tid p
       = (Ok d', mkStore schedules (<[tid := d']> (scoreboardFiles fs))))
    ∧ (∀ rs, results data = Some rs → match_id p ∉ r_id <$> rs →
         results d' = Some (rs ++ [new]))
    ∧ (∀ team, team ∈ [p_home p; p_away p] → team ≠ proto_key →
         unknown_team team data →
         obj_get team (scoreboard d')
         = Some (tally_step team new (zeroRecord None)))
    ∧ (∀ schedule rs,
         loadSchedule fs tid = Some schedule → knockout data = None →
         results data = Some rs → match_id p ∉ r_id <$> rs →
         (length (concat schedule) ≤ S (length rs))%nat →
         (4 ≤ length (obj_keys (scoreboard d')))%nat →
         ∃ ko fs'',
           generatePlayoff lc (updateMatchResult fs tid p).2 tid = (Ok ko, fs'')).
Proof.
  intros Hd Hh Ha Hne Hph Hpa [Hh0 _] [Ha0 _] new.
  eexists. split; [|split; [|split]].
  - intros schedules.
    by rewrite (updateMatchResult_valid
                  (mkStore schedules (scoreboardFiles fs)) tid data p h a).
  - intros rs Hrs Hfresh. simpl. rewrite Hrs.
    by rewrite remove_first_fresh.
  - intros team Hteam Hproto [Hsb Hled]. simpl. rewrite obj_get_recompute.
    rewrite bool_decide_true.
    2:{ split; [|done]. apply elem_of_app. right. rewrite flat_map_app.
        apply elem_of_app. right. simpl. exact Hteam. }
    f_equal. rewrite team_tally_from.
    unfold logo_or_null. rewrite (preserved_logos_None team _ Hsb).
    rewrite tally_from_app.
    rewrite (tally_from_other team _ (zeroRecord None)); [reflexivity|].
    destruct (results data) as [rs|]; [|apply not_elem_of_nil].
    intros Hin%teams_of_remove_first. by apply (Hled rs).
  - intros schedule rs Hs Hko Hrs Hfresh Hlen Hkeys.
    rewrite (updateMatchResult_valid fs tid data p h a) by done.
    unfold generatePlayoff. simpl.
    unfold loadSchedule, loadScoreboard, saveScoreboard; simpl.
    unfold loadSchedule in Hs. rewrite Hs, lookup_insert_eq. simpl.
    rewrite Hko, total_matches, Hrs, remove_first_fresh by done.
    rewrite bool_decide_false by (rewrite length_app; simpl; lia).
    simpl in Hkeys. rewrite Hrs, remove_first_fresh in Hkeys by done.
    rewrite bool_decide_false by lia.
    by eexists _, _.
Qed.

Lemma upsert_ignores_schedule_witness :
  let p := submit "friendly" "Xerez" "Yeovil" "5" "5" in
  let out := updateMatchResult cup4_five "cup" p in
  loadSchedule cup4_five "cup"
  = Some (generateSchedule ["Ajax"; "Bayern"; "Celtic"; "Dynamo"]%string)
  ∧ ∃ d',
      out.1 = Ok d'
      ∧ (length <$> results cup4_five_data) = Some 5%nat
      ∧ (length <$> results d') = Some 6%nat
      ∧ obj_get "Xerez" (scoreboard cup4_five_data) = None
      ∧ obj_get "Xerez" (scoreboard d')
        = Some (mkTeamRecord 1 0 1 0 5 5 0 1 None)
      ∧ ∃ ko fs'', generatePlayoff codeUnitCompare out.2 "cup" = (Ok ko, fs'').
Proof.
  intros p out. split; [vm_compute; reflexivity|].
  destruct (upsert_ignores_schedule codeUnitCompare cup4_five "cup"
              cup4_five_data p 5 5) as (d' & Hout & Happ & Hnew & Hgen).
  - vm_compute; reflexivity.
  - done.
  - done.
  - done.
  - reflexivity.
  - reflexivity.
  - unfold max_exact; lia.
  - unfold max_exact; lia.
  - specialize (Hout (scheduleFiles cup4_five)).
    assert (Ok d' = out.1) as Hd'.
    { transitivity (updateMatchResult
        (mkStore (scheduleFiles cup4_five) (scoreboardFiles cup4_five)) "cup" p).1.
      - by rewrite Hout.
      - vm_compute; reflexivity. }
    exists d'. split; [done|].
    vm_compute in Hd'. injection Hd' as ->.
    split; [reflexivity|]. split; [reflexivity|]. split; [reflexivity|].
    split; [reflexivity|].
    eapply Hgen.
    + vm_compute; reflexivity.
    + reflexivity.
    + reflexivity.
    + apply (bool_decide_unpack _). vm_compute. exact I.
    + vm_compute. lia.
    + vm_compute. lia.
Defined.

(** ** The brackets that the operations produce satisfy [bracket_ok] *)

Lemma ranked_team_in_keys lc (sb : list (string * TeamRecord)) i t :
  (take 4 (ranked lc sb)).*1 !! i = Some t → t ∈ obj_keys sb.
Proof.
  intros Hi%list_elem_of_lookup_2.
  apply list_elem_of_fmap in Hi as ([t' rec] & -> & Hin). simpl.
  apply (subseteq_take 4) in Hin. unfold ranked in Hin.
  rewrite js_sort_perm in Hin.
  apply list_elem_of_omap in Hin as (x & Hx & Hsome).
  destruct (obj_get x sb); [|done]. by injection Hsome as <- _.
Qed.

Lemma bracket_ok_generate lc fs tid data ko fs' :
  loadScoreboard fs tid = Some data →
  Forall (λ t, t ≠ ""%string) (obj_keys (scoreboard data)) →
  knockout data = None →
  generatePlayoff lc fs tid = (Ok ko, fs') →
  bracket_ok ko.
Proof.
  intros Hd Hkeys Hko. unfold generatePlayoff. rewrite Hd, Hko.
  destruct (loadSchedule fs tid) as [schedule|]; [|done].
  destruct (match results data with Some _ => _ | None => _ end); [done|].
  case_bool_decide; [done|]. intros [= <- <-].
  assert (∀ i, named ((take 4 (ranked lc (scoreboard data))).*1 !! i)) as Hnamed.
  { intros i. unfold named.
    destruct (_ !! i) as [t|] eqn:Hi; [|done].
    apply ranked_team_in_keys in Hi. rewrite Forall_forall in Hkeys.
    intros [= ->]. by apply (Hkeys ""%string). }
  unfold bracket_ok, emptyMatch; simpl. repeat split; (done || apply Hnamed).
Qed.

Lemma bracket_ok_populate ko : bracket_ok ko → bracket_ok (populate_final ko).
Proof.
  intros Hok. unfold populate_final.
  destruct (_ && _); [|done].
  destruct Hok as (? & ? & ? & [? ?] & ? & [? ?] & ? & ? & ?).
  unfold bracket_ok; simpl. by repeat split.
Qed.

Lemma bracket_ok_update fs tid data ko p ko' fs' :
  loadScoreboard fs tid = Some data →
  knockout data = Some ko →
  bracket_ok ko →
  updateKnockout fs tid p = (Ok ko', fs') →
  bracket_ok ko'.
Proof.
  intros Hd Hko Hok. unfold updateKnockout. rewrite Hd, Hko.
  destruct (truthy (kp_id p)); [|done].
  destruct (kp_id p) as [id|]; [|done].
  destruct (parseInt (kp_homeScore p)) as [h|]; [|done].
  destruct (parseInt (kp_awayScore p)) as [a|]; [|done].
  destruct (_ || _); [done|].
  pose proof Hok as (? & ? & ? & [? ?] & ? & [? ?] & ? & ? & ?).
  assert (∀ ko1, bracket_ok ko1 →
    bracket_ok (if starts_with_sf id then populate_final ko1 else ko1)) as Hpop.
  { intros ko1 Hko1. destruct (starts_with_sf id); [by apply bracket_ok_populate|done]. }
  repeat case_bool_decide; intros [= <- <-]; apply Hpop;
    unfold bracket_ok; simpl; repeat split; try done;
    by apply named_record_result.
Qed.

(** * Further properties of the code *)

(** ** Score texts that parseInt accepts *)

Lemma digit_val_pretty_N_char d :
  (d < 10)%N → digit_val (pretty_N_char d) = Some (Z.of_N d).
Proof.
  intros Hd.
  assert (d = 0 ∨ d = 1 ∨ d = 2 ∨ d = 3 ∨ d = 4 ∨ d = 5 ∨ d = 6 ∨ d = 7
          ∨ d = 8 ∨ d = 9)%N as Hcases by lia.
  repeat (destruct Hcases as [->|Hcases]; [reflexivity|]). by subst.
Qed.

Lemma pretty_N_go_app x s t :
  (pretty_N_go x s +:+ t = pretty_N_go x (s +:+ t))%string.
Proof.
  revert s. induction (N.lt_wf_0 x) as [x _ IH]; intros s.
  assert (x = 0 ∨ 0 < x)%N as [->|?] by lia.
  - by rewrite !pretty_N_go_0.
  - rewrite (pretty_N_go_step x s), (pretty_N_go_step x (s +:+ t)) by done.
    rewrite IH; [reflexivity|]. by apply N.div_lt.
Qed.

Lemma parse_digits_pretty_N_go x s :
  (0 < x)%N →
  parse_digits None (pretty_N_go x s) = parse_digits (Some (Z.of_N x)) s.
Proof.
  revert s. induction (N.lt_wf_0 x) as [x _ IH]; intros s Hx.
  rewrite pretty_N_go_step by done.
  destruct (N.eq_0_gt_0_cases (x `div` 10)) as [H0|Hpos].
  - rewrite H0, pretty_N_go_0. simpl.
    assert (x < 10)%N as Hlt by (apply N.div_small_iff in H0; lia).
    rewrite N.mod_small by done.
    rewrite digit_val_pretty_N_char by done.
    by replace (10 * 0 + Z.of_N x) with (Z.of_N x) by lia.
  - rewrite IH; [|by apply N.div_lt|done]. simpl.
    rewrite digit_val_pretty_N_char by (apply N.mod_lt; lia). cbn [default].
    replace (10 * Z.of_N (x `div` 10) + Z.of_N (x `mod` 10)) with (Z.of_N x);
      [done|].
    pose proof (N.div_mod x 10). lia.
Qed.

Lemma parse_digits_stop z s :
  no_digit_head s → parse_digits (Some z) s = Some z.
Proof. destruct s as [|c s]; simpl; [done|]. by intros ->. Qed.

Lemma parse_digits_pretty (n : N) rest :
  no_digit_head rest →
  parse_digits None (pretty n +:+ rest) = Some (Z.of_N n).
Proof.
  intros Hrest. unfold pretty, pretty_N. case_decide as Hn.
  - subst n. simpl. by apply parse_digits_stop.
  - rewrite pretty_N_go_app. simpl.
    rewrite parse_digits_pretty_N_go by lia. by apply parse_digits_stop.
Qed.

Lemma pretty_N_go_head x s :
  (0 < x)%N → ∃ d s', (d < 10)%N ∧ pretty_N_go x s = String (pretty_N_char d) s'.
Proof.
  revert s. induction (N.lt_wf_0 x) as [x _ IH]; intros s Hx.
  rewrite pretty_N_go_step by done.
  destruct (N.eq_0_gt_0_cases (x `div` 10)) as [H0|Hpos].
  - rewrite H0, pretty_N_go_0. eexists _, _. split; [|done]. by apply N.mod_lt.
  - apply IH; [by apply N.div_lt|done].
Qed.

Lemma pretty_N_head (n : N) rest :
  ∃ d s', (d < 10)%N ∧ (pretty n +:+ rest)%string = String (pretty_N_char d) s'.
Proof.
  unfold pretty, pretty_N. case_decide as Hn.
  - exists 0%N. eexists. split; [lia|]. reflexivity.
  - destruct (pretty_N_go_head n "" ltac:(lia)) as (d & s' & Hd & ->).
    exists d. eexists. split; [done|]. reflexivity.
Qed.

Lemma parseInt_digit_head d s :
  (d < 10)%N →
  parseInt (String (pretty_N_char d) s) = parse_digits None (String (pretty_N_char d) s).
Proof.
  intros Hd.
  assert (d = 0 ∨ d = 1 ∨ d = 2 ∨ d = 3 ∨ d = 4 ∨ d = 5 ∨ d = 6 ∨ d = 7
          ∨ d = 8 ∨ d = 9)%N as Hcases by lia.
  repeat (destruct Hcases as [->|Hcases]; [reflexivity|]). by subst.
Qed.

Lemma parseInt_pretty (n : N) rest :
  no_digit_head rest → parseInt (pretty n +:+ rest) = Some (Z.of_N n).
Proof.
  intros Hrest. destruct (pretty_N_head n rest) as (d & s' & Hd & Heq).
  rewrite Heq, parseInt_digit_head by done. rewrite <- Heq.
  by apply parse_digits_pretty.
Qed.

Lemma string_app_empty_r (s : string) : (s +:+ "")%string = s.
Proof.
  induction s as [|c s IH]; [done|].
  change (String c s +:+ "")%string with (String c (s +:+ "")). by rewrite IH.
Qed.

Lemma parseInt_minus_pretty (n : N) rest :
  no_digit_head rest →
  parseInt (String "-" (pretty n +:+ rest)) = Some (- Z.of_N n).
Proof.
  intros Hrest. unfold parseInt. simpl skip_ws. cbv iota beta.
  change (skip_ws (String "-" (pretty n +:+ rest)))
    with (String "-" (pretty n +:+ rest)).
  by rewrite parse_digits_pretty.
Qed.

(** X1.  Every decimal natural number in the exact range of the numbers of
    the code (up to 2^53), followed by nothing or by text that does not begin
    with a digit, is accepted as a score and recorded as that number. *)
Theorem upsert_accepts_numeric_prefix fs tid data id home away (h a : N)
    rest_h rest_a :
  loadScoreboard fs tid = Some data →
  home ≠ ""%string → away ≠ ""%string → home ≠ away →
  no_digit_head rest_h → no_digit_head rest_a →
  Z.of_N h ≤ max_exact → Z.of_N a ≤ max_exact →
  let p := mkPayload id home away (pretty h +:+ rest_h) (pretty a +:+ rest_a) in
  ∃ d' kept,
    updateMatchResult fs tid p = (Ok d', saveScoreboard tid d' fs)
    ∧ results d'
      = Some (kept ++ [mkMatchResult (match_id p) home away (Z.of_N h) (Z.of_N a)]).
Proof.
  intros Hd Hh Ha Hne Hrh Hra _ _ p.
  eexists _, _. split.
  - apply (updateMatchResult_valid fs tid data p (Z.of_N h) (Z.of_N a));
      try done; try lia; by apply parseInt_pretty.
  - reflexivity.
Qed.

Lemma upsert_accepts_numeric_prefix_witness :
  ∃ d' kept,
    updateMatchResult cup4 "cup" (mkPayload None "Ajax" "Dynamo" "12" "3 goals")
    = (Ok d', saveScoreboard "cup" d' cup4)
    ∧ results d' = Some (kept ++ [mkMatchResult "Ajax-Dynamo" "Ajax" "Dynamo" 12 3]).
Proof.
  apply (upsert_accepts_numeric_prefix cup4 "cup"
           (default (mkData [] None None) (loadScoreboard cup4 "cup"))
           None "Ajax" "Dynamo" 12%N 3%N "" " goals").
  - vm_compute; reflexivity.
  - done.
  - done.
  - done.
  - exact I.
  - reflexivity.
  - unfold max_exact; lia.
  - unfold max_exact; lia.
Defined.

(** X2.  updateMatchResult replies with an error, in this order of
    precedence, when the tournament has no scoreboard, when a team name is
    empty or both are the same, and when a score does not parse or parses to
    a negative number; a reply with an error never changes the store. *)
Theorem updateMatchResult_rejections fs tid p :
  (loadScoreboard fs tid = None →
     updateMatchResult fs tid p
     = (Err "No scoreboard found. Generate a schedule first.", fs))
  ∧ (is_Some (loadScoreboard fs tid) →
     p_home p = ""%string ∨ p_away p = ""%string ∨ p_home p = p_away p →
     updateMatchResult fs tid p = (Err "Invalid teams.", fs))
  ∧ (is_Some (loadScoreboard fs tid) →
     p_home p ≠ ""%string → p_away p ≠ ""%string → p_home p ≠ p_away p →
     (∀ h a, parseInt (p_homeScore p) = Some h →
             parseInt (p_awayScore p) = Some a → h < 0 ∨ a < 0) →
     updateMatchResult fs tid p = (Err "Scores must be non‑negative integers.", fs))
  ∧ (∀ msg fs', updateMatchResult fs tid p = (Err msg, fs') → fs' = fs).
Proof.
  unfold updateMatchResult. split; [|split; [|split]].
  - by intros ->.
  - intros [d ->] Hbad.
    assert (negb (str_truthy (p_home p)) || negb (str_truthy (p_away p))
            || bool_decide (p_home p = p_away p) = true) as ->; [|done].
    unfold str_truthy. rewrite !negb_involutive.
    repeat case_bool_decide; try done. by destruct Hbad as [?|[?|?]].
  - intros [d ->] Hh Ha Hne Hscores. unfold str_truthy.
    rewrite (bool_decide_false (p_home p = "")), (bool_decide_false (p_away p = ""))
      by done.
    rewrite (bool_decide_false (p_home p = p_away p)) by done. simpl.
    destruct (parseInt (p_homeScore p)) as [h|]; [|done].
    destruct (parseInt (p_awayScore p)) as [a|]; [|done].
    destruct (Hscores h a eq_refl eq_refl).
    + by rewrite (bool_decide_true (h < 0)).
    + rewrite (bool_decide_true (a < 0)) by done. by rewrite orb_true_r.
  - intros msg fs'.
    destruct (loadScoreboard fs tid); [|by intros [= _ <-]].
    destruct (_ || _); [by intros [= _ <-]|].
    destruct (parseInt (p_homeScore p)); [|by intros [= _ <-]].
    destruct (parseInt (p_awayScore p)); [|by intros [= _ <-]].
    destruct (_ || _); [by intros [= _ <-]|done].
Qed.

(** X3.  A score written with a minus sign is rejected exactly when its
    number is not zero: -n for n > 0 gives the error and leaves the store
    unchanged, while -0 is accepted and recorded as 0. *)
Theorem upsert_minus_sign fs tid data id home away (n : N) :
  loadScoreboard fs tid = Some data →
  home ≠ ""%string → away ≠ ""%string → home ≠ away →
  let p := mkPayload id home away (String "-" (pretty n)) "0" in
  if bool_decide (n = 0%N)
  then ∃ d' kept,
         updateMatchResult fs tid p = (Ok d', saveScoreboard tid d' fs)
         ∧ results d' = Some (kept ++ [mkMatchResult (match_id p) home away 0 0])
  else updateMatchResult fs tid p
       = (Err "Scores must be non‑negative integers.", fs).
Proof.
  intros Hd Hh Ha Hne p.
  assert (parseInt (p_homeScore p) = Some (- Z.of_N n)) as Hp.
  { pose proof (parseInt_minus_pretty n "" I) as H.
    by rewrite string_app_empty_r in H. }
  case_bool_decide as Hn.
  - subst n. eexists _, _. split.
    + by apply (updateMatchResult_valid fs tid data p 0 0).
    + reflexivity.
  - unfold updateMatchResult. rewrite Hd. unfold str_truthy. simpl.
    rewrite (bool_decide_false (home = "")), (bool_decide_false (away = ""))
      by done.
    rewrite (bool_decide_false (home = away)) by done. simpl.
    simpl in Hp. rewrite Hp. change (parseInt "0") with (Some 0).
    rewrite (bool_decide_true (- Z.of_N n < 0)) by lia. done.
Qed.

Lemma upsert_minus_sign_witness :
  updateMatchResult cup4 "cup" (submit "r0-m0" "Ajax" "Dynamo" "-1" "0")
  = (Err "Scores must be non‑negative integers.", cup4).
Proof.
  apply (upsert_minus_sign cup4 "cup"
           (default (mkData [] None None) (loadScoreboard cup4 "cup"))
           (Some "r0-m0"%string) "Ajax" "Dynamo" 1%N).
  - vm_compute; reflexivity.
  - done.
  - done.
  - done.
Defined.

(** ** What the operations leave alone *)

Lemma updateKnockout_store fs tid p :
  (updateKnockout fs tid p).2 = fs
  ∨ ∃ data ko ko',
      loadScoreboard fs tid = Some data ∧ knockout data = Some ko
      ∧ updateKnockout fs tid p
        = (Ok ko', saveScoreboard tid
                     (mkData (scoreboard data) (results data) (Some ko')) fs).
Proof.
  unfold updateKnockout.
  destruct (loadScoreboard fs tid) as [data|]; [|by left].
  destruct (knockout data) as [ko|] eqn:Hko; [|by left].
  destruct (truthy (kp_id p)); [|by left].
  destruct (kp_id p) as [id|]; [|by left].
  destruct (parseInt (kp_homeScore p)) as [h|]; [|by left].
  destruct (parseInt (kp_awayScore p)) as [a|]; [|by left].
  destruct (_ || _); [by left|].
  destruct (if bool_decide (id = "final"%string) then _ else _) as [ko1|];
    [|by left].
  right. by eexists _, _, _.
Qed.

Lemma generatePlayoff_store lc fs tid :
  (generatePlayoff lc fs tid).2 = fs
  ∨ ∃ data ko,
      loadScoreboard fs tid = Some data ∧ knockout data = None
      ∧ generatePlayoff lc fs tid
        = (Ok ko, saveScoreboard tid
                    (mkData (scoreboard data) (results data) (Some ko)) fs).
Proof.
  unfold generatePlayoff.
  destruct (loadSchedule fs tid); [|by left].
  destruct (loadScoreboard fs tid) as [data|]; [|by left].
  destruct (knockout data) eqn:Hko; [by left|].
  destruct (match results data with Some _ => _ | None => _ end); [by left|].
  case_bool_decide; [by left|]. right. by eexists _, _.
Qed.

Lemma loadScoreboard_save_ne tid tid' d fs :
  tid' ≠ tid → loadScoreboard (saveScoreboard tid d fs) tid' = loadScoreboard fs tid'.
Proof.
  intros Hne. unfold loadScoreboard, saveScoreboard; simpl.
  by apply lookup_insert_ne.
Qed.

(** X4.  The three operations on one tournament never write a schedule file
    and never change the scoreboard file of another tournament. *)
Theorem operations_isolated lc fs tid tid' p kp :
  tid' ≠ tid →
  let after_upsert := (updateMatchResult fs tid p).2 in
  let after_playoff := (generatePlayoff lc fs tid).2 in
  let after_knockout := (updateKnockout fs tid kp).2 in
  (scheduleFiles after_upsert = scheduleFiles fs
   ∧ loadScoreboard after_upsert tid' = loadScoreboard fs tid')
  ∧ (scheduleFiles after_playoff = scheduleFiles fs
     ∧ loadScoreboard after_playoff tid' = loadScoreboard fs tid')
  ∧ (scheduleFiles after_knockout = scheduleFiles fs
     ∧ loadScoreboard after_knockout tid' = loadScoreboard fs tid').
Proof.
  intros Hne. cbv zeta. split; [|split].
  - destruct (updateMatchResult_store fs tid p) as [->|[d' ->]]; [done|].
    split; [done|]. by apply loadScoreboard_save_ne.
  - destruct (generatePlayoff_store lc fs tid) as [->|(d & ko & _ & _ & ->)];
      [done|].
    split; [done|]. by apply loadScoreboard_save_ne.
  - destruct (updateKnockout_store fs tid kp) as [->|(d & ko & ko' & _ & _ & ->)];
      [done|].
    split; [done|]. by apply loadScoreboard_save_ne.
Qed.

Lemma operations_isolated_witness :
  let p := submit "r0-m0" "Ajax" "Dynamo" "4" "4" in
  let kp := mkKnockoutPayload (Some "sf1"%string) "1" "0" in
  let after_upsert := (updateMatchResult two_cups "cup" p).2 in
  let after_playoff := (generatePlayoff codeUnitCompare two_cups "cup").2 in
  let after_knockout := (updateKnockout two_cups "cup" kp).2 in
  after_upsert ≠ two_cups
  ∧ (scheduleFiles after_upsert = scheduleFiles two_cups
     ∧ loadScoreboard after_upsert "derby" = loadScoreboard two_cups "derby")
  ∧ (scheduleFiles after_playoff = scheduleFiles two_cups
     ∧ loadScoreboard after_playoff "derby" = loadScoreboard two_cups "derby")
  ∧ (scheduleFiles after_knockout = scheduleFiles two_cups
     ∧ loadScoreboard after_knockout "derby" = loadScoreboard two_cups "derby").
Proof.
  cbv zeta. split.
  - intros Heq.
    apply (f_equal (λ fs, (loadScoreboard fs "cup" ≫= results) ≫= last)) in Heq.
    vm_compute in Heq. discriminate Heq.
  - apply (operations_isolated codeUnitCompare two_cups "cup" "derby"). done.
Defined.

(** X5.  Within one tournament the group stage and the bracket are kept
    apart: a successful upsert leaves the stored bracket as it is (a bracket
    is never re-seeded when results are edited after seeding), and
    generatePlayoff and updateKnockout leave the standings and the ledger as
    they are. *)
Theorem ledger_and_bracket_apart lc fs tid data :
  loadScoreboard fs tid = Some data →
  (∀ p d' fs', updateMatchResult fs tid p = (Ok d', fs') →
     knockout d' = knockout data)
  ∧ (∀ ko fs', generatePlayoff lc fs tid = (Ok ko, fs') →
       loadScoreboard fs' tid
       = Some (mkData (scoreboard data) (results data) (Some ko)))
  ∧ (∀ kp ko fs', updateKnockout fs tid kp = (Ok ko, fs') →
       loadScoreboard fs' tid
       = Some (mkData (scoreboard data) (results data) (Some ko))).
Proof.
  intros Hd. split; [|split].
  - intros p d' fs' (d0 & h & a & Hd0 & _ & _ & _ & _ & _ & _ & _ & -> & _)%updateMatchResult_Ok.
    rewrite Hd in Hd0. by injection Hd0 as <-.
  - intros ko fs' Hgen.
    destruct (generatePlayoff_store lc fs tid) as [Hsame|(d & ko' & Hd' & _ & Heq)].
    + rewrite Hgen in Hsame. simpl in Hsame. subst fs'.
      unfold generatePlayoff in Hgen. rewrite Hd in Hgen.
      destruct (loadSchedule fs tid); [|done].
      destruct (knockout data) as [ko0|] eqn:Hko.
      * injection Hgen as <-. rewrite Hd. f_equal. destruct data; simpl in *.
        by subst.
      * destruct (match results data with Some _ => _ | None => _ end); [done|].
        case_bool_decide; [done|]. injection Hgen as _ Hfs.
        apply (f_equal (λ s, loadScoreboard s tid)) in Hfs.
        rewrite loadScoreboard_save, Hd in Hfs. injection Hfs as Hfs.
        rewrite <- Hfs in Hko. done.
    + rewrite Heq in Hgen. injection Hgen as <- <-.
      rewrite Hd in Hd'. injection Hd' as <-. apply loadScoreboard_save.
  - intros kp ko fs' Hup.
    destruct (updateKnockout_store fs tid kp) as [Hsame|(d & ko0 & ko' & Hd' & _ & Heq)].
    + rewrite Hup in Hsame. simpl in Hsame. subst fs'.
      unfold updateKnockout in Hup. rewrite Hd in Hup.
      destruct (knockout data) as [ko0|]; [|done].
      destruct (truthy (kp_id kp)); [|done].
      destruct (kp_id kp) as [id|]; [|done].
      destruct (parseInt (kp_homeScore kp)) as [h|]; [|done].
      destruct (parseInt (kp_awayScore kp)) as [a|]; [|done].
      destruct (_ || _); [done|].
      destruct (if bool_decide (id = "final"%string) then _ else _) as [ko1|];
        [|done].
      injection Hup as <- Hfs.
      apply (f_equal (λ s, loadScoreboard s tid)) in Hfs.
      by rewrite loadScoreboard_save in Hfs.
    + rewrite Heq in Hup. injection Hup as <- <-.
      rewrite Hd in Hd'. injection Hd' as <-. apply loadScoreboard_save.
Qed.

Lemma ledger_and_bracket_apart_witness :
  let p := submit "r0-m0" "Ajax" "Dynamo" "0" "9" in
  ∃ d' fs' data,
    loadScoreboard cup4_seeded "cup" = Some data
    ∧ updateMatchResult cup4_seeded "cup" p = (Ok d', fs')
    ∧ scoreboard d' ≠ scoreboard data
    ∧ knockout d' = knockout data.
Proof.
  intros p. eexists _, _, _.
  split; [vm_compute; reflexivity|]. split; [vm_compute; reflexivity|]. split.
  - intros Heq. apply (f_equal (λ sb, points <$> obj_get "Ajax" sb)) in Heq.
    vm_compute in Heq. discriminate Heq.
  - eapply (proj1 (ledger_and_bracket_apart codeUnitCompare cup4_seeded "cup" _ _) p).
    vm_compute; reflexivity.
    Unshelve. vm_compute; reflexivity.
Defined.

(** ** updateKnockout: rejections *)

(** X6.  updateKnockout replies with an error, in this order of precedence,
    when the tournament has no scoreboard or no bracket, when the id is
    missing or empty or a score does not parse or is negative, and when the
    id names neither the final nor one of the semi-finals; a reply with an
    error never changes the store. *)
Theorem updateKnockout_rejections fs tid p :
  ((loadScoreboard fs tid ≫= knockout) = None →
     updateKnockout fs tid p = (Err "No knockout bracket found.", fs))
  ∧ (∀ ko, (loadScoreboard fs tid ≫= knockout) = Some ko →
     (truthy (kp_id p) = false
      ∨ ∀ h a, parseInt (kp_homeScore p) = Some h →
               parseInt (kp_awayScore p) = Some a → h < 0 ∨ a < 0) →
     updateKnockout fs tid p = (Err "Invalid knockout update payload.", fs))
  ∧ (∀ ko id h a, (loadScoreboard fs tid ≫= knockout) = Some ko →
     kp_id p = Some id → id ≠ ""%string →
     parseInt (kp_homeScore p) = Some h → parseInt (kp_awayScore p) = Some a →
     0 ≤ h → 0 ≤ a →
     id ≠ "final"%string →
     k_id (semiFinals ko).1 ≠ id → k_id (semiFinals ko).2 ≠ id →
     updateKnockout fs tid p = (Err "Match not found in knockout bracket.", fs))
  ∧ (∀ msg fs', updateKnockout fs tid p = (Err msg, fs') → fs' = fs).
Proof.
  unfold updateKnockout. split; [|split; [|split]].
  - destruct (loadScoreboard fs tid) as [data|]; simpl; [|done].
    by intros ->.
  - intros ko Hko Hbad.
    destruct (loadScoreboard fs tid) as [data|]; simpl in Hko; [|done].
    rewrite Hko. destruct Hbad as [->|Hscores]; [done|].
    destruct (truthy (kp_id p)); [|done].
    destruct (kp_id p) as [id|]; [|done].
    destruct (parseInt (kp_homeScore p)) as [h|]; [|done].
    destruct (parseInt (kp_awayScore p)) as [a|]; [|done].
    destruct (Hscores h a eq_refl eq_refl).
    + by rewrite (bool_decide_true (h < 0)).
    + rewrite (bool_decide_true (a < 0)) by done. by rewrite orb_true_r.
  - intros ko id h a Hko Hid Hne Hh Ha Hh0 Ha0 Hf H1 H2.
    destruct (loadScoreboard fs tid) as [data|]; simpl in Hko; [|done].
    rewrite Hko, Hid, Hh, Ha. simpl.
    rewrite (bool_decide_false (id = "")) by done. simpl.
    rewrite (bool_decide_false (h < 0)), (bool_decide_false (a < 0)) by lia.
    simpl. by rewrite !bool_decide_false.
  - intros msg fs'.
    destruct (loadScoreboard fs tid) as [data|]; [|by intros [= _ <-]].
    destruct (knockout data) as [ko|]; [|by intros [= _ <-]].
    destruct (truthy (kp_id p)); [|by intros [= _ <-]].
    destruct (kp_id p) as [id|]; [|by intros [= _ <-]].
    destruct (parseInt (kp_homeScore p)) as [h|]; [|by intros [= _ <-]].
    destruct (parseInt (kp_awayScore p)) as [a|]; [|by intros [= _ <-]].
    destruct (_ || _); [by intros [= _ <-]|].
    destruct (if bool_decide (id = "final"%string) then _ else _) as [ko1|];
      [done|by intros [= _ <-]].
Qed.

(** ** The bracket over a sequence of knockout results *)

Lemma seeded_from_fresh t1 t2 t3 t4 :
  seeded_from t1 t2 t3 t4
    (mkKnockout (emptyMatch "sf1" (Some t1) (Some t4),
                 emptyMatch "sf2" (Some t2) (Some t3))
                (emptyMatch "final" None None)).
Proof. unfold seeded_from; simpl. repeat split; auto. Qed.

Lemma seeded_from_record_final t1 t2 t3 t4 h a s1 s2 f :
  seeded_from t1 t2 t3 t4 (mkKnockout (s1, s2) f) →
  seeded_from t1 t2 t3 t4 (mkKnockout (s1, s2) (record_result h a f)).
Proof.
  unfold seeded_from; simpl.
  intros (? & ? & ? & ? & ? & ? & ? & ? & ? & Hf).
  repeat split; try done.
  destruct Hf as [(-> & -> & _)|(? & ? & _)].
  - left. by repeat case_bool_decide.
  - right. repeat split; try done. repeat case_bool_decide; auto.
Qed.

Lemma seeded_from_populate t1 t2 t3 t4 ko :
  t1 ≠ ""%string → t2 ≠ ""%string → t3 ≠ ""%string → t4 ≠ ""%string →
  seeded_from t1 t2 t3 t4 ko → seeded_from t1 t2 t3 t4 (populate_final ko).
Proof.
  intros H1 H2 H3 H4 Hs. unfold populate_final.
  destruct (truthy (k_winner (semiFinals ko).1)) eqn:E1; [|done].
  destruct (truthy (k_winner (semiFinals ko).2)) eqn:E2; [|done].
  destruct (truthy (k_home (final ko))) eqn:E3; [done|].
  destruct (truthy (k_away (final ko))) eqn:E4; [done|]. simpl.
  destruct Hs as (? & ? & ? & ? & ? & ? & ? & Hw1 & Hw2 & Hf).
  unfold seeded_from; simpl. repeat split; try done.
  destruct Hf as [(_ & _ & Hwf)|(Hfh & Hfa & _)].
  - right. rewrite Hwf. repeat split; auto.
    + destruct Hw1 as [Hw|[Hw|Hw]]; rewrite Hw in *; auto. done.
    + destruct Hw2 as [Hw|[Hw|Hw]]; rewrite Hw in *; auto. done.
  - exfalso. destruct Hfh as [Hfh|Hfh]; rewrite Hfh in E3; simpl in E3;
      by rewrite bool_decide_false in E3.
Qed.

Lemma seeded_from_update fs tid data ko p ko' fs' t1 t2 t3 t4 :
  t1 ≠ ""%string → t2 ≠ ""%string → t3 ≠ ""%string → t4 ≠ ""%string →
  loadScoreboard fs tid = Some data →
  knockout data = Some ko →
  seeded_from t1 t2 t3 t4 ko →
  updateKnockout fs tid p = (Ok ko', fs') →
  seeded_from t1 t2 t3 t4 ko'.
Proof.
  intros H1 H2 H3 H4 Hd Hko Hs. unfold updateKnockout. rewrite Hd, Hko.
  destruct (truthy (kp_id p)); [|done].
  destruct (kp_id p) as [id|]; [|done].
  destruct (parseInt (kp_homeScore p)) as [h|]; [|done].
  destruct (parseInt (kp_awayScore p)) as [a|]; [|done].
  destruct (_ || _); [done|].
  assert (∀ ko1, seeded_from t1 t2 t3 t4 ko1 →
    seeded_from t1 t2 t3 t4 (if starts_with_sf id then populate_final ko1 else ko1))
    as Hpop.
  { intros ko1 Hko1. destruct (starts_with_sf id); [|done].
    by apply seeded_from_populate. }
  destruct ko as [[s1 s2] f]; simpl.
  repeat case_bool_decide; intros [= <- <-]; apply Hpop.
  - by apply seeded_from_record_final.
  - destruct Hs as (? & ? & ? & Hh1 & Ha1 & ? & ? & Hw1 & Hw2 & Hf).
    simpl in *. unfold seeded_from; simpl. repeat split; try done.
    rewrite Hh1, Ha1. repeat case_bool_decide; auto.
  - destruct Hs as (? & ? & ? & ? & ? & Hh2 & Ha2 & Hw1 & Hw2 & Hf).
    simpl in *. unfold seeded_from; simpl. repeat split; try done.
    rewrite Hh2, Ha2. repeat case_bool_decide; auto.
Qed.

Lemma seeded_from_knockout_all tid ps fs t1 t2 t3 t4 :
  t1 ≠ ""%string → t2 ≠ ""%string → t3 ≠ ""%string → t4 ≠ ""%string →
  (∃ data ko, loadScoreboard fs tid = Some data ∧ knockout data = Some ko
     ∧ seeded_from t1 t2 t3 t4 ko) →
  ∃ data ko, loadScoreboard (knockout_all tid ps fs) tid = Some data
    ∧ knockout data = Some ko ∧ seeded_from t1 t2 t3 t4 ko.
Proof.
  intros H1 H2 H3 H4. unfold knockout_all. revert fs.
  induction ps as [|p ps IH]; intros fs Hfs; simpl; [done|].
  apply IH. destruct Hfs as (data & ko & Hd & Hko & Hs).
  destruct (updateKnockout_store fs tid p)
    as [->|(data' & ko0 & ko' & Hd' & Hko' & Heq)].
  - by exists data, ko.
  - rewrite Heq. simpl. eexists _, ko'. rewrite loadScoreboard_save.
    split; [done|]. split; [done|].
    rewrite Hd in Hd'. injection Hd' as <-.
    by eapply (seeded_from_update fs tid data ko p ko').
Qed.

(** X7.  Whatever knockout results are submitted after a bracket has been
    seeded with four non-empty team names, in any order and any number of
    times, the semi-finals stay the seeded pairings, each semi-final's winner
    is null or one of its two teams, the final's home is null or a team of
    sf1 and its away null or a team of sf2, and the champion (the final's
    winner) is null or one of the two finalists. *)
Theorem knockout_stays_seeded tid ps fs data t1 t2 t3 t4 :
  t1 ≠ ""%string → t2 ≠ ""%string → t3 ≠ ""%string → t4 ≠ ""%string →
  loadScoreboard fs tid = Some data →
  knockout data
  = Some (mkKnockout (emptyMatch "sf1" (Some t1) (Some t4),
                      emptyMatch "sf2" (Some t2) (Some t3))
                     (emptyMatch "final" None None)) →
  ∃ data' ko,
    loadScoreboard (knockout_all tid ps fs) tid = Some data'
    ∧ knockout data' = Some ko
    ∧ seeded_from t1 t2 t3 t4 ko
    ∧ (k_winner (final ko) = None
       ∨ ∃ t, k_winner (final ko) = Some t ∧ t ∈ [t1; t2; t3; t4]).
Proof.
  intros H1 H2 H3 H4 Hd Hko.
  destruct (seeded_from_knockout_all tid ps fs t1 t2 t3 t4 H1 H2 H3 H4)
    as (data' & ko & Hd' & Hko' & Hs).
  { eexists _, _. split; [exact Hd|]. split; [exact Hko|].
    apply seeded_from_fresh. }
  exists data', ko. split; [done|]. split; [done|]. split; [done|].
  destruct Hs as (_ & _ & _ & _ & _ & _ & _ & _ & _ & Hf).
  destruct Hf as [(_ & _ & ->)|(Hfh & Hfa & Hw)]; [by left|].
  destruct Hw as [-> | [-> | ->]]; [by left| |].
  - right. destruct Hfh as [Hx|Hx]; rewrite Hx; eexists; (split; [done|]);
      apply list_elem_of_In; simpl; auto.
  - right. destruct Hfa as [Hx|Hx]; rewrite Hx; eexists; (split; [done|]);
      apply list_elem_of_In; simpl; auto.
Qed.

Lemma knockout_stays_seeded_witness :
  let ps := [ mkKnockoutPayload (Some "final"%string) "1" "0";
              mkKnockoutPayload (Some "sf1"%string) "0" "2";
              mkKnockoutPayload (Some "sf2"%string) "1" "1";
              mkKnockoutPayload (Some "sf1"%string) "3" "0";
              mkKnockoutPayload (Some "final"%string) "0" "1" ] in
  ∃ data' ko,
    loadScoreboard (knockout_all "cup" ps cup4_seeded) "cup" = Some data'
    ∧ knockout data' = Some ko
    ∧ seeded_from "Ajax" "Bayern" "Celtic" "Dynamo" ko
    ∧ (k_winner (final ko) = None
       ∨ ∃ t, k_winner (final ko) = Some t
              ∧ t ∈ ["Ajax"; "Bayern"; "Celtic"; "Dynamo"]%string).
Proof.
  intros ps.
  eapply (knockout_stays_seeded "cup" ps cup4_seeded _
            "Ajax" "Bayern" "Celtic" "Dynamo").
  - discriminate.
  - discriminate.
  - discriminate.
  - discriminate.
  - vm_compute; reflexivity.
  - reflexivity.
Defined.

(** ** The recomputed standings: logos, keys, bounds *)

Lemma obj_get_preserved_logos t (sb : list (string * TeamRecord)) :
  t ≠ proto_key →
  obj_get t (preserved_logos sb) = carried_logo sb t.
Proof.
  intros Hproto. unfold preserved_logos.
  cut (∀ (l : list string) (acc : list (string * string)),
    obj_get t (fold_left (λ logos t0,
      match obj_get t0 sb with
      | Some rec =>
          match logo rec with
          | Some l0 => if str_truthy l0 then obj_set t0 l0 logos else logos
          | None => logos
          end
      | None => logos
      end) l acc)
    = if bool_decide (t ∈ l ∧ is_Some (carried_logo sb t))
      then carried_logo sb t else obj_get t acc).
  { intros H. rewrite H. case_bool_decide as Hc; [done|]. simpl.
    destruct (carried_logo sb t) as [lg|] eqn:Hlg; [|done].
    exfalso. apply Hc. split; [|done].
    apply obj_get_Some_keys. unfold carried_logo in Hlg.
    by destruct (obj_get t sb). }
  induction l as [|x l IH]; intros acc; simpl.
  - done.
  - rewrite IH. clear IH.
    destruct (decide (t ∈ l ∧ is_Some (carried_logo sb t))) as [[Hin Hs]|Hn].
    { rewrite !bool_decide_true; [done|split; [by right|done]|done]. }
    rewrite (bool_decide_false _ Hn).
    destruct (decide (t = x)) as [->|Hne].
    + unfold carried_logo.
      destruct (obj_get x sb) as [rec|]; simpl.
      2:{ rewrite bool_decide_false; [done|]. by intros [_ [? ?]]. }
      destruct (logo rec) as [l0|]; simpl.
      2:{ rewrite bool_decide_false; [done|]. by intros [_ [? ?]]. }
      unfold str_truthy. case_bool_decide as Hl0; simpl.
      { rewrite bool_decide_false; [done|]. by intros [_ [? ?]]. }
      rewrite bool_decide_true by (split; [by left|done]).
      rewrite obj_get_set by done. by rewrite decide_True.
    + rewrite bool_decide_false.
      2:{ intros [[?|?]%elem_of_cons ?]; [done|]. by apply Hn. }
      destruct (obj_get x sb) as [rec|]; [|done].
      destruct (logo rec) as [l0|]; [|done].
      destruct (str_truthy l0); [|done].
      by rewrite obj_get_set_ne.
Qed.

Lemma logo_or_null_preserved t (sb : list (string * TeamRecord)) :
  t ≠ proto_key →
  logo_or_null (preserved_logos sb) t = carried_logo sb t.
Proof.
  intros Hproto. unfold logo_or_null. rewrite obj_get_preserved_logos by done.
  destruct (carried_logo sb t) as [l|] eqn:Hl; [|done].
  unfold carried_logo in Hl. destruct (obj_get t sb) as [rec|]; [|done].
  simpl in Hl. destruct (logo rec) as [l0|]; [|done]. simpl in Hl.
  unfold str_truthy in *. case_bool_decide; [done|]. simpl in Hl.
  injection Hl as <-. by rewrite bool_decide_false.
Qed.

(** X8.  A successful upsert carries the logo of every team over from the
    scoreboard it replaces: a team keeps its non-empty logo, and a team that
    had no record, or a null or empty logo, has a null logo. *)
Theorem upsert_keeps_logos fs tid data p d' fs' :
  loadScoreboard fs tid = Some data →
  updateMatchResult fs tid p = (Ok d', fs') →
  ∀ team rec, obj_get team (scoreboard d') = Some rec →
    logo rec = carried_logo (scoreboard data) team.
Proof.
  intros Hd (d0 & h & a & Hd0 & _ & _ & _ & _ & _ & _ & _ & -> & _)%updateMatchResult_Ok.
  rewrite Hd in Hd0. injection Hd0 as <-.
  intros team rec. simpl. rewrite obj_get_recompute.
  case_bool_decide as Hin; [|done]. intros [= <-].
  rewrite logo_team_tally. apply logo_or_null_preserved, Hin.
Qed.

Lemma upsert_keeps_logos_witness :
  ∃ d' fs',
    updateMatchResult cup_logos "cup" (submit "m1" "Ajax" "Zenit" "1" "0")
    = (Ok d', fs')
    ∧ (logo <$> obj_get "Ajax" (scoreboard d')) = Some (Some "/uploads/cup/ajax.png"%string)
    ∧ (logo <$> obj_get "Bayern" (scoreboard d')) = Some None
    ∧ (logo <$> obj_get "Zenit" (scoreboard d')) = Some None
    ∧ ∀ team rec, obj_get team (scoreboard d') = Some rec →
        logo rec = carried_logo (scoreboard cup_logos_data) team.
Proof.
  eexists _, _. split; [vm_compute; reflexivity|].
  split; [reflexivity|]. split; [reflexivity|]. split; [reflexivity|].
  eapply (upsert_keeps_logos cup_logos "cup" cup_logos_data
            (submit "m1" "Ajax" "Zenit" "1" "0")).
  - vm_compute; reflexivity.
  - vm_compute; reflexivity.
Defined.

(** *** Keys *)

Lemma obj_keys_modify {V} k (f : V → V) (o : list (string * V)) :
  obj_keys (obj_modify k f o) = obj_keys o.
Proof.
  unfold obj_keys. induction o as [|[k' v] o IH]; [done|].
  simpl obj_modify. destruct (decide (k = k')); [done|].
  rewrite !fmap_cons. by rewrite IH.
Qed.

Lemma obj_keys_insert_new {V} k (v : V) (o : list (string * V)) :
  obj_keys (obj_insert_new k v o) ≡ₚ k :: obj_keys o.
Proof.
  unfold obj_keys. induction o as [|[k' v'] o IH]; [done|].
  simpl obj_insert_new. destruct (key_before k k'); [done|].
  rewrite !fmap_cons. rewrite IH. apply Permutation_swap.
Qed.

Lemma NoDup_keys_set {V} k (v : V) (o : list (string * V)) :
  NoDup (obj_keys o) → NoDup (obj_keys (obj_set k v o)).
Proof.
  intros Hnd. unfold obj_set. destruct (obj_get k o) eqn:Hk.
  - by rewrite obj_keys_modify.
  - destruct (decide (k = proto_key)); [done|].
    rewrite obj_keys_insert_new. apply NoDup_cons. split; [|done].
    intros Hin%obj_get_Some_keys. rewrite Hk in Hin. by destruct Hin.
Qed.

Lemma obj_keys_run_updates us sb : obj_keys (run_updates us sb) = obj_keys sb.
Proof.
  unfold run_updates. revert sb. induction us as [|u us IH]; intros sb; simpl;
    [done|]. by rewrite IH, obj_keys_modify.
Qed.

Lemma NoDup_keys_ensureTeam team sb :
  NoDup (obj_keys sb) → NoDup (obj_keys (ensureTeam team sb)).
Proof.
  intros Hnd. unfold ensureTeam. destruct (obj_get team sb); [done|].
  by apply NoDup_keys_set.
Qed.

Lemma obj_keys_applyMatchResult sb home away hs as_ :
  obj_keys (applyMatchResult sb home away hs as_)
  = obj_keys (ensureTeam away (ensureTeam home sb)).
Proof.
  unfold applyMatchResult. repeat case_bool_decide; by rewrite !obj_keys_run_updates.
Qed.

Lemma NoDup_keys_createInitialScoreboard teams logos :
  NoDup (obj_keys (createInitialScoreboard teams logos)).
Proof.
  unfold createInitialScoreboard.
  cut (∀ sb0 : list (string * TeamRecord), NoDup (obj_keys sb0) →
    NoDup (obj_keys (fold_left (λ sb team,
      obj_set team (zeroRecord (logo_or_null logos team)) sb) teams sb0))).
  { intros H. apply H. apply NoDup_nil_2. }
  induction teams as [|x teams IH]; intros sb0 H0; simpl; [done|].
  apply IH. by apply NoDup_keys_set.
Qed.

Lemma NoDup_keys_apply_all rs sb :
  NoDup (obj_keys sb) → NoDup (obj_keys (apply_all rs sb)).
Proof.
  revert sb. induction rs as [|r rs IH]; intros sb Hnd; simpl; [done|].
  apply IH. rewrite obj_keys_applyMatchResult.
  by apply NoDup_keys_ensureTeam, NoDup_keys_ensureTeam.
Qed.

Lemma NoDup_keys_recompute sb rs : NoDup (obj_keys (recompute sb rs)).
Proof.
  unfold recompute. fold (apply_all rs).
  apply NoDup_keys_apply_all, NoDup_keys_createInitialScoreboard.
Qed.

(** X9.  After a successful upsert the stored scoreboard is an object with
    distinct keys, and its teams are exactly the teams of the scoreboard it
    replaces together with the home and away teams of the new ledger, the
    name __proto__ apart, which is never a key of the new scoreboard: no
    other team is ever dropped from the standings. *)
Theorem upsert_standings_teams fs tid data p d' fs' :
  loadScoreboard fs tid = Some data →
  updateMatchResult fs tid p = (Ok d', fs') →
  NoDup (obj_keys (scoreboard d'))
  ∧ ∀ team, team ∈ obj_keys (scoreboard d')
      ↔ team ≠ proto_key
        ∧ (team ∈ obj_keys (scoreboard data)
           ∨ ∃ r, r ∈ default [] (results d')
                  ∧ (team = r_home r ∨ team = r_away r)).
Proof.
  intros Hd (d0 & h & a & Hd0 & _ & _ & _ & _ & _ & _ & _ & -> & _)%updateMatchResult_Ok.
  rewrite Hd in Hd0. injection Hd0 as <-. simpl.
  split; [apply NoDup_keys_recompute|].
  intros team. rewrite <- obj_get_Some_keys, obj_get_recompute.
  case_bool_decide as Hin.
  - split; [intros _|by eauto]. destruct Hin as [Hin Hproto].
    split; [done|].
    apply elem_of_app in Hin as [?|Hin]; [by left|right].
    apply list_elem_of_In, in_flat_map in Hin as (r & Hr & Ht).
    exists r. split; [by apply list_elem_of_In|].
    destruct Ht as [<-|[<-|[]]]; auto.
  - split; [by intros [? ?]|]. intros [Hproto Hor]. exfalso. apply Hin.
    split; [|done].
    apply elem_of_app. destruct Hor as [?|(r & Hr & Ht)]; [by left|right].
    apply list_elem_of_In, in_flat_map. exists r.
    split; [by apply list_elem_of_In|]. simpl. destruct Ht as [->| ->]; auto.
Qed.

Lemma upsert_standings_teams_witness :
  ∃ d' fs',
    updateMatchResult cup4_played "cup" (submit "friendly" "Xerez" "Ajax" "5" "5")
    = (Ok d', fs')
    ∧ obj_keys (scoreboard d')
      = ["Ajax"; "Bayern"; "Celtic"; "Dynamo"; "Xerez"]%string
    ∧ NoDup (obj_keys (scoreboard d')).
Proof.
  eexists _, _. split; [vm_compute; reflexivity|]. split; [reflexivity|].
  eapply (upsert_standings_teams cup4_played "cup" _
            (submit "friendly" "Xerez" "Ajax" "5" "5")).
  - vm_compute; reflexivity.
  - vm_compute; reflexivity.
Defined.

(** ** The recomputed standings: bounds and totals *)

Lemma tally_from_invariant (P : TeamRecord → Prop) t rs r0 :
  P r0 →
  (∀ r x, r ∈ rs → P x → P (tally_step t r x)) →
  P (tally_from t rs r0).
Proof.
  unfold tally_from. revert r0.
  induction rs as [|r rs IH]; intros r0 H0 Hstep; simpl; [done|].
  apply IH.
  - apply Hstep; [by left|done].
  - intros r' x Hr'. apply Hstep. by right.
Qed.

Lemma scores_nonneg_remove_first P rs :
  scores_nonneg rs → scores_nonneg (remove_first P rs).
Proof.
  unfold scores_nonneg. rewrite !Forall_forall.
  intros H r Hr. apply H. by eapply elem_of_remove_first.
Qed.

(** X10.  After a successful upsert no counter of any team is negative and
    no team has more than three points per match played; when the scores of
    the ledger being replaced are non-negative and the arithmetic on the new
    ledger is exact, the scores of the new ledger and every team's goals for
    and against are non-negative too. *)
Theorem upsert_counters_bounded fs tid data p d' fs' :
  loadScoreboard fs tid = Some data →
  updateMatchResult fs tid p = (Ok d', fs') →
  (∀ team rec, obj_get team (scoreboard d') = Some rec →
     0 ≤ wins rec ∧ 0 ≤ draws rec ∧ 0 ≤ losses rec ∧ 0 ≤ played rec
     ∧ 0 ≤ points rec ≤ 3 * played rec)
  ∧ (scores_nonneg (default [] (results data)) →
     exact_ledger (default [] (results d')) →
     scores_nonneg (default [] (results d'))
     ∧ ∀ team rec, obj_get team (scoreboard d') = Some rec →
         0 ≤ goalsFor rec ∧ 0 ≤ goalsAgainst rec).
Proof.
  intros Hd (d0 & h & a & Hd0 & _ & _ & _ & _ & _ & Hh & Ha & -> & _)%updateMatchResult_Ok.
  rewrite Hd in Hd0. injection Hd0 as <-. simpl. split.
  - intros team rec. rewrite obj_get_recompute.
    case_bool_decide; [|done]. intros [= <-].
    rewrite team_tally_from. apply tally_from_invariant.
    + simpl. lia.
    + intros r x _. unfold tally_step, tally_side.
      repeat case_decide; simpl; repeat case_bool_decide; lia.
  - intros Hold _.
    assert (scores_nonneg
      (match results data with
       | Some rs => remove_first (λ r, bool_decide (r_id r = match_id p)) rs
       | None => []
       end ++ [mkMatchResult (match_id p) (p_home p) (p_away p) h a])) as Hnew.
    { apply Forall_app. split; [|by apply Forall_singleton].
      destruct (results data); [|by apply Forall_nil].
      by apply scores_nonneg_remove_first. }
    split; [done|].
    intros team rec. rewrite obj_get_recompute.
    case_bool_decide; [|done]. intros [= <-].
    rewrite team_tally_from. apply tally_from_invariant.
    + simpl. lia.
    + intros r x Hr. unfold scores_nonneg in Hnew.
      rewrite Forall_forall in Hnew. specialize (Hnew r Hr).
      unfold tally_step, tally_side. repeat case_decide; simpl; lia.
Qed.

Lemma upsert_counters_bounded_witness :
  ∃ d' fs',
    updateMatchResult cup4_played "cup" (submit "r0-m0" "Ajax" "Dynamo" "0" "4")
    = (Ok d', fs')
    ∧ scores_nonneg (default [] (results d'))
    ∧ ∀ team rec, obj_get team (scoreboard d') = Some rec →
        0 ≤ goalsFor rec ∧ 0 ≤ goalsAgainst rec.
Proof.
  eexists _, _. split; [vm_compute; reflexivity|].
  refine (proj2 (upsert_counters_bounded cup4_played "cup"
            (default (mkData [] None None) (loadScoreboard cup4_played "cup"))
            (submit "r0-m0" "Ajax" "Dynamo" "0" "4") _ _ _ _) _ _).
  - vm_compute; reflexivity.
  - vm_compute; reflexivity.
  - unfold scores_nonneg. apply (bool_decide_unpack _). vm_compute. exact I.
  - unfold exact_ledger. apply (bool_decide_unpack _). vm_compute. exact I.
Defined.

(** *** Totals *)

Lemma sum_over_ext g g' ks :
  (∀ k, k ∈ ks → g k = g' k) → sum_over g ks = sum_over g' ks.
Proof.
  induction ks as [|k ks IH]; intros H; simpl; [done|].
  rewrite (H k) by by left. rewrite IH; [done|].
  intros k' ?. apply H. by right.
Qed.

Lemma sum_over_add g h ks :
  sum_over (λ k, g k + h k) ks = sum_over g ks + sum_over h ks.
Proof. induction ks as [|k ks IH]; simpl; lia. Qed.

Lemma sum_over_absent t c ks :
  t ∉ ks → sum_over (λ k, if decide (k = t) then c else 0) ks = 0.
Proof.
  induction ks as [|k ks IH]; intros Hn; simpl; [done|].
  rewrite decide_False by (intros ->; apply Hn; by left).
  rewrite IH; [done|]. intros ?. apply Hn. by right.
Qed.

Lemma sum_over_single t c ks :
  NoDup ks → t ∈ ks → sum_over (λ k, if decide (k = t) then c else 0) ks = c.
Proof.
  induction ks as [|k ks IH]; intros Hnd Hin; [by apply elem_of_nil in Hin|].
  apply NoDup_cons in Hnd as [Hk Hnd]. simpl.
  destruct (decide (k = t)) as [->|Hne].
  - rewrite sum_over_absent by done. lia.
  - rewrite IH; [lia|done|]. apply elem_of_cons in Hin as [->|?]; done.
Qed.

Lemma obj_get_head_absent {V} k (o : list (string * V)) :
  k ∉ obj_keys o → obj_get k o = None.
Proof.
  intros Hn. destruct (obj_get k o) eqn:E; [|done].
  exfalso. apply Hn, obj_get_Some_keys. by rewrite E.
Qed.

Lemma table_sum_lookup F (sb : list (string * TeamRecord)) :
  NoDup (obj_keys sb) →
  table_sum F sb
  = sum_over (λ k, from_option F 0 (obj_get k sb)) (obj_keys sb).
Proof.
  unfold obj_keys. induction sb as [|[k v] sb IH]; intros Hnd; [done|].
  rewrite fmap_cons in Hnd. apply NoDup_cons in Hnd as [Hk Hnd].
  rewrite fmap_cons. simpl. rewrite decide_True by done. simpl.
  rewrite IH by done. f_equal. apply sum_over_ext.
  intros k' Hk'. rewrite decide_False; [done|]. by intros ->.
Qed.

Lemma ledger_sum_snoc c rs r : ledger_sum c (rs ++ [r]) = ledger_sum c rs + c r.
Proof. induction rs as [|r' rs IH]; simpl; lia. Qed.

Lemma ledger_sum_ext c c' rs :
  (∀ r, c r = c' r) → ledger_sum c rs = ledger_sum c' rs.
Proof. intros H. induction rs as [|r rs IH]; simpl; [done|]. by rewrite H, IH. Qed.

Lemma ledger_sum_const n rs :
  ledger_sum (λ _, n) rs = n * Z.of_nat (length rs).
Proof. induction rs as [|r rs IH]; simpl length; simpl ledger_sum; lia. Qed.

Section Totals.
Variable F : TeamRecord → Z.
Variables c1 c2 : MatchResult → Z.
Hypothesis F_zero : ∀ lg, F (zeroRecord lg) = 0.
Hypothesis F_home : ∀ r x,
  F (tally_side (r_homeScore r) (r_awayScore r) x) = F x + c1 r.
Hypothesis F_away : ∀ r x,
  F (tally_side (r_awayScore r) (r_homeScore r) x) = F x + c2 r.

Lemma column_tally_step k r x :
  F (tally_step k r x)
  = F x + (if decide (k = r_home r) then c1 r else 0)
        + (if decide (k = r_away r) then c2 r else 0).
Proof.
  unfold tally_step. repeat case_decide; rewrite ?F_away, ?F_home; lia.
Qed.

Lemma column_total_tally (lg : string → option string) ks rs :
  NoDup ks →
  (∀ r, r ∈ rs → r_home r ∈ ks ∧ r_away r ∈ ks) →
  sum_over (λ k, F (team_tally k rs (lg k))) ks
  = ledger_sum (λ r, c1 r + c2 r) rs.
Proof.
  intros Hnd. induction rs as [|r rs IH] using rev_ind; intros Hin.
  - simpl. rewrite (sum_over_ext _ (λ k, if decide (k = ""%string) then 0 else 0)).
    + clear. induction ks as [|k ks IH]; simpl; [done|]. case_decide; lia.
    + intros k _. rewrite F_zero. by case_decide.
  - rewrite ledger_sum_snoc, <- IH.
    2:{ intros r' Hr'. apply Hin, elem_of_app. by left. }
    destruct (Hin r) as [Hh Ha]; [apply elem_of_app; right; by left|].
    pose proof (sum_over_single (r_home r) (c1 r) ks Hnd Hh) as E1.
    pose proof (sum_over_single (r_away r) (c2 r) ks Hnd Ha) as E2.
    transitivity
      (sum_over (λ k, F (team_tally k rs (lg k))) ks
       + sum_over (λ k, if decide (k = r_home r) then c1 r else 0) ks
       + sum_over (λ k, if decide (k = r_away r) then c2 r else 0) ks);
      [|rewrite E1, E2; lia].
    clear E1 E2. rewrite <- !sum_over_add.
    apply sum_over_ext. intros k _.
    rewrite !team_tally_from, tally_from_app. simpl.
    apply column_tally_step.
Qed.

Lemma column_total_recompute sb rs :
  plain_teams rs →
  table_sum F (recompute sb rs) = ledger_sum (λ r, c1 r + c2 r) rs.
Proof.
  intros Hplain. unfold plain_teams in Hplain. rewrite Forall_forall in Hplain.
  rewrite table_sum_lookup by apply NoDup_keys_recompute.
  rewrite <- (column_total_tally
    (λ k, logo_or_null (preserved_logos sb) k) (obj_keys (recompute sb rs)) rs).
  - apply sum_over_ext. intros k Hk. rewrite obj_get_recompute.
    case_bool_decide as Hin; [done|].
    apply obj_get_Some_keys in Hk as [x Hx].
    rewrite obj_get_recompute, bool_decide_false in Hx by done. done.
  - apply NoDup_keys_recompute.
  - intros r Hr. destruct (Hplain r Hr) as [Hph Hpa].
    split; apply obj_get_Some_keys; rewrite obj_get_recompute;
      (rewrite bool_decide_true; [done|]); (split; [|done]);
      apply elem_of_app; right;
      apply list_elem_of_In, in_flat_map; exists r;
      (split; [by apply list_elem_of_In|]); simpl; auto.
Qed.

End Totals.

(** X11.  The totals of the table after a successful upsert, when no team of
    the new ledger is named __proto__ and the arithmetic on it is exact: the
    matches played add up to twice the number of results in the ledger, the
    goals for and the goals against both add up to all goals of the ledger,
    the wins and the losses both add up to the number of results that are not
    draws, the draws add up to twice the number of drawn results, and the
    goal differences add up to zero. *)
Theorem upsert_table_totals fs tid p d' fs' :
  updateMatchResult fs tid p = (Ok d', fs') →
  plain_teams (default [] (results d')) →
  exact_ledger (default [] (results d')) →
  let rs := default [] (results d') in
  let sb := scoreboard d' in
  let drawn r := if bool_decide (r_homeScore r = r_awayScore r) then 1 else 0 in
  table_sum played sb = 2 * Z.of_nat (length rs)
  ∧ table_sum goalsFor sb = ledger_sum (λ r, r_homeScore r + r_awayScore r) rs
  ∧ table_sum goalsAgainst sb = table_sum goalsFor sb
  ∧ table_sum wins sb = ledger_sum (λ r, 1 - drawn r) rs
  ∧ table_sum losses sb = table_sum wins sb
  ∧ table_sum draws sb = 2 * ledger_sum drawn rs
  ∧ table_sum goalDifference sb = 0.
Proof.
  intros (d0 & h & a & _ & _ & _ & _ & _ & _ & _ & _ & -> & _)%updateMatchResult_Ok.
  simpl. set (rs := _ ++ [_]). clearbody rs. intros Hplain _.
  assert (table_sum played (recompute (scoreboard d0) rs) = 2 * Z.of_nat (length rs))
    as Hplayed.
  { rewrite (column_total_recompute played (λ _, 1) (λ _, 1)) by done.
    apply (ledger_sum_const 2). }
  assert (table_sum goalsFor (recompute (scoreboard d0) rs)
          = ledger_sum (λ r, r_homeScore r + r_awayScore r) rs) as Hgf.
  { by rewrite (column_total_recompute goalsFor r_homeScore r_awayScore). }
  assert (table_sum goalsAgainst (recompute (scoreboard d0) rs)
          = ledger_sum (λ r, r_homeScore r + r_awayScore r) rs) as Hga.
  { rewrite (column_total_recompute goalsAgainst r_awayScore r_homeScore) by done.
    apply ledger_sum_ext. intros r. lia. }
  assert (table_sum wins (recompute (scoreboard d0) rs)
          = ledger_sum (λ r, 1 - (if bool_decide (r_homeScore r = r_awayScore r)
                                  then 1 else 0)) rs) as Hw.
  { rewrite (column_total_recompute wins
      (λ r, if bool_decide (r_homeScore r > r_awayScore r) then 1 else 0)
      (λ r, if bool_decide (r_awayScore r > r_homeScore r) then 1 else 0)) by done.
    apply ledger_sum_ext. intros r. repeat case_bool_decide; lia. }
  assert (table_sum losses (recompute (scoreboard d0) rs)
          = ledger_sum (λ r, 1 - (if bool_decide (r_homeScore r = r_awayScore r)
                                  then 1 else 0)) rs) as Hl.
  { rewrite (column_total_recompute losses
      (λ r, if bool_decide (r_homeScore r < r_awayScore r) then 1 else 0)
      (λ r, if bool_decide (r_awayScore r < r_homeScore r) then 1 else 0)) by done.
    apply ledger_sum_ext. intros r. repeat case_bool_decide; lia. }
  assert (table_sum draws (recompute (scoreboard d0) rs)
          = 2 * ledger_sum (λ r, if bool_decide (r_homeScore r = r_awayScore r)
                                 then 1 else 0) rs) as Hdr.
  { rewrite (column_total_recompute draws
      (λ r, if bool_decide (r_homeScore r = r_awayScore r) then 1 else 0)
      (λ r, if bool_decide (r_awayScore r = r_homeScore r) then 1 else 0)) by done.
    clear. induction rs as [|r rs IH]; simpl; [done|].
    rewrite IH. repeat case_bool_decide; lia. }
  assert (table_sum goalDifference (recompute (scoreboard d0) rs) = 0) as Hgd.
  { assert (∀ sb, standings_ok sb → NoDup (obj_keys sb) →
        table_sum goalDifference sb = table_sum goalsFor sb - table_sum goalsAgainst sb)
      as Hsum.
    { clear. unfold obj_keys. induction sb as [|[k v] sb IH]; intros Hok Hnd; [done|].
      rewrite fmap_cons in Hnd. apply NoDup_cons in Hnd as [Hk Hnd]. simpl.
      rewrite IH; [|intros t rec Ht|done].
      - destruct (Hok k v) as (_ & -> & _); [simpl; by rewrite decide_True|]. lia.
      - apply (Hok t). simpl. rewrite decide_False; [done|]. intros ->.
        apply Hk. change (k ∈ obj_keys sb). apply obj_get_Some_keys. by rewrite Ht. }
    rewrite Hsum, Hgf, Hga; [lia|apply recompute_ok|apply NoDup_keys_recompute]. }
  rewrite Hga, Hl. done.
Qed.

Lemma upsert_table_totals_witness :
  ∃ d' fs',
    updateMatchResult cup4_played "cup" (submit "r0-m0" "Ajax" "Dynamo" "2" "2")
    = (Ok d', fs')
    ∧ table_sum played (scoreboard d') = 12
    ∧ table_sum goalsAgainst (scoreboard d') = table_sum goalsFor (scoreboard d')
    ∧ table_sum losses (scoreboard d') = table_sum wins (scoreboard d')
    ∧ table_sum goalDifference (scoreboard d') = 0.
Proof.
  eexists _, _. split; [vm_compute; reflexivity|].
  split; [reflexivity|].
  pose proof (upsert_table_totals cup4_played "cup"
                (submit "r0-m0" "Ajax" "Dynamo" "2" "2") _ _
                ltac:(vm_compute; reflexivity)
                ltac:(unfold plain_teams; apply (bool_decide_unpack _);
                      vm_compute; exact I)
                ltac:(unfold exact_ledger; apply (bool_decide_unpack _);
                      vm_compute; exact I)) as H.
  cbv zeta in H. destruct H as (_ & _ & Hga & _ & Hl & _ & Hgd).
  split; [exact Hga|]. split; [exact Hl|exact Hgd].
Defined.

(** ** The round-robin of generateSchedule *)

Lemma elem_of_round_matches n r P f :
  f ∈ round_matches n r P
  ↔ ∃ i, (2 * i < n)%nat
      ∧ truthy (js_nth P i) = true ∧ truthy (js_nth P (n - 1 - i)) = true
      ∧ f = mkFixture (fixture_id r i) (js_nth P i) (js_nth P (n - 1 - i)).
Proof.
  unfold round_matches. rewrite list_elem_of_In, in_flat_map.
  assert (∀ i, In i (seq 0 ((n + 1) / 2)) ↔ (2 * i < n)%nat) as Hseq.
  { intros i. rewrite in_seq.
    pose proof (Nat.div_mod_eq (n + 1) 2).
    pose proof (Nat.mod_upper_bound (n + 1) 2). lia. }
  split.
  - intros (i & Hi%Hseq & Hf). exists i. split; [done|].
    destruct (truthy (js_nth P i)); [|destruct Hf].
    destruct (truthy (js_nth P (n - 1 - i))); [|destruct Hf].
    destruct Hf as [<-|[]]. done.
  - intros (i & Hi%Hseq & H1 & H2 & ->). exists i. split; [done|].
    rewrite H1, H2. by left.
Qed.

Lemma generateSchedule_lookup teams r round :
  generateSchedule teams !! r = Some round
  ↔ (r < length (pad teams) - 1)%nat
    ∧ round = round_matches (length (pad teams)) r (Nat.iter r rotate (pad teams)).
Proof.
  unfold generateSchedule. split.
  - intros H. split.
    + apply lookup_lt_Some in H. by rewrite length_rounds_from in H.
    + by apply rounds_from_lookup in H.
  - intros [Hr ->].
    destruct (lookup_lt_is_Some_2
                (rounds_from (length (pad teams) - 1) (length (pad teams)) 0 (pad teams)) r)
      as [round Hround]; [by rewrite length_rounds_from|].
    rewrite Hround. f_equal. by apply rounds_from_lookup in Hround.
Qed.

Lemma NoDup_pad teams : NoDup teams → NoDup (pad teams).
Proof.
  intros Hnd. unfold pad.
  assert (NoDup (Some <$> teams)) as H by (apply NoDup_fmap; [apply _|done]).
  case_bool_decide; [|done].
  apply NoDup_app. split; [done|]. split; [|apply NoDup_singleton].
  intros x (t & -> & _)%list_elem_of_fmap [=]%list_elem_of_singleton.
Qed.

Lemma truthy_js_nth (P : list (option string)) i :
  truthy (js_nth P i) = true →
  ∃ t, t ≠ ""%string ∧ P !! i = Some (Some t) ∧ js_nth P i = Some t.
Proof.
  unfold js_nth. destruct (P !! i) as [[t|]|]; simpl; try done.
  unfold str_truthy. case_bool_decide; [done|]. intros _. by exists t.
Qed.

(** The sides of the fixture of slot [i] in round [r], as positions of the
    participants before the first round. *)
Lemma fixture_sides teams r round f :
  generateSchedule teams !! r = Some round → f ∈ round →
  ∃ k i h a,
    length (pad teams) = (2 * k + 2)%nat ∧ (r < 2 * k + 1)%nat ∧ (i ≤ k)%nat
    ∧ f = mkFixture (fixture_id r i) (Some h) (Some a)
    ∧ pad teams !! orig_index (2 * k + 1) r i = Some (Some h)
    ∧ pad teams !! orig_index (2 * k + 1) r (2 * k + 1 - i) = Some (Some a).
Proof.
  intros [Hr ->]%generateSchedule_lookup
    (i & Hi & (h & _ & Hh & Hh')%truthy_js_nth & (a & _ & Ha & Ha')%truthy_js_nth & ->)%elem_of_round_matches.
  pose proof (length_pad_even teams) as Heven.
  pose proof (Nat.div_mod_eq (length (pad teams)) 2) as Hdiv.
  rewrite Heven in Hdiv.
  set (n := length (pad teams)) in *.
  destruct (n `div` 2)%nat as [|k] eqn:Hk; [lia|].
  exists k, i, h, a.
  destruct (iter_rotate_lookup r (pad teams)) as [_ HP]; [fold n; lia|fold n; lia|].
  fold n in HP. replace (n - 1)%nat with (2 * k + 1)%nat in * by lia.
  split; [lia|]. split; [lia|]. split; [lia|].
  split; [by rewrite Hh', Ha'|].
  rewrite <- !HP by lia. done.
Qed.

Lemma slots_apart k r1 i1 r2 i2 :
  let m := (2 * k + 1)%nat in
  (r1 < m)%nat → (r2 < m)%nat → (i1 ≤ k)%nat → (i2 ≤ k)%nat →
  (orig_index m r1 i1 = orig_index m r2 i2
   ∧ orig_index m r1 (m - i1) = orig_index m r2 (m - i2))
  ∨ (orig_index m r1 i1 = orig_index m r2 (m - i2)
     ∧ orig_index m r1 (m - i1) = orig_index m r2 i2) →
  r1 = r2 ∧ i1 = i2.
Proof.
  intros m Hr1 Hr2 Hi1 Hi2. unfold orig_index, m.
  repeat case_decide; lia.
Qed.

Lemma slot_exists k u v :
  let m := (2 * k + 1)%nat in
  (u < v)%nat → (v ≤ m)%nat →
  ∃ r i, (r < m)%nat ∧ (i ≤ k)%nat
    ∧ ((orig_index m r i = u ∧ orig_index m r (m - i) = v)
       ∨ (orig_index m r i = v ∧ orig_index m r (m - i) = u)).
Proof.
  intros m Huv Hv. unfold m in *.
  destruct (decide (u = 0)%nat) as [->|Hu].
  { exists (2 * k + 1 - v)%nat, 0%nat. unfold orig_index.
    repeat case_decide; lia. }
  destruct (Nat.Even_or_Odd (u + v)) as [[t Ht]|[t Ht]].
  - exists (2 * k + 1 - t)%nat, (v - t)%nat. unfold orig_index.
    repeat case_decide; lia.
  - destruct (decide (u + v ≤ 2 * k + 1)%nat).
    + exists (k - t)%nat, (u + k - t)%nat. unfold orig_index.
      repeat case_decide; lia.
    + exists (3 * k + 1 - t)%nat, (u + k - t)%nat. unfold orig_index.
      repeat case_decide; lia.
Qed.

(** X12.  When the team names are distinct, no two fixtures of the schedule
    pair the same two teams, in the same or in the opposite order: two
    fixtures with the same two teams are the same fixture of the same
    round. *)
Theorem generateSchedule_no_rematch teams r1 r2 round1 round2 f1 f2 :
  NoDup teams →
  generateSchedule teams !! r1 = Some round1 →
  generateSchedule teams !! r2 = Some round2 →
  f1 ∈ round1 → f2 ∈ round2 →
  pairs f1 (f_home f2) (f_away f2) →
  r1 = r2 ∧ f1 = f2.
Proof.
  intros Hnd%NoDup_pad Hr1 Hr2 Hf1 Hf2 Hpair.
  destruct (fixture_sides teams r1 round1 f1 Hr1 Hf1)
    as (k & i1 & h1 & a1 & Hn & Hk1 & Hi1 & -> & Hh1 & Ha1).
  destruct (fixture_sides teams r2 round2 f2 Hr2 Hf2)
    as (k' & i2 & h2 & a2 & Hn' & Hk2 & Hi2 & -> & Hh2 & Ha2).
  assert (k' = k) as -> by lia.
  destruct (slots_apart k r1 i1 r2 i2) as [-> ->]; try done.
  - destruct Hpair as [[[= ->] [= ->]]|[[= ->] [= ->]]]; [left|right];
      split; eapply NoDup_lookup; eauto.
  - split; [done|]. rewrite Hh1 in Hh2. rewrite Ha1 in Ha2.
    by injection Hh2 as ->; injection Ha2 as ->.
Qed.

Lemma generateSchedule_no_rematch_witness :
  let f := mkFixture "r0-m1" (Some "Bayern"%string) (Some "Everton"%string) in
  (0 = 0)%nat ∧ f = f.
Proof.
  intros f.
  apply (generateSchedule_no_rematch five_teams 0 0
           [f; mkFixture "r0-m2" (Some "Celtic"%string) (Some "Dynamo"%string)]
           [f; mkFixture "r0-m2" (Some "Celtic"%string) (Some "Dynamo"%string)]
           f f).
  - apply (bool_decide_unpack _). vm_compute. exact I.
  - vm_compute; reflexivity.
  - vm_compute; reflexivity.
  - by left.
  - by left.
  - by left.
Defined.

Lemma generateSchedule_meet_at teams u v a b :
  Forall (λ t, t ≠ ""%string) teams →
  teams !! u = Some a → teams !! v = Some b → u ≠ v →
  ∃ r round f,
    generateSchedule teams !! r = Some round ∧ f ∈ round
    ∧ pairs f (Some a) (Some b).
Proof.
  intros Hne Ha Hb Huv.
  assert (∀ t, t ∈ teams → t ≠ ""%string) as Hne'
    by (by apply Forall_forall).
  assert (∀ w t, teams !! w = Some t → pad teams !! w = Some (Some t)) as Hidx.
  { intros w t Hw. unfold pad.
    assert ((Some <$> teams) !! w = Some (Some t)) as H
      by (by rewrite list_lookup_fmap, Hw).
    case_bool_decide; [|done]. by apply lookup_app_l_Some. }
  pose proof (Hidx u a Ha) as Hu. pose proof (Hidx v b Hb) as Hv.
  pose proof (lookup_lt_Some _ _ _ Hu) as Hul.
  pose proof (lookup_lt_Some _ _ _ Hv) as Hvl.
  pose proof (length_pad_even teams) as Heven.
  pose proof (Nat.div_mod_eq (length (pad teams)) 2) as Hdiv.
  rewrite Heven in Hdiv.
  set (n := length (pad teams)) in *.
  destruct (n `div` 2)%nat as [|k] eqn:Hk; [lia|].
  assert (∃ r i, (r < 2 * k + 1)%nat ∧ (i ≤ k)%nat
    ∧ ((orig_index (2 * k + 1) r i = u
        ∧ orig_index (2 * k + 1) r (2 * k + 1 - i) = v)
       ∨ (orig_index (2 * k + 1) r i = v
          ∧ orig_index (2 * k + 1) r (2 * k + 1 - i) = u)))
    as (r & i & Hr & Hi & Hor).
  { destruct (decide (u < v)%nat).
    - apply slot_exists; lia.
    - destruct (slot_exists k v u) as (r & i & ? & ? & [?|?]); [lia|lia| |];
        exists r, i; auto. }
  destruct (iter_rotate_lookup r (pad teams)) as [_ HP]; [fold n; lia|fold n; lia|].
  fold n in HP. replace (n - 1)%nat with (2 * k + 1)%nat in HP by lia.
  exists r, (round_matches n r (Nat.iter r rotate (pad teams))),
    (mkFixture (fixture_id r i) (js_nth (Nat.iter r rotate (pad teams)) i)
       (js_nth (Nat.iter r rotate (pad teams)) (n - 1 - i))).
  split; [apply generateSchedule_lookup; split; [fold n; lia|reflexivity]|].
  assert (js_nth (Nat.iter r rotate (pad teams)) i
          = default None (pad teams !! orig_index (2 * k + 1) r i)) as E1
    by (unfold js_nth; rewrite HP by lia; done).
  assert (js_nth (Nat.iter r rotate (pad teams)) (n - 1 - i)
          = default None (pad teams !! orig_index (2 * k + 1) r (2 * k + 1 - i))) as E2.
  { unfold js_nth. rewrite HP by lia. by replace (n - 1 - i)%nat with (2 * k + 1 - i)%nat by lia. }
  assert (∀ w t, teams !! w = Some t → truthy (Some t) = true) as Htr.
  { intros w t Ht%list_elem_of_lookup_2. simpl. unfold str_truthy.
    rewrite bool_decide_false; [done|]. by apply Hne'. }
  split.
  - apply elem_of_round_matches. exists i. split; [lia|].
    rewrite E1, E2.
    destruct Hor as [[-> ->]|[-> ->]]; rewrite Hu, Hv; simpl;
      (split; [by eapply Htr|]); (split; [by eapply Htr|]); reflexivity.
  - rewrite E1, E2. unfold pairs. cbn [f_home f_away].
    destruct Hor as [[-> ->]|[-> ->]]; rewrite Hu, Hv; simpl; auto.
Qed.

(** X13.  When the team names are non-empty, every two different teams
    meet: the schedule has a round with a fixture that pairs them. *)
Theorem generateSchedule_all_meet teams a b :
  Forall (λ t, t ≠ ""%string) teams →
  a ∈ teams → b ∈ teams → a ≠ b →
  ∃ r round f,
    generateSchedule teams !! r = Some round ∧ f ∈ round
    ∧ pairs f (Some a) (Some b).
Proof.
  intros Hne [u Hu]%list_elem_of_lookup [v Hv]%list_elem_of_lookup Hab.
  apply (generateSchedule_meet_at teams u v); try done.
  intros ->. rewrite Hu in Hv. by injection Hv.
Qed.

Lemma generateSchedule_all_meet_witness :
  ∃ r round f,
    generateSchedule five_teams !! r = Some round ∧ f ∈ round
    ∧ pairs f (Some "Bayern"%string) (Some "Everton"%string).
Proof.
  apply (generateSchedule_all_meet five_teams "Bayern" "Everton").
  - apply (bool_decide_unpack _). vm_compute. exact I.
  - apply (bool_decide_unpack _). vm_compute. exact I.
  - apply (bool_decide_unpack _). vm_compute. exact I.
  - discriminate.
Defined.

Lemma orig_index_inj m r j1 j2 :
  (r < m)%nat → (j1 ≤ m)%nat → (j2 ≤ m)%nat →
  orig_index m r j1 = orig_index m r j2 → j1 = j2.
Proof. unfold orig_index. repeat case_decide; lia. Qed.

(** X14.  When the team names are distinct, every round is a matching: no
    fixture pairs a team with itself, and two fixtures of one round that have
    a team in common are the same fixture, so no team plays twice in a
    round. *)
Theorem generateSchedule_round_matching teams r round :
  NoDup teams →
  generateSchedule teams !! r = Some round →
  (∀ f, f ∈ round → f_home f ≠ f_away f)
  ∧ ∀ f1 f2 t, f1 ∈ round → f2 ∈ round →
      t ∈ [f_home f1; f_away f1] → t ∈ [f_home f2; f_away f2] → f1 = f2.
Proof.
  intros Hnd%NoDup_pad Hr. split.
  - intros f Hf.
    destruct (fixture_sides teams r round f Hr Hf)
      as (k & i & h & a & Hn & Hk & Hi & -> & Hh & Ha).
    simpl. intros [= ->].
    pose proof (NoDup_lookup _ _ _ _ Hnd Hh Ha) as Heq.
    apply orig_index_inj in Heq; lia.
  - intros f1 f2 t Hf1 Hf2 Ht1 Ht2.
    destruct (fixture_sides teams r round f1 Hr Hf1)
      as (k & i1 & h1 & a1 & Hn & Hk1 & Hi1 & -> & Hh1 & Ha1).
    destruct (fixture_sides teams r round f2 Hr Hf2)
      as (k' & i2 & h2 & a2 & Hn' & Hk2 & Hi2 & -> & Hh2 & Ha2).
    assert (k' = k) as -> by lia.
    assert (i1 = i2) as ->.
    { simpl in Ht1, Ht2.
      apply elem_of_cons in Ht1 as [->|Ht1%list_elem_of_singleton];
        apply elem_of_cons in Ht2 as [Ht2|Ht2%list_elem_of_singleton];
        subst; injection Ht2 as ->.
      - pose proof (NoDup_lookup _ _ _ _ Hnd Hh1 Hh2) as Heq.
        apply orig_index_inj in Heq; lia.
      - pose proof (NoDup_lookup _ _ _ _ Hnd Hh1 Ha2) as Heq.
        apply orig_index_inj in Heq; lia.
      - pose proof (NoDup_lookup _ _ _ _ Hnd Ha1 Hh2) as Heq.
        apply orig_index_inj in Heq; lia.
      - pose proof (NoDup_lookup _ _ _ _ Hnd Ha1 Ha2) as Heq.
        apply orig_index_inj in Heq; lia. }
    rewrite Hh1 in Hh2. rewrite Ha1 in Ha2.
    by injection Hh2 as ->; injection Ha2 as ->.
Qed.

Lemma generateSchedule_round_matching_witness :
  ∃ round,
    generateSchedule five_teams !! 3%nat = Some round
    ∧ length round = 2%nat
    ∧ (∀ f, f ∈ round → f_home f ≠ f_away f)
    ∧ ∀ f1 f2 t, f1 ∈ round → f2 ∈ round →
        t ∈ [f_home f1; f_away f1] → t ∈ [f_home f2; f_away f2] → f1 = f2.
Proof.
  eexists. split; [vm_compute; reflexivity|]. split; [reflexivity|].
  apply (generateSchedule_round_matching five_teams 3).
  - apply (bool_decide_unpack _). vm_compute. exact I.
  - vm_compute; reflexivity.
Defined.

(** X15.  With an even number of non-empty team names nobody
    rests: every team plays in every round of the schedule. *)
Theorem generateSchedule_even_all_play teams r round t :
  (length teams `mod` 2 = 0)%nat →
  Forall (λ t, t ≠ ""%string) teams →
  generateSchedule teams !! r = Some round →
  t ∈ teams →
  ∃ f, f ∈ round ∧ (f_home f = Some t ∨ f_away f = Some t).
Proof.
  intros Heven Hne [Hr ->]%generateSchedule_lookup Ht.
  assert (teams ≠ []) as Hnil by (intros ->; by apply elem_of_nil in Ht).
  assert (pad teams = Some <$> teams) as Hpad.
  { unfold pad. rewrite length_fmap. rewrite bool_decide_false; [done|]. lia. }
  pose proof (iter_rotate_perm teams r Hnil) as Hperm.
  set (P := Nat.iter r rotate (pad teams)) in *.
  set (n := length (pad teams)) in *.
  assert (length P = n) as HlenP by (unfold n; by rewrite Hperm).
  assert (n `mod` 2 = 0)%nat as Hn by apply length_pad_even.
  assert (∀ i, (i < n)%nat → truthy (js_nth P i) = true) as Htruthy.
  { intros i Hi. apply (perm_all_truthy P teams); [by rewrite Hperm, Hpad|done|lia]. }
  assert (Some t ∈ P) as Hin.
  { rewrite Hperm, Hpad. apply list_elem_of_fmap. by exists t. }
  apply list_elem_of_lookup in Hin as [j Hj].
  pose proof (lookup_lt_Some _ _ _ Hj) as Hjn. rewrite HlenP in Hjn.
  pose proof (Nat.div_mod_eq n 2) as Hdiv. rewrite Hn in Hdiv.
  destruct (decide (2 * j < n)%nat) as [Hlow|Hhigh].
  - exists (mkFixture (fixture_id r j) (js_nth P j) (js_nth P (n - 1 - j))).
    split.
    + apply elem_of_round_matches. exists j.
      split; [done|]. split; [apply Htruthy; lia|]. split; [apply Htruthy; lia|done].
    + left. simpl. by apply js_nth_lookup.
  - exists (mkFixture (fixture_id r (n - 1 - j)) (js_nth P (n - 1 - j))
              (js_nth P (n - 1 - (n - 1 - j)))).
    split.
    + apply elem_of_round_matches. exists (n - 1 - j)%nat.
      split; [lia|]. split; [apply Htruthy; lia|]. split; [apply Htruthy; lia|done].
    + right. simpl. replace (n - 1 - (n - 1 - j))%nat with j by lia.
      by apply js_nth_lookup.
Qed.

Lemma generateSchedule_even_all_play_witness :
  ∃ round f,
    generateSchedule ["Ajax"; "Bayern"; "Celtic"; "Dynamo"]%string !! 2%nat
    = Some round
    ∧ f ∈ round
    ∧ (f_home f = Some "Celtic"%string ∨ f_away f = Some "Celtic"%string).
Proof.
  eexists.
  refine (let H := generateSchedule_even_all_play
            ["Ajax"; "Bayern"; "Celtic"; "Dynamo"]%string 2 _ "Celtic" _ _ _ _ in _).
  - destruct H as (f & Hf & Hside). exists f. split; [|split; [exact Hf|exact Hside]].
    vm_compute; reflexivity.
  Unshelve.
  + reflexivity.
  + apply (bool_decide_unpack _). vm_compute. exact I.
  + vm_compute; reflexivity.
  + apply (bool_decide_unpack _). vm_compute. exact I.
Defined.

(** ** From the schedule to the bracket *)

Lemma parseInt_pretty_N (n : N) : parseInt (pretty n) = Some (Z.of_N n).
Proof.
  pose proof (parseInt_pretty n "" I) as H. by rewrite string_app_empty_r in H.
Qed.

Lemma generateSchedule_fixture teams f :
  NoDup teams → Forall (λ t, t ≠ ""%string) teams →
  f ∈ concat (generateSchedule teams) →
  ∃ r i h a, f = mkFixture (fixture_id r i) (Some h) (Some a)
    ∧ h ≠ ""%string ∧ a ≠ ""%string ∧ h ≠ a ∧ h ∈ teams ∧ a ∈ teams.
Proof.
  intros Hnd Hne (round & Hround%list_elem_of_In & Hf%list_elem_of_In)%list_elem_of_In%in_concat.
  assert (teams ≠ []) as Hnil.
  { intros ->. by apply elem_of_nil in Hround. }
  destruct (generateSchedule_members teams round f Hnil Hround Hf)
    as (h & a & Hh & Ha & Hhin & Hain).
  apply list_elem_of_lookup in Hround as [r Hr].
  destruct (fixture_sides teams r round f Hr Hf)
    as (k & i & h' & a' & Hn & Hk & Hi & -> & Hh' & Ha').
  simpl in Hh, Ha. injection Hh as ->. injection Ha as ->.
  rewrite Forall_forall in Hne.
  exists r, i, h, a. repeat split; auto.
  intros ->. apply NoDup_pad in Hnd.
  pose proof (NoDup_lookup _ _ _ _ Hnd Hh' Ha') as Heq.
  apply orig_index_inj in Heq; lia.
Qed.

Lemma stage_state_create tid teams logos fs0 :
  proto_key ∉ teams →
  stage_state tid teams [] (createTournament tid teams logos fs0).
Proof.
  intros Hproto. unfold stage_state, createTournament, loadSchedule, loadScoreboard,
    saveScoreboard, saveSchedule; simpl.
  split; [apply lookup_insert_eq|].
  eexists _, _. split; [apply lookup_insert_eq|].
  split; [done|]. split; [by intros r ?%elem_of_nil|].
  split; [apply NoDup_keys_createInitialScoreboard|].
  intros t. rewrite <- obj_get_Some_keys, obj_get_createInitialScoreboard.
  case_bool_decide as Ht; [split; [by intros _; apply Ht|by eauto]|].
  split; [by intros [? ?]|]. intros Hin. exfalso. apply Ht.
  split; [done|]. by intros ->.
Qed.

Lemma stage_state_report tid teams hs as_ (fxs reported : list Fixture) fs :
  NoDup teams → Forall (λ t, t ≠ ""%string) teams → proto_key ∉ teams →
  (∀ f, f ∈ fxs → f ∈ concat (generateSchedule teams)) →
  NoDup (f_id <$> (reported ++ fxs)) →
  stage_state tid teams reported fs →
  stage_state tid teams (reported ++ fxs)
    (upsert_all tid (fixture_payload hs as_ <$> fxs) fs).
Proof.
  intros Hnd Hne Hproto. unfold upsert_all. revert reported fs.
  induction fxs as [|f fxs IH]; intros reported fs Hin Hids Hst; simpl.
  { by rewrite app_nil_r. }
  replace (reported ++ f :: fxs) with ((reported ++ [f]) ++ fxs) in *
    by (by rewrite <- app_assoc).
  apply IH; [intros f' Hf'; apply Hin; by right|done|].
  destruct (generateSchedule_fixture teams f Hnd Hne)
    as (r & i & h & a & -> & Hh & Ha & Hha & Hhin & Hain); [apply Hin; by left|].
  destruct Hst as (Hsched & sb & rs & Hd & Hrs & Hteams & Hkeys & Hiff).
  set (p := fixture_payload hs as_ (mkFixture (fixture_id r i) (Some h) (Some a))).
  assert (match_id p = fixture_id r i) as Hid by done.
  pose proof (updateMatchResult_valid fs tid _ p (Z.of_N (hs _)) (Z.of_N (as_ _))
                Hd Hh Ha Hha (parseInt_pretty_N _) (parseInt_pretty_N _)
                ltac:(lia) ltac:(lia)) as Hup.
  cbv zeta in Hup. rewrite Hup. clear Hup. cbn [snd results scoreboard knockout].
  rewrite Hid, remove_first_fresh.
  2:{ rewrite Hrs. rewrite fmap_app, fmap_app in Hids.
      apply NoDup_app in Hids as [Hids _]. apply NoDup_app in Hids as (_ & Hids & _).
      intros Hbad. apply (Hids _ Hbad). by left. }
  split; [exact Hsched|].
  eexists _, _. split; [apply loadScoreboard_save|].
  split; [by rewrite !fmap_app, Hrs|].
  assert (∀ r0, r0 ∈ rs ++ [mkMatchResult (fixture_id r i) h a
                              (Z.of_N (hs (mkFixture (fixture_id r i) (Some h) (Some a))))
                              (Z.of_N (as_ (mkFixture (fixture_id r i) (Some h) (Some a))))] →
                r_home r0 ∈ teams ∧ r_away r0 ∈ teams) as Hteams'.
  { intros r0 [?| ->%list_elem_of_singleton]%elem_of_app; [by apply Hteams|done]. }
  split; [exact Hteams'|]. split; [apply NoDup_keys_recompute|].
  intros t. rewrite <- obj_get_Some_keys, obj_get_recompute.
  case_bool_decide as Ht.
  - split; [intros _|by eauto]. destruct Ht as [Ht _].
    apply elem_of_app in Ht as [?|Ht]; [by apply Hiff|].
    apply list_elem_of_In, in_flat_map in Ht as (r0 & Hr0%list_elem_of_In & Ht).
    destruct (Hteams' r0 Hr0). destruct Ht as [<-|[<-|[]]]; done.
  - split; [by intros [? ?]|]. intros Hin'. exfalso. apply Ht.
    split; [|by intros ->].
    apply elem_of_app. left. by apply Hiff.
Qed.

(** X16.  From creation to the bracket.  A tournament is created for at
    least four distinct non-empty team names, none of them __proto__, and
    results come in for the
    fixtures of its schedule, in schedule order, each reported with the id and
    teams of its fixture and two scores, on a ledger on which the arithmetic
    of the code is exact.  While fewer than all fixtures
    are reported generatePlayoff refuses; once all are, it seeds the
    semi-finals with four different teams of the tournament. *)
Theorem group_stage_then_playoff lc tid teams logos fs0 hs as_ k :
  NoDup teams → Forall (λ t, t ≠ ""%string) teams → proto_key ∉ teams →
  (4 ≤ length teams)%nat →
  exact_ledger (stage_ledger teams hs as_) →
  let ps := group_stage teams hs as_ in
  let fs := upsert_all tid (take k ps) (createTournament tid teams logos fs0) in
  if bool_decide (k < length ps)%nat
  then generatePlayoff lc fs tid = (Err "Group stage is not yet complete.", fs)
  else ∃ ko fs' t1 t2 t3 t4,
         generatePlayoff lc fs tid = (Ok ko, fs')
         ∧ semiFinals ko = (emptyMatch "sf1" (Some t1) (Some t4),
                            emptyMatch "sf2" (Some t2) (Some t3))
         ∧ NoDup [t1; t2; t3; t4]
         ∧ Forall (λ t, t ∈ teams) [t1; t2; t3; t4].
Proof.
  intros Hnd Hne Hproto Hlen _ ps fs.
  assert (stage_state tid teams (take k (concat (generateSchedule teams))) fs)
    as (Hsched & sb & rs & Hd & Hrs & _ & Hkeys & Hiff).
  { unfold fs, ps, group_stage. rewrite <- fmap_take.
    apply (stage_state_report tid teams hs as_ _ []); try done.
    - intros f Hf. by eapply subseteq_take.
    - simpl. eapply sublist_NoDup;
        [apply (NoDup_rounds_from_ids (length (pad teams) - 1) (length (pad teams)) 0
                  (pad teams))|].
      apply fmap_sublist, sublist_take.
    - by apply stage_state_create. }
  assert (length rs = length (take k (concat (generateSchedule teams)))) as Hlrs.
  { by rewrite <- (length_fmap r_id), Hrs, length_fmap. }
  rewrite length_take in Hlrs.
  assert (length ps = length (concat (generateSchedule teams))) as Hlps
    by (unfold ps, group_stage; by rewrite length_fmap).
  unfold generatePlayoff. rewrite Hsched, Hd. cbn [knockout results scoreboard].
  rewrite total_matches.
  case_bool_decide as Hk.
  - rewrite bool_decide_true by lia. done.
  - rewrite bool_decide_false by lia.
    assert (length teams ≤ length (obj_keys sb))%nat as Hle.
    { apply submseteq_length, NoDup_submseteq; [done|]. intros t. apply Hiff. }
    rewrite bool_decide_false by lia.
    unfold ranked. rewrite standings_of_obj by done.
    pose proof (js_sort_perm (standings_cmp lc) sb) as Hperm.
    assert (4 ≤ length (js_sort (standings_cmp lc) sb))%nat as Hl.
    { rewrite (Permutation_length Hperm). unfold obj_keys in Hle.
      rewrite length_fmap in Hle. lia. }
    assert (NoDup (js_sort (standings_cmp lc) sb).*1) as Hnd4
      by (by rewrite Hperm).
    assert (∀ t, t ∈ (js_sort (standings_cmp lc) sb).*1 → t ∈ teams) as Hin4.
    { intros t. rewrite Hperm. apply Hiff. }
    destruct (js_sort (standings_cmp lc) sb)
      as [|e1 [|e2 [|e3 [|e4 rest]]]]; simpl in Hl; try lia.
    eexists _, _, e1.1, e2.1, e3.1, e4.1. split; [reflexivity|].
    split; [done|]. rewrite !fmap_cons in Hnd4, Hin4. split.
    + apply (sublist_NoDup _ _ Hnd4).
      repeat apply sublist_skip. apply sublist_nil_l.
    + repeat (apply Forall_cons; split;
                [apply Hin4; repeat (first [by left|right])|]).
      by apply Forall_nil.
Qed.

Lemma group_stage_then_playoff_witness :
  let fs := upsert_all "cup" (take 5 (group_stage five_teams (λ _, 2%N) (λ _, 1%N)))
              (createTournament "cup" five_teams [] emptyStore) in
  generatePlayoff codeUnitCompare fs "cup"
  = (Err "Group stage is not yet complete.", fs).
Proof.
  apply (group_stage_then_playoff codeUnitCompare "cup" five_teams [] emptyStore
           (λ _, 2%N) (λ _, 1%N) 5).
  - apply (bool_decide_unpack _). vm_compute. exact I.
  - apply (bool_decide_unpack _). vm_compute. exact I.
  - apply (bool_decide_unpack _). vm_compute. exact I.
  - vm_compute. lia.
  - unfold exact_ledger. apply (bool_decide_unpack _). vm_compute. exact I.
Defined.

(** ** Slugs and tournament ids *)

Lemma head_replace_runs_true s : head_hyphen (replace_runs true s) = false.
Proof.
  induction s as [|c s IH]; simpl; [done|].
  destruct (is_slug_char c) eqn:E; [|done]. simpl.
  unfold is_hyphen. case_bool_decide as Hc; [|done]. by subst c.
Qed.

Lemma slug_char_not_hyphen c : is_slug_char c = true → is_hyphen c = false.
Proof.
  intros H. unfold is_hyphen. case_bool_decide as Hc; [|done]. by subst c.
Qed.

Lemma replace_runs_shape b s :
  slug_chars (replace_runs b s) = true
  ∧ no_double_hyphen (replace_runs b s) = true.
Proof.
  revert b. induction s as [|c s IH]; intros b; simpl; [done|].
  destruct (is_slug_char c) eqn:E.
  - simpl. rewrite E. simpl. destruct (IH false) as [-> ->].
    by rewrite (slug_char_not_hyphen c E).
  - destruct b; [apply IH|]. simpl.
    destruct (IH true) as [-> ->]. by rewrite head_replace_runs_true.
Qed.

Lemma strip_leading_shape s :
  slug_chars s = true → no_double_hyphen s = true →
  slug_chars (strip_leading s) = true
  ∧ no_double_hyphen (strip_leading s) = true
  ∧ head_hyphen (strip_leading s) = false.
Proof.
  induction s as [|c s IH]; simpl; [done|].
  intros [Hc Hs]%andb_prop [Hd Hn]%andb_prop.
  destruct (is_hyphen c) eqn:E; [by apply IH|].
  simpl. rewrite E, Hs, Hn. rewrite orb_false_r in Hc. by rewrite Hc.
Qed.

Lemma head_strip_trailing s :
  head_hyphen s = false → head_hyphen (strip_trailing s) = false.
Proof.
  destruct s as [|c s]; simpl; [done|]. intros H. rewrite H. simpl. exact H.
Qed.

Lemma head_strip_trailing_mono s :
  head_hyphen (strip_trailing s) = true → head_hyphen s = true.
Proof.
  destruct s as [|c s]; simpl; [done|].
  destruct (is_hyphen c) eqn:E; [done|]. simpl. by rewrite E.
Qed.

Lemma strip_trailing_shape s :
  slug_chars s = true → no_double_hyphen s = true →
  slug_chars (strip_trailing s) = true
  ∧ no_double_hyphen (strip_trailing s) = true
  ∧ last_hyphen (strip_trailing s) = false.
Proof.
  induction s as [|c s IH]; simpl; [done|].
  intros [Hc Hs]%andb_prop [Hd Hn]%andb_prop.
  destruct (IH Hs Hn) as (IH1 & IH2 & IH3).
  destruct (is_hyphen c) eqn:E; simpl.
  - case_bool_decide as Hr; simpl; [done|].
    rewrite IH1, IH2, E, orb_true_r. simpl.
    destruct (head_hyphen (strip_trailing s)) eqn:Hh.
    { apply head_strip_trailing_mono in Hh. by rewrite Hh in Hd. }
    split; [done|]. split; [done|].
    destruct (strip_trailing s); [done|exact IH3].
  - rewrite orb_false_r in Hc. rewrite Hc, IH1, IH2, E. simpl.
    split; [done|]. split; [done|].
    destruct (strip_trailing s); [done|exact IH3].
Qed.

Lemma slugify_shape_bool toLowerCase trim str :
  let s := slugify toLowerCase trim str in
  slug_chars s = true ∧ no_double_hyphen s = true
  ∧ head_hyphen s = false ∧ last_hyphen s = false.
Proof.
  unfold slugify. simpl.
  destruct (replace_runs_shape false (trim (toLowerCase str))) as [H1 H2].
  destruct (strip_leading_shape _ H1 H2) as (H3 & H4 & H5).
  destruct (strip_trailing_shape _ H3 H4) as (H6 & H7 & H8).
  repeat split; try done. by apply head_strip_trailing.
Qed.

Lemma append_cons c s1 s2 : (String c s1 +:+ s2)%string = String c (s1 +:+ s2)%string.
Proof. reflexivity. Qed.

Lemma append_empty s : (EmptyString +:+ s)%string = s.
Proof. reflexivity. Qed.

Lemma slug_chars_at s s1 c s2 :
  slug_chars s = true → s = (s1 +:+ String c s2)%string →
  is_slug_char c = true ∨ c = "-"%char.
Proof.
  revert s. induction s1 as [|c1 s1 IH]; intros s Hs ->.
  - rewrite append_empty in Hs. simpl in Hs.
    apply andb_prop in Hs as [[?|Hh]%orb_prop _]; [by left|right].
    unfold is_hyphen in Hh. by case_bool_decide.
  - rewrite append_cons in Hs. simpl in Hs. apply andb_prop in Hs as [_ Hs].
    by eapply IH.
Qed.

Lemma no_double_hyphen_at s s1 s2 :
  no_double_hyphen s = true → s ≠ (s1 +:+ "--" +:+ s2)%string.
Proof.
  revert s. induction s1 as [|c1 s1 IH]; intros s Hs ->.
  - rewrite append_empty in Hs. by change (false = true) in Hs.
  - rewrite append_cons in Hs. simpl in Hs. apply andb_prop in Hs as [_ Hs].
    by eapply IH.
Qed.

Lemma last_hyphen_at s s1 : last_hyphen s = false → s ≠ (s1 +:+ "-")%string.
Proof.
  revert s. induction s1 as [|c1 s1 IH]; intros s Hs ->.
  - rewrite append_empty in Hs. done.
  - rewrite append_cons in Hs. simpl in Hs.
    destruct (s1 +:+ "-")%string eqn:E.
    + destruct s1; discriminate.
    + by eapply IH.
Qed.

(** X17.  Whatever the name, and whatever toLowerCase and trim return, the
    slug consists of lower-case letters, digits and hyphens only, does not
    begin or end with a hyphen and never has two hyphens in a row. *)
Theorem slugify_shape toLowerCase trim str :
  let slug := slugify toLowerCase trim str in
  (∀ s1 c s2, slug = (s1 +:+ String c s2)%string →
     is_slug_char c = true ∨ c = "-"%char)
  ∧ (∀ s2, slug ≠ String "-" s2)
  ∧ (∀ s1, slug ≠ (s1 +:+ "-")%string)
  ∧ (∀ s1 s2, slug ≠ (s1 +:+ "--" +:+ s2)%string).
Proof.
  destruct (slugify_shape_bool toLowerCase trim str) as (H1 & H2 & H3 & H4).
  cbv zeta in *. split; [|split; [|split]].
  - intros s1 c s2. by apply slug_chars_at.
  - intros s2 Heq. rewrite Heq in H3. done.
  - intros s1. by apply last_hyphen_at.
  - intros s1 s2. by apply no_double_hyphen_at.
Qed.

Lemma replace_runs_fixed b s :
  slug_chars s = true → no_double_hyphen s = true →
  (b = true → head_hyphen s = false) →
  replace_runs b s = s.
Proof.
  revert b. induction s as [|c s IH]; intros b; simpl; [done|].
  intros [Hc Hs]%andb_prop [Hd Hn]%andb_prop Hb.
  destruct (is_slug_char c) eqn:E.
  - f_equal. apply IH; try done.
  - simpl in Hc. unfold is_hyphen in Hc, Hb, Hd.
    case_bool_decide as Hh; [|done]. subst c.
    destruct b; [by specialize (Hb eq_refl)|].
    f_equal. apply IH; try done. intros _. simpl in Hd.
    by destruct (head_hyphen s).
Qed.

Lemma strip_leading_fixed s : head_hyphen s = false → strip_leading s = s.
Proof. destruct s as [|c s]; simpl; [done|]. by intros ->. Qed.

Lemma strip_trailing_fixed s : last_hyphen s = false → strip_trailing s = s.
Proof.
  induction s as [|c s IH]; simpl; [done|]. intros Hl.
  destruct s as [|c' s].
  - simpl. by rewrite Hl.
  - rewrite IH by done. rewrite (bool_decide_false (String c' s = "")) by done.
    by rewrite andb_false_r.
Qed.

(** X18.  A slug is its own slug: when toLowerCase and trim leave the slug
    of a name unchanged, as they do for a text of lower-case letters, digits
    and inner hyphens, slugify maps the slug to itself. *)
Theorem slugify_idempotent toLowerCase trim str :
  let slug := slugify toLowerCase trim str in
  toLowerCase slug = slug → trim slug = slug →
  slugify toLowerCase trim slug = slug.
Proof.
  intros slug Hlow Htrim.
  destruct (slugify_shape_bool toLowerCase trim str) as (H1 & H2 & H3 & H4).
  fold slug in H1, H2, H3, H4.
  unfold slugify at 1. rewrite Hlow, Htrim.
  rewrite replace_runs_fixed by done.
  rewrite strip_leading_fixed by done. by apply strip_trailing_fixed.
Qed.

Lemma slugify_idempotent_witness :
  slugify lower_text trim_text "  Champions League -- 2024/25!  "
  = "champions-league-2024-25"%string
  ∧ slugify lower_text trim_text "champions-league-2024-25"
    = "champions-league-2024-25"%string.
Proof.
  split; [reflexivity|].
  apply (slugify_idempotent lower_text trim_text "  Champions League -- 2024/25!  ").
  - reflexivity.
  - reflexivity.
Defined.

(** X19.  A tournament id is made of lower-case letters, digits and hyphens
    only when the timestamp text is: it holds no dot, slash or backslash, so
    the directory of the tournament lies directly in the data directory. *)
Theorem generateTournamentId_chars toLowerCase trim name ts :
  slug_chars ts = true →
  let id := generateTournamentId toLowerCase trim name ts in
  ∀ s1 c s2, id = (s1 +:+ String c s2)%string →
    (is_slug_char c = true ∨ c = "-"%char)
    ∧ c ≠ "."%char ∧ c ≠ "/"%char ∧ c ≠ "\"%char.
Proof.
  intros Hts id s1 c s2 Heq.
  assert (slug_chars id = true) as Hid.
  { unfold id, generateTournamentId.
    destruct (slugify_shape_bool toLowerCase trim name) as (H1 & _).
    cbv zeta in H1. revert H1.
    generalize (slugify toLowerCase trim name) as s.
    induction s as [|c0 s IH]; intros H1.
    - rewrite append_empty. change (slug_chars ts = true). done.
    - rewrite append_cons. simpl in *. apply andb_prop in H1 as [-> H1].
      by apply IH. }
  destruct (slug_chars_at id s1 c s2 Hid Heq) as [Hc| ->].
  - split; [by left|]. repeat split; intros ->; discriminate.
  - split; [by right|]. repeat split; discriminate.
Qed.

Lemma generateTournamentId_chars_witness :
  generateTournamentId lower_text trim_text "../../etc" "lzx3k9a2"
  = "etc-lzx3k9a2"%string
  ∧ ∀ s1 c s2,
      generateTournamentId lower_text trim_text "../../etc" "lzx3k9a2"
      = (s1 +:+ String c s2)%string →
      (is_slug_char c = true ∨ c = "-"%char)
      ∧ c ≠ "."%char ∧ c ≠ "/"%char ∧ c ≠ "\"%char.
Proof.
  split; [reflexivity|].
  apply (generateTournamentId_chars lower_text trim_text "../../etc" "lzx3k9a2").
  reflexivity.
Defined.

(** ** Team lists with a repeated name *)

(** X20.  Team names are not checked for repetition.  When a non-empty name
    stands at two places of the team list, the schedule has a fixture of that
    team against itself, and every result reported for that fixture is
    rejected with the error for invalid teams. *)
Theorem repeated_name_self_fixture teams u v a :
  Forall (λ t, t ≠ ""%string) teams →
  teams !! u = Some a → teams !! v = Some a → u ≠ v →
  ∃ r round f,
    generateSchedule teams !! r = Some round ∧ f ∈ round
    ∧ f_home f = Some a ∧ f_away f = Some a
    ∧ ∀ fs tid hs as_, is_Some (loadScoreboard fs tid) →
        updateMatchResult fs tid (fixture_payload hs as_ f)
        = (Err "Invalid teams.", fs).
Proof.
  intros Hne Hu Hv Huv.
  destruct (generateSchedule_meet_at teams u v a a Hne Hu Hv Huv)
    as (r & round & f & Hr & Hf & Hp).
  exists r, round, f. split; [done|]. split; [done|].
  assert (f_home f = Some a ∧ f_away f = Some a) as [Hh Ha]
    by (by destruct Hp as [[? ?]|[? ?]]).
  split; [done|]. split; [done|].
  intros fs tid hs as_ [d Hd]. unfold updateMatchResult. rewrite Hd.
  unfold fixture_payload. cbn [p_home p_away]. rewrite Hh, Ha. simpl.
  rewrite (bool_decide_true (a = a)) by done. by rewrite orb_true_r.
Qed.

Lemma repeated_name_self_fixture_witness :
  ∃ r round f,
    generateSchedule ["Ajax"; "Bayern"; "Ajax"; "Celtic"]%string !! r = Some round
    ∧ f ∈ round
    ∧ f_home f = Some "Ajax"%string ∧ f_away f = Some "Ajax"%string
    ∧ ∀ fs tid hs as_, is_Some (loadScoreboard fs tid) →
        updateMatchResult fs tid (fixture_payload hs as_ f)
        = (Err "Invalid teams.", fs).
Proof.
  apply (repeated_name_self_fixture ["Ajax"; "Bayern"; "Ajax"; "Celtic"]%string 0 2).
  - apply (bool_decide_unpack _). vm_compute. exact I.
  - reflexivity.
  - reflexivity.
  - lia.
Defined.

(** ** The page and the server *)

(** X21.  The page and the server on the bracket.  For a page that has
    loaded the schedule and the scoreboard of a tournament as they are
    stored: when it shows the bracket, generatePlayoff returns that bracket
    and changes nothing; when it offers the button, generatePlayoff succeeds
    and stores a bracket; when it shows neither, generatePlayoff fails unless
    more results are stored than the schedule has fixtures. *)
Theorem page_playoff_view lc fs tid schedule data :
  loadSchedule fs tid = Some schedule →
  loadScoreboard fs tid = Some data →
  match updatePlayoffSection (Some schedule) (Some data)
          (computeMatchCount (Some schedule)) with
  | ShowBracket ko => generatePlayoff lc fs tid = (Ok ko, fs)
  | OfferGenerate =>
      ∃ ko, generatePlayoff lc fs tid
            = (Ok ko, saveScoreboard tid
                        (mkData (scoreboard data) (results data) (Some ko)) fs)
  | Hidden =>
      (∃ msg, generatePlayoff lc fs tid = (Err msg, fs))
      ∨ ∃ rs, results data = Some rs
              ∧ (length (concat schedule) < length rs)%nat
  end.
Proof.
  intros Hs Hd. unfold updatePlayoffSection, generatePlayoff, computeMatchCount.
  rewrite Hs, Hd. destruct (knockout data) as [ko|]; [done|].
  rewrite total_matches.
  destruct (results data) as [rs|]; simpl; [|by left; eexists].
  destruct (decide (length rs = length (concat schedule))) as [Heq|Hne].
  - rewrite (bool_decide_true _ Heq). simpl.
    rewrite (bool_decide_false (length rs < _)%nat) by lia.
    case_bool_decide as H4.
    + rewrite bool_decide_false by lia. by eexists.
    + rewrite bool_decide_true by lia. left. by eexists.
  - rewrite (bool_decide_false _ Hne). simpl.
    destruct (decide (length rs < length (concat schedule))%nat) as [Hlt|Hge].
    + rewrite (bool_decide_true _ Hlt). left. by eexists.
    + right. exists rs. split; [done|]. lia.
Qed.

Lemma page_playoff_view_witness :
  let schedule := generateSchedule ["Ajax"; "Bayern"; "Celtic"; "Dynamo"]%string in
  let data := default (mkData [] None None) (loadScoreboard cup4_played "cup") in
  match updatePlayoffSection (Some schedule) (Some data)
          (computeMatchCount (Some schedule)) with
  | ShowBracket ko => generatePlayoff codeUnitCompare cup4_played "cup" = (Ok ko, cup4_played)
  | OfferGenerate =>
      ∃ ko, generatePlayoff codeUnitCompare cup4_played "cup"
            = (Ok ko, saveScoreboard "cup"
                        (mkData (scoreboard data) (results data) (Some ko))
                        cup4_played)
  | Hidden =>
      (∃ msg, generatePlayoff codeUnitCompare cup4_played "cup" = (Err msg, cup4_played))
      ∨ ∃ rs, results data = Some rs
              ∧ (length (concat schedule) < length rs)%nat
  end.
Proof.
  intros schedule data.
  apply (page_playoff_view codeUnitCompare cup4_played "cup" schedule data).
  - vm_compute; reflexivity.
  - vm_compute; reflexivity.
Defined.

(** ** Escaping of team names *)

Lemma append_assoc s1 s2 s3 :
  ((s1 +:+ s2) +:+ s3 = s1 +:+ (s2 +:+ s3))%string.
Proof.
  induction s1 as [|c s1 IH]; [done|].
  rewrite !append_cons. by rewrite IH.
Qed.

Lemma replace_char_app c rep s1 s2 :
  replace_char c rep (s1 +:+ s2)
  = (replace_char c rep s1 +:+ replace_char c rep s2)%string.
Proof.
  induction s1 as [|x s1 IH]; [done|].
  rewrite append_cons. simpl. rewrite IH. case_decide.
  - by rewrite append_assoc.
  - by rewrite append_cons.
Qed.

Lemma escapeHtml_app s1 s2 :
  escapeHtml (s1 +:+ s2) = (escapeHtml s1 +:+ escapeHtml s2)%string.
Proof. unfold escapeHtml. by rewrite !replace_char_app. Qed.

Lemma escapeHtml_single x : escapeHtml (String x EmptyString) = escape_char x.
Proof.
  unfold escape_char.
  repeat (case_decide; [subst x; reflexivity|]).
  unfold escapeHtml. simpl.
  rewrite (decide_False (P := x = "&"%char)) by done. simpl.
  rewrite (decide_False (P := x = "<"%char)) by done. simpl.
  rewrite (decide_False (P := x = ">"%char)) by done. simpl.
  rewrite (decide_False (P := x = dquote)) by done. simpl.
  by rewrite (decide_False (P := x = "'"%char)) by done.
Qed.

Lemma escapeHtml_cons x s :
  escapeHtml (String x s) = (escape_char x +:+ escapeHtml s)%string.
Proof.
  change (String x s) with (String x EmptyString +:+ s)%string.
  by rewrite escapeHtml_app, escapeHtml_single.
Qed.

Lemma html_safe_app s1 s2 :
  html_safe (s1 +:+ s2) = html_safe s1 && html_safe s2.
Proof.
  induction s1 as [|c s1 IH]; [done|].
  rewrite append_cons. simpl. rewrite IH. by rewrite andb_assoc.
Qed.

Lemma html_safe_escape_char x : html_safe (escape_char x) = true.
Proof.
  unfold escape_char. repeat (case_decide; [reflexivity|]).
  simpl. unfold html_special. by rewrite !bool_decide_false by done.
Qed.

Lemma html_safe_escapeHtml s : html_safe (escapeHtml s) = true.
Proof.
  induction s as [|x s IH]; [done|].
  by rewrite escapeHtml_cons, html_safe_app, html_safe_escape_char, IH.
Qed.

Lemma html_safe_at s s1 c s2 :
  html_safe s = true → s = (s1 +:+ String c s2)%string → html_special c = false.
Proof.
  revert s. induction s1 as [|c1 s1 IH]; intros s Hs ->.
  - rewrite append_empty in Hs. simpl in Hs.
    apply andb_prop in Hs as [Hc _]. by destruct (html_special c).
  - rewrite append_cons in Hs. simpl in Hs. apply andb_prop in Hs as [_ Hs].
    by eapply IH.
Qed.

Lemma escape_char_cases x :
  (x = "&"%char ∧ escape_char x = "&amp;"%string)
  ∨ (x = "<"%char ∧ escape_char x = "&lt;"%string)
  ∨ (x = ">"%char ∧ escape_char x = "&gt;"%string)
  ∨ (x = dquote ∧ escape_char x = "&quot;"%string)
  ∨ (x = "'"%char ∧ escape_char x = "&#039;"%string)
  ∨ (x ≠ "&"%char ∧ escape_char x = String x EmptyString).
Proof.
  unfold escape_char.
  repeat (case_decide; [subst x; auto 10|]). auto 10.
Qed.

Lemma escapeHtml_inj s t : escapeHtml s = escapeHtml t → s = t.
Proof.
  revert t. induction s as [|x s IH]; intros [|y t].
  - done.
  - rewrite escapeHtml_cons.
    destruct (escape_char_cases y) as [[_ ->]|[[_ ->]|[[_ ->]|[[_ ->]|[[_ ->]|[_ ->]]]]]];
      discriminate.
  - rewrite escapeHtml_cons.
    destruct (escape_char_cases x) as [[_ ->]|[[_ ->]|[[_ ->]|[[_ ->]|[[_ ->]|[_ ->]]]]]];
      discriminate.
  - rewrite !escapeHtml_cons. intros H.
    assert (x = y ∧ escapeHtml s = escapeHtml t) as [-> Heq].
    { destruct (escape_char_cases x) as [[-> Ex]|[[-> Ex]|[[-> Ex]|[[-> Ex]|[[-> Ex]|[Hx Ex]]]]]];
      destruct (escape_char_cases y) as [[-> Ey]|[[-> Ey]|[[-> Ey]|[[-> Ey]|[[-> Ey]|[Hy Ey]]]]]];
      rewrite ?Ex, ?Ey in H; rewrite ?append_cons, ?append_empty in H;
      try discriminate H;
      try (injection H as H; split; [reflexivity|exact H]);
      try (injection H as H1 H2; split; congruence).
    }
    f_equal. by apply IH.
Qed.

(** X22.  escapeHtml never lets a character through that could end a text
    or an attribute value: its result holds no less-than sign, greater-than
    sign, double quote or apostrophe; and it loses nothing: two names with
    the same escaped text are the same name. *)
Theorem escapeHtml_safe s :
  (∀ s1 c s2, escapeHtml s = (s1 +:+ String c s2)%string →
     c ≠ "<"%char ∧ c ≠ ">"%char ∧ c ≠ dquote ∧ c ≠ "'"%char)
  ∧ (∀ t, escapeHtml s = escapeHtml t → s = t).
Proof.
  split.
  - intros s1 c s2 Heq.
    pose proof (html_safe_at _ s1 c s2 (html_safe_escapeHtml s) Heq) as Hc.
    unfold html_special in Hc.
    repeat split; intros ->; discriminate.
  - intros t. apply escapeHtml_inj.
Qed.
